(** * AutoBridge floorplanning: the partition search layer and the four-way ILP

    A shallow embedding of
    - [src/src/autobridge/Floorplan/Partition.py] (the outer binary searches),
    - [src/in-develop/src/autobridge/Floorplan/FourWayPartition.py] (the
      four-way bipartition: retry loop, ILP construction and result extraction),
    - [src/graph.py] ([Vertex.add_in], [Vertex.add_out], [Graph.initEdges]).

    Python floats are modelled by exact rationals [Q]; Python dicts by stdpp's
    [gmap]; vertices and slots by their identities ([nat]).  Python values that
    are passed positionally between the search layer and the partitioners are
    modelled by [pyval], so that the binding of positional arguments to
    parameters is the one Python performs. *)

From Stdlib Require Import ZArith QArith Qround Qabs Lqa Lia String.
From stdpp Require Import base gmap list.

Open Scope Q_scope.

(** ** Python values and exceptions *)

(** Opaque Python objects carry a tag identifying the object. *)
Inductive pyval :=
| PyDict (tag : nat)          (* a dict, e.g. init_v2s or pre_assignments *)
| PyList (tag : nat)          (* a list, e.g. grouping_constraints *)
| PyObj (tag : nat)           (* any other object, e.g. a SlotManager *)
| PyNum (q : Q)               (* an int or a float *)
| PyNone.

Inductive exn :=
| AssertionError
| TypeError
| KeyError
| IndexError
| NotImplementedError.

(** Result of running a piece of code: a value, an exception, or no
    result within the evaluation fuel (the code is still running). *)
Inductive outcome (A : Type) :=
| Ret (a : A)
| Raise (e : exn)
| OutOfFuel.
Arguments Ret {A} a.
Arguments Raise {A} e.
Arguments OutOfFuel {A}.

(** A vertex-to-slot mapping, [Dict[Vertex, Slot]]. *)
Abbreviation v2s_t := (gmap nat nat).

(** Python truthiness of a dict: [if v2s:]. *)
Definition truthy (m : v2s_t) : bool := negb (bool_decide (m = ∅)).

Definition Qltb (x y : Q) : bool := negb (Qle_bool y x).

(** ** Partition.py: the two binary searches *)

(** A partitioner is called with positional arguments. *)
Definition partitioner_t := list pyval -> outcome v2s_t.

(** The [while (1)] loop shared by both searches: probe the midpoint, record
    a non-empty mapping and move [hi], or move [lo]; break when
    [hi - lo < thr]. *)
Fixpoint bs_loop (fuel : nat) (thr : Q) (probe : Q -> outcome v2s_t)
    (hi lo : Q) (curr_best_v2s : v2s_t) (curr_min : option Q)
    : outcome (v2s_t * option Q) :=
  match fuel with
  | O => OutOfFuel
  | S fuel' =>
      let curr := (hi + lo) / 2 in
      match probe curr with
      | Ret v2s =>
          let '(best', min', hi', lo') :=
            if truthy v2s then (v2s, Some curr, curr, lo)
            else (curr_best_v2s, curr_min, hi, curr) in
          if Qltb (hi' - lo') thr then Ret (best', min')
          else bs_loop fuel' thr probe hi' lo' best' min'
      | Raise e => Raise e
      | OutOfFuel => OutOfFuel
      end
  end.

(** Evaluation fuel for the loop: enough iterations for an interval of width
    [hi - lo] to be halved below [thr]. *)
Definition search_fuel (hi lo thr : Q) : nat :=
  S (Z.to_nat (Qceiling ((hi - lo) / thr))).

Definition slr_threshold : Q := 500.
Definition area_threshold : Q := 1 # 100.

Definition _binary_search_slr_crossing_limit
    (init_v2s slot_manager grouping_constraints pre_assignments : pyval)
    (area_limit : pyval) (min_slr_width_limit max_slr_width_limit : Q)
    (max_search_time : pyval) (partitioner : partitioner_t)
    : outcome (v2s_t * option Q) :=
  let hi := max_slr_width_limit in
  let lo := min_slr_width_limit in
  if Qle_bool lo hi then
    bs_loop (search_fuel hi lo slr_threshold) slr_threshold
      (fun curr_slr_limit =>
         partitioner [init_v2s; grouping_constraints; pre_assignments;
                      slot_manager; area_limit; PyNum curr_slr_limit;
                      max_search_time])
      hi lo ∅ None
  else Raise AssertionError.

Definition _binary_search_area_limit
    (init_v2s slot_manager grouping_constraints pre_assignments : pyval)
    (slr_width_limit : pyval) (min_area_limit max_area_limit : Q)
    (max_search_time : pyval) (partitioner : partitioner_t)
    : outcome (v2s_t * option Q) :=
  let hi := max_area_limit in
  let lo := min_area_limit in
  if Qle_bool lo hi then
    bs_loop (search_fuel hi lo area_threshold) area_threshold
      (fun curr_area_limit =>
         partitioner [init_v2s; grouping_constraints; pre_assignments;
                      slot_manager; PyNum curr_area_limit; slr_width_limit;
                      max_search_time])
      hi lo ∅ None
  else Raise AssertionError.

(** The Python [float] of an optional found limit ([None] stays [None]). *)
Definition py_of_opt (o : option Q) : pyval :=
  match o with Some q => PyNum q | None => PyNone end.

Definition partition_area_prioritized
    (init_v2s slot_manager grouping_constraints pre_assignments : pyval)
    (min_area_limit max_area_limit min_slr_width_limit max_slr_width_limit : Q)
    (max_search_time : pyval) (partitioner : partitioner_t) : outcome v2s_t :=
  match _binary_search_area_limit init_v2s slot_manager grouping_constraints
          pre_assignments (PyNum max_slr_width_limit) min_area_limit
          max_area_limit max_search_time partitioner with
  | Ret (curr_v2s, curr_area_limit) =>
      if negb (truthy curr_v2s) then Ret ∅
      else
        match _binary_search_slr_crossing_limit init_v2s slot_manager
                grouping_constraints pre_assignments (py_of_opt curr_area_limit)
                min_slr_width_limit max_slr_width_limit max_search_time
                partitioner with
        | Ret (best_v2s, _) => if negb (truthy best_v2s) then Ret curr_v2s else Ret best_v2s
        | Raise e => Raise e
        | OutOfFuel => OutOfFuel
        end
  | Raise e => Raise e
  | OutOfFuel => OutOfFuel
  end.

Definition partition_slr_crossing_prioritized
    (init_v2s slot_manager grouping_constraints pre_assignments : pyval)
    (min_area_limit max_area_limit min_slr_width_limit max_slr_width_limit : Q)
    (max_search_time : pyval) (partitioner : partitioner_t) : outcome v2s_t :=
  match _binary_search_slr_crossing_limit init_v2s slot_manager
          grouping_constraints pre_assignments (PyNum max_area_limit)
          min_slr_width_limit max_slr_width_limit max_search_time partitioner with
  | Ret (curr_v2s, curr_slr_limit) =>
      if negb (truthy curr_v2s) then Ret ∅
      else
        match _binary_search_area_limit init_v2s slot_manager
                grouping_constraints pre_assignments (py_of_opt curr_slr_limit)
                min_area_limit max_area_limit max_search_time partitioner with
        | Ret (best_v2s, _) => if negb (truthy best_v2s) then Ret curr_v2s else Ret best_v2s
        | Raise e => Raise e
        | OutOfFuel => OutOfFuel
        end
  | Raise e => Raise e
  | OutOfFuel => OutOfFuel
  end.

(** ** The behaviour of a binary search, as a run of probes *)

(** [2 ^ n] as a rational. *)
Fixpoint qpow2 (n : nat) : Q :=
  match n with
  | O => 1
  | S n' => 2 * qpow2 n'
  end.

(** One probe at [mid] with result [r]: a non-empty result is recorded and
    [hi] moves to [mid]; an empty one moves [lo] to [mid]. *)
Definition probe_update (mid : Q) (r : v2s_t)
    (hi lo : Q) (best : v2s_t) (cap : option Q)
    (hi' lo' : Q) (best' : v2s_t) (cap' : option Q) : Prop :=
  (r <> ∅ /\ best' = r /\ cap' = Some mid /\ hi' = mid /\ lo' = lo) \/
  (r = ∅ /\ best' = best /\ cap' = cap /\ hi' = hi /\ lo' = mid).

(** [search_run thr probe hi lo best cap tr bf cf]: starting from the
    interval [[lo, hi]] with recorded mapping [best] and limit [cap], the
    search makes the probes [tr] (midpoint, result), in order, and ends with
    [bf] and [cf].  Every probe is at the midpoint of the current interval;
    the search goes on exactly while the new interval is at least [thr]
    wide. *)
Inductive search_run (thr : Q) (probe : Q -> outcome v2s_t)
  : Q -> Q -> v2s_t -> option Q -> list (Q * v2s_t) -> v2s_t -> option Q -> Prop :=
| search_run_stop hi lo best cap r hi' lo' best' cap' :
    probe ((hi + lo) / 2) = Ret r ->
    probe_update ((hi + lo) / 2) r hi lo best cap hi' lo' best' cap' ->
    hi' - lo' < thr ->
    search_run thr probe hi lo best cap [((hi + lo) / 2, r)] best' cap'
| search_run_next hi lo best cap r hi' lo' best' cap' tr bf cf :
    probe ((hi + lo) / 2) = Ret r ->
    probe_update ((hi + lo) / 2) r hi lo best cap hi' lo' best' cap' ->
    thr <= hi' - lo' ->
    search_run thr probe hi' lo' best' cap' tr bf cf ->
    search_run thr probe hi lo best cap (((hi + lo) / 2, r) :: tr) bf cf.

(** The mapping and limit of the last successful probe of [tr] ([best] and
    [cap] when no probe succeeds). *)
Fixpoint last_success (tr : list (Q * v2s_t)) (best : v2s_t) (cap : option Q)
    : v2s_t * option Q :=
  match tr with
  | [] => (best, cap)
  | (mid, r) :: tr' =>
      if truthy r then last_success tr' r (Some mid) else last_success tr' best cap
  end.

(** The probe functions of the two searches. *)
Definition slr_probe (partitioner : partitioner_t)
    (init_v2s slot_manager grouping_constraints pre_assignments area_limit
     max_search_time : pyval) (curr_slr_limit : Q) : outcome v2s_t :=
  partitioner [init_v2s; grouping_constraints; pre_assignments; slot_manager;
               area_limit; PyNum curr_slr_limit; max_search_time].

Definition area_probe (partitioner : partitioner_t)
    (init_v2s slot_manager grouping_constraints pre_assignments slr_width_limit
     max_search_time : pyval) (curr_area_limit : Q) : outcome v2s_t :=
  partitioner [init_v2s; grouping_constraints; pre_assignments; slot_manager;
               PyNum curr_area_limit; slr_width_limit; max_search_time].

(** ** Python calls: binding positional arguments to parameters *)

(** A parameter name with its default value, if any. *)
Definition param := (string * option pyval)%type.

(** Positional arguments bind to the parameters in order; a parameter left
    without argument takes its default; a missing argument without default or
    a surplus argument is a [TypeError] ([None] here). *)
Fixpoint bind_positional (params : list param) (args : list pyval)
    : option (list (string * pyval)) :=
  match params, args with
  | [], [] => Some []
  | [], _ :: _ => None
  | (x, _) :: ps, a :: args' => option_map (cons (x, a)) (bind_positional ps args')
  | (x, Some d) :: ps, [] => option_map (cons (x, d)) (bind_positional ps [])
  | (_, None) :: _, [] => None
  end.

(** The value of a bound parameter. *)
Fixpoint env_get (env : list (string * pyval)) (x : string) : pyval :=
  match env with
  | [] => PyNone
  | (y, v) :: env' => if String.eqb x y then v else env_get env' x
  end.

(** ** FourWayPartition.py: the retry loop [four_way_partition] *)

(** Python's [round(x, 2)], on the exact value: round half to even at two
    decimals. *)
Definition round_half_even (q : Q) : Z :=
  let f := Qfloor q in
  let d := q - inject_Z f in
  if Qltb d (1 # 2) then f
  else if Qltb (1 # 2) d then (f + 1)%Z
  else if Z.even f then f else (f + 1)%Z.

Definition round2 (x : Q) : Q := inject_Z (round_half_even (x * 100)) * (1 # 100).

Definition four_way_partition_params : list param :=
  [("init_v2s"%string, None); ("slot_manager"%string, None);
   ("grouping_constraints"%string, None); ("pre_assignments"%string, None);
   ("ref_usage_ratio"%string, None);
   ("max_search_time"%string, Some (PyNum 600));
   ("max_usage_ratio_delta"%string, Some (PyNum (2 # 100)));
   ("hard_limit_max_usage"%string, Some (PyNum 2))].

Definition _four_way_partition_params : list param :=
  [("init_v2s"%string, None); ("grouping_constraints"%string, None);
   ("pre_assignments"%string, None); ("slot_manager"%string, None);
   ("max_usage_ratio"%string, None); ("max_search_time"%string, None);
   ("slr_0_1_width_limit"%string, Some (PyNum 12000));
   ("slr_1_2_width_limit"%string, Some (PyNum 12000));
   ("slr_2_3_width_limit"%string, Some (PyNum 12000))].

(** The positional arguments of
    [_four_way_partition(init_v2s, grouping_constraints, pre_assignments,
    slot_manager, curr_max_usage, max_search_time)]. *)
Definition four_way_inner_args (env : list (string * pyval)) (curr_max_usage : pyval)
    : list pyval :=
  [env_get env "init_v2s"; env_get env "grouping_constraints";
   env_get env "pre_assignments"; env_get env "slot_manager";
   curr_max_usage; env_get env "max_search_time"].

(** The [while 1] loop; [inner] is [_four_way_partition], called
    positionally. *)
Fixpoint four_way_loop (fuel : nat) (inner : list pyval -> outcome v2s_t)
    (env : list (string * pyval)) (curr_max_usage : pyval) : outcome v2s_t :=
  match fuel with
  | O => OutOfFuel
  | S fuel' =>
      match inner (four_way_inner_args env curr_max_usage) with
      | Ret v2s =>
          if negb (truthy v2s) then
            match curr_max_usage, env_get env "max_usage_ratio_delta",
                  env_get env "hard_limit_max_usage" with
            | PyNum c, PyNum delta, PyNum hard =>
                let c' := round2 (c + delta) in
                if Qle_bool hard c' then Ret ∅
                else four_way_loop fuel' inner env (PyNum c')
            | _, _, _ => Raise TypeError
            end
          else Ret v2s
      | Raise e => Raise e
      | OutOfFuel => OutOfFuel
      end
  end.

Definition four_way_partition (fuel : nat) (inner : list pyval -> outcome v2s_t)
    (args : list pyval) : outcome v2s_t :=
  match bind_positional four_way_partition_params args with
  | None => Raise TypeError
  | Some env => four_way_loop fuel inner env (env_get env "ref_usage_ratio")
  end.


(** ** The python-mip model built by [_four_way_partition] *)

Inductive var_type := BINARY | INTEGER | CONTINUOUS.

(** A linear expression: weighted variables (by index) plus a constant. *)
Record linexpr := mk_linexpr { le_terms : list (Q * nat); le_const : Q }.

Definition lvar (x : nat) : linexpr := mk_linexpr [(1, x)] 0.
Definition lconst (q : Q) : linexpr := mk_linexpr [] q.
Definition ladd (a b : linexpr) : linexpr :=
  mk_linexpr (le_terms a ++ le_terms b) (le_const a + le_const b).
Definition lscale (k : Q) (a : linexpr) : linexpr :=
  mk_linexpr (map (fun '(c, x) => (k * c, x)) (le_terms a)) (k * le_const a).
Definition lsub (a b : linexpr) : linexpr := ladd a (lscale (-1) b).
Definition xsum (l : list linexpr) : linexpr := fold_right ladd (lconst 0) l.

(** A constraint [e <= 0], [e >= 0] or [e == 0]; [a <= b] is [a - b <= 0]. *)
Inductive sense := SLE | SGE | SEQ.
Record constr := mk_constr { c_expr : linexpr; c_sense : sense }.
Definition cle (a b : linexpr) : constr := mk_constr (lsub a b) SLE.
Definition cge (a b : linexpr) : constr := mk_constr (lsub a b) SGE.
Definition ceq (a b : linexpr) : constr := mk_constr (lsub a b) SEQ.

(** [Model()]: its variables (the index of a variable is its position), its
    constraints and its objective. *)
Record model := mk_model {
  m_vars : list var_type;
  m_constrs : list constr;
  m_objective : linexpr }.

Definition empty_model : model := mk_model [] [] (lconst 0).

(** Code that updates a model and may raise. *)
Definition M (A : Type) := model -> outcome (model * A).

Definition mret {A} (a : A) : M A := fun m => Ret (m, a).
Definition mbind {A B} (c : M A) (k : A -> M B) : M B :=
  fun m => match c m with
           | Ret (m', a) => k a m'
           | Raise e => Raise e
           | OutOfFuel => OutOfFuel
           end.
Definition mthrow {A} (e : exn) : M A := fun _ => Raise e.
Definition lift {A} (o : outcome A) : M A :=
  fun m => match o with Ret a => Ret (m, a) | Raise e => Raise e | OutOfFuel => OutOfFuel end.

Notation "'let*' x := c 'in' k" := (mbind c (fun x => k))
  (at level 200, x name, c at level 100, k at level 200).

(** [m.add_var(var_type=...)] *)
Definition add_var (vt : var_type) : M nat :=
  fun m => Ret (mk_model (m_vars m ++ [vt]) (m_constrs m) (m_objective m), length (m_vars m)).

(** [m += c] *)
Definition add_constr (c : constr) : M unit :=
  fun m => Ret (mk_model (m_vars m) (m_constrs m ++ [c]) (m_objective m), tt).

(** [m.objective = minimize(e)] *)
Definition set_objective (e : linexpr) : M unit :=
  fun m => Ret (mk_model (m_vars m) (m_constrs m) e, tt).

Fixpoint mfor {A} (l : list A) (body : A -> M unit) : M unit :=
  match l with
  | [] => mret tt
  | x :: l' => let* _ := body x in mfor l' body
  end.

Fixpoint mmap {A B} (f : A -> M B) (l : list A) : M (list B) :=
  match l with
  | [] => mret []
  | x :: l' => let* b := f x in let* bs := mmap f l' in mret (b :: bs)
  end.

(** [d[k]] on a dict: [KeyError] when absent. *)
Definition dict_get (d : gmap nat nat) (k : nat) : M nat :=
  match d !! k with Some x => mret x | None => mthrow KeyError end.

(** [l[i]] on a Python list, negative indices counting from the end. *)
Definition py_index {A} (l : list A) (i : Z) : outcome A :=
  let n := Z.of_nat (length l) in
  let j := if (i <? 0)%Z then (n + i)%Z else i in
  if ((0 <=? j) && (j <? n))%Z then
    match nth_error l (Z.to_nat j) with Some x => Ret x | None => Raise IndexError end
  else Raise IndexError.

(** Python's [int(x)] on a float: truncation towards zero. *)
Definition py_int (q : Q) : Z :=
  if Qle_bool 0 q then Qfloor q else (- Qfloor (- q))%Z.

(** *** Semantics of a model: the feasible assignments *)

Fixpoint eval_terms (σ : nat -> Q) (ts : list (Q * nat)) : Q :=
  match ts with
  | [] => 0
  | (c, x) :: ts' => c * σ x + eval_terms σ ts'
  end.

Definition eval_lin (σ : nat -> Q) (e : linexpr) : Q := eval_terms σ (le_terms e) + le_const e.

Definition sat (σ : nat -> Q) (c : constr) : Prop :=
  match c_sense c with
  | SLE => eval_lin σ (c_expr c) <= 0
  | SGE => 0 <= eval_lin σ (c_expr c)
  | SEQ => eval_lin σ (c_expr c) == 0
  end.

(** [σ] satisfies every constraint and the integrality of every variable. *)
Definition feasible (σ : nat -> Q) (m : model) : Prop :=
  Forall (sat σ) (m_constrs m) /\
  (forall i, m_vars m !! i = Some BINARY -> σ i == 0 \/ σ i == 1) /\
  (forall i, m_vars m !! i = Some INTEGER -> exists z, σ i == inject_Z z).

(** [OptimizationStatus] of python-mip. *)
Inductive opt_status :=
| ERROR | OPTIMAL | INFEASIBLE | UNBOUNDED | FEASIBLE | INT_INFEASIBLE
| NO_SOLUTION_FOUND | LOADED | CUTOFF | OTHER.

(** *** The objects [_four_way_partition] reads

    Defined outside the modelled sources: the resource list, the vertex and
    slot areas, slot containment, the edges of the design ([get_all_edges]),
    the three crossing-constraint builders (made of the ILPUtilities helpers
    [get_var_of_logic_and] etc., which are not in the sources), and the
    solver ([m.optimize], then [m.status] and the values [var.x]). *)
Record edge := mk_edge { e_src : nat; e_dst : nat; e_width : Q }.

Record ilp_world := {
  RESOURCE_TYPES : list string;
  getVertexAndInboundFIFOArea : nat -> string -> Q;
  getArea : nat -> string -> Q;
  containsChildSlot : nat -> nat -> bool;
  get_all_edges : list nat -> list edge;
  _add_slr_0_1_crossing_constraint : list nat -> gmap nat nat -> gmap nat nat -> pyval -> M unit;
  _add_slr_1_2_crossing_constraint : list nat -> gmap nat nat -> pyval -> M unit;
  _add_slr_2_3_crossing_constraint : list nat -> gmap nat nat -> gmap nat nat -> pyval -> M unit;
  optimize : model -> pyval -> opt_status * (nat -> Q) }.

(** *** [_four_way_partition] and its helpers *)

(** [func_get_slot_by_idx(y1, y2)] of [_get_slot_by_idx_closure]. *)
Definition func_get_slot_by_idx (all_leaf_slots : list nat) (y1 y2 : Z) : outcome nat :=
  py_index all_leaf_slots (y1 * 2 + y2)%Z.

(** [product(range(2), range(2))] *)
Definition product22 : list (Z * Z) := [(0, 0); (0, 1); (1, 0); (1, 1)]%Z.

(** [d[k] = v] on a dict kept as an association list in insertion order. *)
Fixpoint assoc_set {V} (d : list (nat * V)) (k : nat) (v : V) : list (nat * V) :=
  match d with
  | [] => [(k, v)]
  | (k', v') :: d' => if Nat.eqb k k' then (k, v) :: d' else (k', v') :: assoc_set d' k v
  end.

Fixpoint assoc_get {V} (d : list (nat * V)) (k : nat) : option V :=
  match d with
  | [] => None
  | (k', v) :: d' => if Nat.eqb k k' then Some v else assoc_get d' k
  end.

Fixpoint _get_slot_to_idx_loop (f : Z -> Z -> outcome nat) (ys : list (Z * Z))
    (slot_to_idx : list (nat * (Z * Z))) : outcome (list (nat * (Z * Z))) :=
  match ys with
  | [] => Ret slot_to_idx
  | (y1, y2) :: ys' =>
      match f y1 y2 with
      | Ret s => _get_slot_to_idx_loop f ys' (assoc_set slot_to_idx s (y1, y2))
      | Raise e => Raise e
      | OutOfFuel => OutOfFuel
      end
  end.

Definition _get_slot_to_idx (f : Z -> Z -> outcome nat) : outcome (list (nat * (Z * Z))) :=
  _get_slot_to_idx_loop f product22 [].

(** [choose = lambda x, num: x if num == 1 else (1-x)] *)
Definition choose (x : nat) (num : Z) : linexpr :=
  if Z.eqb num 1 then lvar x else lsub (lconst 1) (lvar x).

(** [prods = {v : m.add_var(var_type=BINARY, ...) for v in v_list}] *)
Fixpoint alloc_prods (v_list : list nat) (prods : gmap nat nat) : M (gmap nat nat) :=
  match v_list with
  | [] => mret prods
  | v :: vs => let* p := add_var BINARY in alloc_prods vs (<[v := p]> prods)
  end.

(** The body of the loop over [(r, (y1, y2))] in [_add_area_constraints];
    it returns the indicator variables [prods] it created. *)
Definition area_block (W : ilp_world) (v_list : list nat) (v2var_y1 v2var_y2 : gmap nat nat)
    (f : Z -> Z -> outcome nat) (max_usage_ratio : Q) (r : string) (y1 y2 : Z)
    : M (gmap nat nat) :=
  let* prods := alloc_prods v_list ∅ in
  let* _ := mfor v_list (fun v =>
    let* x1 := dict_get v2var_y1 v in
    let* p := dict_get prods v in
    let* _ := add_constr (cge (choose x1 y1) (lvar p)) in
    let* x2 := dict_get v2var_y2 v in
    let* _ := add_constr (cge (choose x2 y2) (lvar p)) in
    add_constr (cle (lsub (ladd (choose x1 y1) (choose x2 y2)) (lvar p)) (lconst 1))) in
  let* terms := mmap (fun v =>
    let* p := dict_get prods v in
    mret (lscale (getVertexAndInboundFIFOArea W v r) (lvar p))) v_list in
  let* slot := lift (f y1 y2) in
  let* _ := add_constr (cle (xsum terms) (lconst (getArea W slot r * max_usage_ratio))) in
  mret prods.

(** [_add_area_constraints]; besides updating the model it returns, for each
    [(r, y1, y2)], the indicator variables of that iteration (local to the
    loop body in the source). *)
Definition _add_area_constraints (W : ilp_world) (v_list : list nat)
    (v2var_y1 v2var_y2 : gmap nat nat) (f : Z -> Z -> outcome nat)
    (max_usage_ratio : Q) : M (list (string * Z * Z * gmap nat nat)) :=
  let* blocks := mmap (fun r =>
    mmap (fun '(y1, y2) =>
      let* prods := area_block W v_list v2var_y1 v2var_y2 f max_usage_ratio r y1 y2 in
      mret (r, y1, y2, prods)) product22) (RESOURCE_TYPES W) in
  mret (concat blocks).

Definition _add_pre_assignment (W : ilp_world) (v_list : list nat)
    (slot_to_idx : list (nat * (Z * Z))) (pre_assignments : v2s_t)
    (v2var_y1 v2var_y2 : gmap nat nat) : M unit :=
  mfor (map_to_list pre_assignments) (fun '(v, expect_slot) =>
    if bool_decide (v ∈ v_list) then
      mfor (map fst slot_to_idx) (fun avail_slot =>
        if containsChildSlot W avail_slot expect_slot then
          match assoc_get slot_to_idx avail_slot with
          | Some (y1, y2) =>
              let* x1 := dict_get v2var_y1 v in
              let* _ := add_constr (ceq (lvar x1) (lconst (inject_Z y1))) in
              let* x2 := dict_get v2var_y2 v in
              add_constr (ceq (lvar x2) (lconst (inject_Z y2)))
          | None => mthrow KeyError
          end
        else mret tt)
    else mthrow AssertionError).

Definition _add_grouping_constraints (grouping_constraints : list (list nat))
    (v2var_y1 v2var_y2 : gmap nat nat) : M unit :=
  mfor grouping_constraints (fun grouping =>
    match grouping with
    | [] => mret tt
    | g0 :: rest =>
        mfor rest (fun gi =>
          mfor [v2var_y1; v2var_y2] (fun v2var =>
            let* a := dict_get v2var g0 in
            let* b := dict_get v2var gi in
            add_constr (ceq (lvar a) (lvar b))))
    end).

(** [_add_opt_goal]: one INTEGER cost variable per edge, bounding the
    absolute difference of the positions [y1 * 2 + y2] of its ends. *)
Definition _add_opt_goal (W : ilp_world) (v_list : list nat) (v2var_y1 v2var_y2 : gmap nat nat)
    : M unit :=
  let all_edges := get_all_edges W v_list in
  let* e2cost_var := mmap (fun e => let* c := add_var INTEGER in mret (e, c)) all_edges in
  let pos_y := fun v => let* a := dict_get v2var_y1 v in let* b := dict_get v2var_y2 v in
                        mret (ladd (lscale 2 (lvar a)) (lvar b)) in
  let* _ := mfor e2cost_var (fun '(e, cost_var) =>
    let* ps := pos_y (e_src e) in
    let* pd := pos_y (e_dst e) in
    let* _ := add_constr (cge (lvar cost_var) (lsub ps pd)) in
    add_constr (cge (lvar cost_var) (lscale (-1) (lsub ps pd)))) in
  set_objective (xsum (map (fun '(e, cost_var) => lscale (e_width e) (lvar cost_var)) e2cost_var)).

(** The loop of [_get_results] over [v_list]. *)
Fixpoint extract_results (x : nat -> Q) (f : Z -> Z -> outcome nat)
    (v2var_y1 v2var_y2 : gmap nat nat) (v_list : list nat) (next_v2s : v2s_t)
    : outcome v2s_t :=
  match v_list with
  | [] => Ret next_v2s
  | v :: vs =>
      match v2var_y1 !! v, v2var_y2 !! v with
      | Some a, Some b =>
          match f (py_int (x a)) (py_int (x b)) with
          | Ret selected_slot =>
              extract_results x f v2var_y1 v2var_y2 vs (<[v := selected_slot]> next_v2s)
          | Raise e => Raise e
          | OutOfFuel => OutOfFuel
          end
      | _, _ => Raise KeyError
      end
  end.

Definition _get_results (status : opt_status) (x : nat -> Q) (v_list : list nat)
    (f : Z -> Z -> outcome nat) (v2var_y1 v2var_y2 : gmap nat nat) : outcome v2s_t :=
  match status with
  | OPTIMAL | FEASIBLE => extract_results x f v2var_y1 v2var_y2 v_list ∅
  | _ => Ret ∅
  end.

(** The two binary location variables of each vertex. *)
Fixpoint alloc_y_vars (v_list : list nat) (v2var_y1 v2var_y2 : gmap nat nat)
    : M (gmap nat nat * gmap nat nat) :=
  match v_list with
  | [] => mret (v2var_y1, v2var_y2)
  | v :: vs =>
      let* a := add_var BINARY in
      let* b := add_var BINARY in
      alloc_y_vars vs (<[v := a]> v2var_y1) (<[v := b]> v2var_y2)
  end.

(** [_four_way_partition], the slot manager given by its leaf slots
    [getLeafSlotsAfterPartition([Dir.horizontal, Dir.horizontal])]. *)
Definition _four_way_partition (W : ilp_world) (init_v2s : v2s_t)
    (grouping_constraints : list (list nat)) (pre_assignments : v2s_t)
    (all_leaf_slots : list nat) (max_usage_ratio : Q)
    (max_search_time slr_0_1_width_limit slr_1_2_width_limit slr_2_3_width_limit : pyval)
    : outcome v2s_t :=
  let v_list := map fst (map_to_list init_v2s) in
  let f := func_get_slot_by_idx all_leaf_slots in
  let body : M v2s_t :=
    let* ys := alloc_y_vars v_list ∅ ∅ in
    let v2var_y1 := fst ys in
    let v2var_y2 := snd ys in
    let* slot_to_idx := lift (_get_slot_to_idx f) in
    let* _ := _add_area_constraints W v_list v2var_y1 v2var_y2 f max_usage_ratio in
    let* _ := _add_slr_0_1_crossing_constraint W v_list v2var_y1 v2var_y2 slr_0_1_width_limit in
    let* _ := _add_slr_1_2_crossing_constraint W v_list v2var_y1 slr_1_2_width_limit in
    let* _ := _add_slr_2_3_crossing_constraint W v_list v2var_y1 v2var_y2 slr_2_3_width_limit in
    let* _ := _add_pre_assignment W v_list slot_to_idx pre_assignments v2var_y1 v2var_y2 in
    let* _ := _add_grouping_constraints grouping_constraints v2var_y1 v2var_y2 in
    let* _ := _add_opt_goal W v_list v2var_y1 v2var_y2 in
    fun m =>
      let '(status, x) := optimize W m max_search_time in
      match _get_results status x v_list f v2var_y1 v2var_y2 with
      | Ret next_v2s => Ret (m, next_v2s)
      | Raise e => Raise e
      | OutOfFuel => OutOfFuel
      end in
  match body empty_model with
  | Ret (_, next_v2s) => Ret next_v2s
  | Raise e => Raise e
  | OutOfFuel => OutOfFuel
  end.

(** The Python objects behind the tags: dicts, lists of vertex groups, and
    slot managers (by their four leaf slots). *)
Record heap := {
  heap_dict : nat -> v2s_t;
  heap_groups : nat -> list (list nat);
  heap_leaves : nat -> list nat }.

(** [_four_way_partition] called positionally on Python values. *)
Definition _four_way_partition_py (W : ilp_world) (h : heap) (args : list pyval)
    : outcome v2s_t :=
  match bind_positional _four_way_partition_params args with
  | None => Raise TypeError
  | Some env =>
      match env_get env "init_v2s", env_get env "grouping_constraints",
            env_get env "pre_assignments", env_get env "slot_manager",
            env_get env "max_usage_ratio" with
      | PyDict i, PyList g, PyDict p, PyObj s, PyNum q =>
          _four_way_partition W (heap_dict h i) (heap_groups h g) (heap_dict h p)
            (heap_leaves h s) q (env_get env "max_search_time")
            (env_get env "slr_0_1_width_limit") (env_get env "slr_1_2_width_limit")
            (env_get env "slr_2_3_width_limit")
      | _, _, _, _, _ => Raise TypeError
      end
  end.

(** ** Reasoning about built models *)

(** [m'] is [m] with more variables and constraints appended. *)
Definition ext (m m' : model) : Prop :=
  (exists l, m_vars m' = m_vars m ++ l) /\ (exists l, m_constrs m' = m_constrs m ++ l).

(** [xsum(prods[v] * area(v) for v in l)] under the assignment [σ]. *)
Fixpoint area_sum (σ : nat -> Q) (area : nat -> Q) (prods : gmap nat nat) (l : list nat) : Q :=
  match l with
  | [] => 0
  | v :: l' =>
      (match prods !! v with Some p => σ p * area v | None => 0 end) + area_sum σ area prods l'
  end.

(** What one iteration [(r, (y1, y2))] of [_add_area_constraints] puts into
    the model. *)
Definition block_syn (W : ilp_world) (v_list : list nat) (v2var_y1 v2var_y2 : gmap nat nat)
    (f : Z -> Z -> outcome nat) (max_usage_ratio : Q) (r : string) (y1 y2 : Z)
    (prods : gmap nat nat) (m : model) : Prop :=
  (forall v, v ∈ v_list -> exists p x1 x2,
     prods !! v = Some p /\ v2var_y1 !! v = Some x1 /\ v2var_y2 !! v = Some x2 /\
     m_vars m !! p = Some BINARY /\
     cge (choose x1 y1) (lvar p) ∈ m_constrs m /\
     cge (choose x2 y2) (lvar p) ∈ m_constrs m /\
     cle (lsub (ladd (choose x1 y1) (choose x2 y2)) (lvar p)) (lconst 1) ∈ m_constrs m) /\
  exists slot terms, f y1 y2 = Ret slot /\
    cle (xsum terms) (lconst (getArea W slot r * max_usage_ratio)) ∈ m_constrs m /\
    forall σ, eval_lin σ (xsum terms) ==
              area_sum σ (fun v => getVertexAndInboundFIFOArea W v r) prods v_list.

(** ** Concrete inputs used by the examples *)

(** The inner ILP of scenario S5: infeasible below a cap of 0.76. *)
Definition s5_inner (args : list pyval) : outcome v2s_t :=
  match nth_error args 4 with
  | Some (PyNum q) => if Qle_bool (76 # 100) q then Ret {[1%nat := 0%nat]} else Ret ∅
  | _ => Ret ∅
  end.

(** A small design for the four-way ILP: one resource, unit vertex areas,
    leaf capacity 10, containment by identity, no edges, and a solver that
    reports OPTIMAL with every variable at 0. *)
Definition W_demo : ilp_world := {|
  RESOURCE_TYPES := ["LUT"%string];
  getVertexAndInboundFIFOArea := fun _ _ => 1;
  getArea := fun _ _ => 10;
  containsChildSlot := Nat.eqb;
  get_all_edges := fun _ => [];
  _add_slr_0_1_crossing_constraint := fun _ _ _ _ => mret tt;
  _add_slr_1_2_crossing_constraint := fun _ _ _ => mret tt;
  _add_slr_2_3_crossing_constraint := fun _ _ _ _ => mret tt;
  optimize := fun _ _ => (OPTIMAL, fun _ => 0) |}.

(** Dicts 0 ([{v0: 10}]) and 1 ([{v0: 9}], slot 9 lying in no leaf), one
    empty grouping list, and a slot manager whose leaves are 10 to 13. *)
Definition h_demo : heap := {|
  heap_dict := fun t => match t with
                        | O => {[0%nat := 10%nat]}
                        | _ => {[0%nat := 9%nat]}
                        end;
  heap_groups := fun _ => [];
  heap_leaves := fun _ => [10%nat; 11%nat; 12%nat; 13%nat] |}.

(** Two vertices 0 and 1 with location variables 0, 1 (vertex 0) and 2, 3
    (vertex 1). *)
Definition demo_y1 : gmap nat nat := <[0%nat := 0%nat]> {[1%nat := 2%nat]}.
Definition demo_y2 : gmap nat nat := <[0%nat := 1%nat]> {[1%nat := 3%nat]}.
Definition demo_model : model := mk_model [BINARY; BINARY; BINARY; BINARY] [] (lconst 0).

(** The model and blocks built by [_add_area_constraints] on the demo
    vertices, at a usage ratio of 0.7. *)
Definition demo_area_run : outcome (model * list (string * Z * Z * gmap nat nat)) :=
  Eval vm_compute in
    _add_area_constraints W_demo [0%nat; 1%nat] demo_y1 demo_y2
      (func_get_slot_by_idx [10%nat; 11%nat; 12%nat; 13%nat]) (7 # 10) demo_model.

(** ** graph.py: vertices, edges and [Graph.initEdges] *)

(** The fields of [Vertex] the edge set-up touches; edges are referred to by
    their identity, vertices by the identity of their object in the store. *)
Record Vertex := mk_Vertex {
  in_edges : list nat;
  out_edges : list nat;
  actual_to_sub : list (string * nat) }.

(** [def add_in(self, edge): self.out_edges.append(edge)] *)
Definition add_in (edge : nat) (v : Vertex) : Vertex :=
  mk_Vertex (in_edges v) (out_edges v ++ [edge]) (actual_to_sub v).

(** [def add_out(self, edge): self.in_edges.append(edge)] *)
Definition add_out (edge : nat) (v : Vertex) : Vertex :=
  mk_Vertex (in_edges v ++ [edge]) (out_edges v) (actual_to_sub v).

(** The Vertex objects, by identity. *)
Abbreviation store := (gmap nat Vertex).

(** The fields of [Edge] set by [initEdges]. *)
Record Edge := mk_Edge {
  edge_id : nat;
  edge_name : string;
  src : option nat;
  dst : option nat }.

(** A port connection of the FIFO instance: [portname], and the name of
    [argname] when it is an [ast.Identifier] ([None] for constants). *)
Record portarg := mk_portarg { portname : string; argname : option string }.

(** Python's [sub in s] on strings. *)
Fixpoint py_in (sub s : string) : bool :=
  String.prefix sub s ||
  match s with
  | EmptyString => false
  | String _ s' => py_in sub s'
  end.

(** [d[k]] on a dict with string keys, given by its items. *)
Fixpoint str_get {V} (d : list (string * V)) (k : string) : option V :=
  match d with
  | [] => None
  | (k', v) :: d' => if String.eqb k k' then Some v else str_get d' k
  end.

(** [d[k] = v] on a dict with string keys. *)
Fixpoint str_set {V} (d : list (string * V)) (k : string) (v : V) : list (string * V) :=
  match d with
  | [] => [(k, v)]
  | (k', v') :: d' => if String.eqb k k' then (k, v) :: d' else (k', v') :: str_set d' k v
  end.

(** The parts of [Graph] read or written by [initEdges]. *)
Record Graph := mk_Graph {
  vertices : store;
  edge_to_vertex : list (string * nat);
  edges : list (string * Edge) }.

(** [e.dst.actual_to_sub[e.name].add_in(e)] inside [try: ... except: print]. *)
Definition sub_add (f : nat -> Vertex -> Vertex) (eid : nat) (ename : string) (l : nat)
    (st : store) : store :=
  match st !! l with
  | Some vd =>
      match str_get (actual_to_sub vd) ename with
      | Some sub => alter (f eid) sub st
      | None => st
      end
  | None => st
  end.

(** The loop [for portarg in node.portlist] of [initEdges], on the edge
    [eid] named [ename] whose [src] and [dst] are being set. *)
Fixpoint initEdges_loop (eid : nat) (ename : string) (e2v : list (string * nat))
    (portlist : list portarg) (src dst : option nat) (st : store)
    : outcome (option nat * option nat * store) :=
  match portlist with
  | [] => Ret (src, dst, st)
  | p :: ps =>
      match argname p with
      | None => initEdges_loop eid ename e2v ps src dst st
      | Some actual_raw =>
          let formal_raw := portname p in
          if py_in "_dout" actual_raw && py_in "_dout" formal_raw then
            match str_get e2v actual_raw with
            | Some d =>
                let st1 := alter (add_in eid) d st in
                initEdges_loop eid ename e2v ps src (Some d) (sub_add add_in eid ename d st1)
            | None => Raise KeyError
            end
          else if py_in "_din" actual_raw && py_in "_din" formal_raw then
            match str_get e2v actual_raw with
            | Some s =>
                let st1 := alter (add_out eid) s st in
                initEdges_loop eid ename e2v ps (Some s) dst (sub_add add_out eid ename s st1)
            | None => Raise KeyError
            end
          else initEdges_loop eid ename e2v ps src dst st
      end
  end.

(** [Graph.initEdges(node)]: [valid] and [fifo] are
    [formator.isValidInstance(node)] and [formator.isFIFO(node)]; [eid] is the
    identity of the new [Edge(node.name)]. *)
Definition initEdges (valid fifo : bool) (node_name : string) (portlist : list portarg)
    (eid : nat) (g : Graph) : outcome Graph :=
  if negb valid then Ret g
  else if negb fifo then Ret g
  else
    match initEdges_loop eid node_name (edge_to_vertex g) portlist None None (vertices g) with
    | Ret (s, d, st) =>
        Ret (mk_Graph st (edge_to_vertex g)
               (str_set (edges g) node_name (mk_Edge eid node_name s d)))
    | Raise e => Raise e
    | OutOfFuel => OutOfFuel
    end.

(** A FIFO instance [fifo_x] between a producer and a consumer. *)
Definition demo_graph : Graph :=
  mk_Graph (<[0%nat := mk_Vertex [] [] []]> {[1%nat := mk_Vertex [] [] []]})
    [("fifo_x_din"%string, 0%nat); ("fifo_x_dout"%string, 1%nat)] [].

Definition demo_ports : list portarg :=
  [mk_portarg "if_din" (Some "fifo_x_din"%string);
   mk_portarg "if_dout" (Some "fifo_x_dout"%string);
   mk_portarg "clk" (Some "ap_clk"%string); mk_portarg "if_full_n" None].

(** [initEdges] on the instance [fifo_x] of [demo_graph], the new edge
    being object 7. *)
Definition demo_initEdges_run : outcome Graph :=
  Eval vm_compute in initEdges true true "fifo_x" demo_ports 7 demo_graph.

(** ** Partition.py: [partition] *)

(** [partition]: the partitioner is chosen by [partition_method], the
    search order by [floorplan_opt_priority], and the chosen worker is called
    with the ten arguments in order.  The partitioners are arguments:
    [eight_way_partition] lies outside the modelled sources, and
    [four_way_partition] is the retry loop above once its inner ILP is fixed.
    The final [log_resource_utilization(v2s)] only logs. *)
Definition partition (eight_way_partition four_way_partition : partitioner_t)
    (init_v2s slot_manager grouping_constraints pre_assignments : pyval)
    (min_area_limit max_area_limit min_slr_width_limit max_slr_width_limit : Q)
    (max_search_time : pyval) (partition_method floorplan_opt_priority : string)
    : outcome v2s_t :=
  let partitioner :=
    if String.eqb partition_method "EIGHT_WAY_PARTITION" then Some eight_way_partition
    else if String.eqb partition_method "FOUR_WAY_PARTITION" then Some four_way_partition
    else None in
  match partitioner with
  | None => Raise NotImplementedError
  | Some partitioner =>
      let worker :=
        if String.eqb floorplan_opt_priority "AREA_PRIORITIZED"
        then Some partition_area_prioritized
        else if String.eqb floorplan_opt_priority "SLR_CROSSING_PRIORITIZED"
        then Some partition_slr_crossing_prioritized
        else None in
      match worker with
      | None => Raise NotImplementedError
      | Some worker =>
          worker init_v2s slot_manager grouping_constraints pre_assignments
            min_area_limit max_area_limit min_slr_width_limit max_slr_width_limit
            max_search_time partitioner
      end
  end.

(** ** Properties of a run of [_four_way_partition] *)

(** The solver's contract: when [m.optimize] reports OPTIMAL or FEASIBLE,
    the values [var.x] satisfy the model. *)
Definition solver_sound (W : ilp_world) (max_search_time : pyval) : Prop :=
  forall m status x, optimize W m max_search_time = (status, x) ->
  status = OPTIMAL \/ status = FEASIBLE -> feasible x m.

(** The three crossing-constraint builders only add variables and
    constraints to the model. *)
Definition builders_extend (W : ilp_world) : Prop :=
  (forall vl y1 y2 w m m' u,
     _add_slr_0_1_crossing_constraint W vl y1 y2 w m = Ret (m', u) -> ext m m') /\
  (forall vl y1 w m m' u,
     _add_slr_1_2_crossing_constraint W vl y1 w m = Ret (m', u) -> ext m m') /\
  (forall vl y1 y2 w m m' u,
     _add_slr_2_3_crossing_constraint W vl y1 y2 w m = Ret (m', u) -> ext m m').

(** The usage of resource [res] in slot [s] under the mapping [v2s]: the
    sum of [getVertexAndInboundFIFOArea()[res]] over the vertices of [l]
    mapped to [s]. *)
Fixpoint slot_usage (W : ilp_world) (res : string) (v2s : v2s_t) (s : nat) (l : list nat) : Q :=
  match l with
  | [] => 0
  | v :: l' =>
      (if bool_decide (v2s !! v = Some s) then getVertexAndInboundFIFOArea W v res else 0) +
      slot_usage W res v2s s l'
  end.

(** [pos_y(v) = v2var_y1[v] * 2 + v2var_y2[v]] under the assignment [σ]. *)
Definition pos_of (σ : nat -> Q) (v2var_y1 v2var_y2 : gmap nat nat) (v : nat) : Q :=
  match v2var_y1 !! v, v2var_y2 !! v with
  | Some a, Some b => 2 * σ a + σ b
  | _, _ => 0
  end.

(** The sum over the edges of their width times the distance between the
    positions of their ends. *)
Fixpoint wirelength (σ : nat -> Q) (v2var_y1 v2var_y2 : gmap nat nat) (es : list edge) : Q :=
  match es with
  | [] => 0
  | e :: es' =>
      e_width e * Qabs (pos_of σ v2var_y1 v2var_y2 (e_src e) - pos_of σ v2var_y1 v2var_y2 (e_dst e)) +
      wirelength σ v2var_y1 v2var_y2 es'
  end.

(** ** graph.py: [Graph.dfs] *)

Section Dfs.
Context {A : Type}.

(** [node.children()] in the instance tree, nodes being given by identity. *)
Variable children : nat -> list nat.

(** [func(node)], acting on the state it updates (the [Graph]). *)
Variable func : nat -> A -> outcome A.

(** [for c in node.children(): self.dfs(c, visited, func)], [rec] being the
    recursive call. *)
Fixpoint dfs_children (rec : nat -> gset nat -> A -> outcome (gset nat * A))
    (cs : list nat) (visited : gset nat) (s : A) : outcome (gset nat * A) :=
  match cs with
  | [] => Ret (visited, s)
  | c :: cs' =>
      match rec c visited s with
      | Ret (visited', s') => dfs_children rec cs' visited' s'
      | Raise e => Raise e
      | OutOfFuel => OutOfFuel
      end
  end.

(** [Graph.dfs(node, visited, func)]: the one set [visited] is shared by
    all the recursive calls, so it is threaded through them; [fuel] bounds
    the depth of the recursion. *)
Fixpoint dfs (fuel : nat) (node : nat) (visited : gset nat) (s : A)
    : outcome (gset nat * A) :=
  match fuel with
  | O => OutOfFuel
  | S fuel' =>
      if decide (node ∈ visited) then Ret (visited, s)
      else
        let visited := {[node]} ∪ visited in
        match func node s with
        | Ret s' => dfs_children (dfs fuel') (children node) visited s'
        | Raise e => Raise e
        | OutOfFuel => OutOfFuel
        end
  end.

(** [func] applied to the nodes of [l], in order. *)
Fixpoint apply_all (l : list nat) (s : A) : outcome A :=
  match l with
  | [] => Ret s
  | n :: l' =>
      match func n s with
      | Ret s' => apply_all l' s'
      | Raise e => Raise e
      | OutOfFuel => OutOfFuel
      end
  end.

End Dfs.

(** ** A 0/1 solver for the examples *)

Definition sat_b (σ : nat -> Q) (c : constr) : bool :=
  match c_sense c with
  | SLE => Qle_bool (eval_lin σ (c_expr c)) 0
  | SGE => Qle_bool 0 (eval_lin σ (c_expr c))
  | SEQ => Qeq_bool (eval_lin σ (c_expr c)) 0
  end.

Definition var_ok_b (σ : nat -> Q) (i : nat) (t : var_type) : bool :=
  match t with
  | BINARY => Qeq_bool (σ i) 0 || Qeq_bool (σ i) 1
  | INTEGER => Qeq_bool (inject_Z (Qfloor (σ i))) (σ i)
  | CONTINUOUS => true
  end.

Fixpoint vars_ok_b (σ : nat -> Q) (i : nat) (vs : list var_type) : bool :=
  match vs with
  | [] => true
  | t :: vs' => var_ok_b σ i t && vars_ok_b σ (S i) vs'
  end.

Definition feasible_b (σ : nat -> Q) (m : model) : bool :=
  forallb (sat_b σ) (m_constrs m) && vars_ok_b σ 0 (m_vars m).

(** All the lists of [n] values in [{0, 1}]. *)
Fixpoint all01 (n : nat) : list (list Q) :=
  match n with
  | O => [[]]
  | S n' => map (cons 0) (all01 n') ++ map (cons 1) (all01 n')
  end.

Definition of_list (l : list Q) (i : nat) : Q := nth i l 0.

(** The first assignment of 0 and 1 to the variables that satisfies the
    model, reported OPTIMAL; INFEASIBLE when there is none. *)
Definition solve01 (m : model) (_ : pyval) : opt_status * (nat -> Q) :=
  match find (fun l => feasible_b (of_list l) m) (all01 (length (m_vars m))) with
  | Some l => (OPTIMAL, of_list l)
  | None => (INFEASIBLE, fun _ => 0)
  end.

(** [W_demo] with the 0/1 solver. *)
Definition W_ilp : ilp_world := {|
  RESOURCE_TYPES := ["LUT"%string];
  getVertexAndInboundFIFOArea := fun _ _ => 1;
  getArea := fun _ _ => 10;
  containsChildSlot := Nat.eqb;
  get_all_edges := fun _ => [];
  _add_slr_0_1_crossing_constraint := fun _ _ _ _ => mret tt;
  _add_slr_1_2_crossing_constraint := fun _ _ _ => mret tt;
  _add_slr_2_3_crossing_constraint := fun _ _ _ _ => mret tt;
  optimize := solve01 |}.

(** A design with one edge of width 5 from vertex 0 to vertex 1. *)
Definition W_edge : ilp_world := {|
  RESOURCE_TYPES := ["LUT"%string];
  getVertexAndInboundFIFOArea := fun _ _ => 1;
  getArea := fun _ _ => 10;
  containsChildSlot := Nat.eqb;
  get_all_edges := fun _ => [mk_edge 0 1 5];
  _add_slr_0_1_crossing_constraint := fun _ _ _ _ => mret tt;
  _add_slr_1_2_crossing_constraint := fun _ _ _ => mret tt;
  _add_slr_2_3_crossing_constraint := fun _ _ _ _ => mret tt;
  optimize := solve01 |}.

(** A small instance tree in which node 3 is a child of both 1 and 2, and a
    [func] that records the nodes it is applied to. *)
Definition demo_children (n : nat) : list nat :=
  match n with
  | O => [1%nat; 2%nat]
  | 1%nat => [3%nat]
  | 2%nat => [3%nat]
  | _ => []
  end.

Definition demo_record (n : nat) (l : list nat) : outcome (list nat) := Ret (l ++ [n]).

Definition demo_dfs_run : outcome (gset nat * list nat) :=
  Eval vm_compute in dfs demo_children demo_record 10 0 ∅ [].

(** Two vertices, both initially in slot 10, and the four leaves 10 to 13. *)
Definition demo_init : v2s_t := <[0%nat := 10%nat]> {[1%nat := 10%nat]}.

Definition demo_leaves : list nat := [10%nat; 11%nat; 12%nat; 13%nat].

(** * Proofs *)

(** ** Binary search lemmas *)

Lemma truthy_true (m : v2s_t) : truthy m = true <-> m <> ∅.
Proof.
  unfold truthy. destruct (bool_decide (m = ∅)) eqn:E.
  - apply bool_decide_eq_true in E. simpl. split; congruence.
  - apply bool_decide_eq_false in E. simpl. tauto.
Qed.

Lemma truthy_false (m : v2s_t) : truthy m = false <-> m = ∅.
Proof.
  unfold truthy. destruct (bool_decide (m = ∅)) eqn:E.
  - apply bool_decide_eq_true in E. simpl. tauto.
  - apply bool_decide_eq_false in E. simpl. split; [discriminate|tauto].
Qed.

Lemma Qltb_true (x y : Q) : Qltb x y = true <-> x < y.
Proof.
  unfold Qltb. destruct (Qle_bool y x) eqn:E; simpl.
  - apply Qle_bool_iff in E. split; [discriminate|]. intros. lra.
  - split; [|reflexivity]. intros _.
    destruct (Qlt_le_dec x y) as [H|H]; [exact H|].
    apply Qle_bool_iff in H. congruence.
Qed.

Lemma Qltb_false (x y : Q) : Qltb x y = false <-> y <= x.
Proof.
  unfold Qltb. destruct (Qle_bool y x) eqn:E; simpl.
  - apply Qle_bool_iff in E. tauto.
  - split; [discriminate|]. intros H. apply Qle_bool_iff in H. congruence.
Qed.

Lemma qpow2_ge_1 n : 1 <= qpow2 n.
Proof. induction n; simpl; lra. Qed.

Lemma qpow2_gt_n n : inject_Z (Z.of_nat n) < qpow2 n.
Proof.
  induction n as [|n IH]; simpl.
  - unfold Qlt. simpl. lia.
  - rewrite Nat2Z.inj_succ, <- Z.add_1_r, inject_Z_plus.
    pose proof (qpow2_ge_1 n). unfold inject_Z at 2. lra.
Qed.

Lemma search_fuel_enough (hi lo thr : Q) :
  0 < thr -> lo <= hi ->
  hi - lo < thr * qpow2 (Z.to_nat (Qceiling ((hi - lo) / thr))).
Proof.
  intros Hthr Hle.
  set (c := Qceiling ((hi - lo) / thr)).
  assert (Hq : 0 <= (hi - lo) / thr).
  { apply Qle_shift_div_l; lra. }
  assert (Hc : (hi - lo) / thr <= inject_Z c) by apply Qle_ceiling.
  assert (Hc0 : (0 <= c)%Z).
  { apply (Qle_trans _ _ _ Hq) in Hc. rewrite Zle_Qle. exact Hc. }
  pose proof (qpow2_gt_n (Z.to_nat c)) as Hp. rewrite Z2Nat.id in Hp by exact Hc0.
  apply Qle_lt_trans with (thr * ((hi - lo) / thr)).
  - rewrite Qmult_div_r by (intro E; rewrite E in Hthr; discriminate). apply Qle_refl.
  - apply Qmult_lt_l; [exact Hthr|]. lra.
Qed.

Lemma Qhalf (x : Q) : x / 2 == x * (1 # 2).
Proof. reflexivity. Qed.

Lemma bs_loop_run n thr probe hi lo best cap :
  0 < thr -> lo <= hi -> hi - lo < thr * qpow2 n ->
  (forall q, exists r, probe q = Ret r) ->
  exists tr bf cf,
    bs_loop (S n) thr probe hi lo best cap = Ret (bf, cf) /\
    search_run thr probe hi lo best cap tr bf cf.
Proof.
  intros Hthr. revert hi lo best cap.
  induction n as [|n IH]; intros hi lo best cap Hle Hw Htot;
    pose proof (Qhalf (hi + lo)) as Hmid;
    destruct (Htot ((hi + lo) / 2)) as [r Hr];
    cbn [bs_loop]; rewrite Hr;
    destruct (truthy r) eqn:Ht; cbn iota beta;
    [pose proof (proj1 (truthy_true r) Ht) as Hr'
    |pose proof (proj1 (truthy_false r) Ht) as Hr'
    |pose proof (proj1 (truthy_true r) Ht) as Hr'
    |pose proof (proj1 (truthy_false r) Ht) as Hr'].
  - destruct (Qltb ((hi + lo) / 2 - lo) thr) eqn:Hb.
    + apply Qltb_true in Hb. do 3 eexists. split; [reflexivity|].
      eapply search_run_stop; [exact Hr| |exact Hb]. left. auto.
    + apply Qltb_false in Hb. simpl in Hw. lra.
  - destruct (Qltb (hi - (hi + lo) / 2) thr) eqn:Hb.
    + apply Qltb_true in Hb. do 3 eexists. split; [reflexivity|].
      eapply search_run_stop; [exact Hr| |exact Hb]. right. auto.
    + apply Qltb_false in Hb. simpl in Hw. lra.
  - destruct (Qltb ((hi + lo) / 2 - lo) thr) eqn:Hb.
    + apply Qltb_true in Hb. do 3 eexists. split; [reflexivity|].
      eapply search_run_stop; [exact Hr| |exact Hb]. left. auto.
    + apply Qltb_false in Hb. simpl in Hw.
      destruct (IH ((hi + lo) / 2) lo r (Some ((hi + lo) / 2))) as (tr & bf & cf & Hl & Hrun);
        [lra|lra|exact Htot|].
      exists (((hi + lo) / 2, r) :: tr), bf, cf. split; [exact Hl|].
      eapply search_run_next; [exact Hr| |exact Hb|exact Hrun]. left. auto.
  - destruct (Qltb (hi - (hi + lo) / 2) thr) eqn:Hb.
    + apply Qltb_true in Hb. do 3 eexists. split; [reflexivity|].
      eapply search_run_stop; [exact Hr| |exact Hb]. right. auto.
    + apply Qltb_false in Hb. simpl in Hw.
      destruct (IH hi ((hi + lo) / 2) best cap) as (tr & bf & cf & Hl & Hrun);
        [lra|lra|exact Htot|].
      exists (((hi + lo) / 2, r) :: tr), bf, cf. split; [exact Hl|].
      eapply search_run_next; [exact Hr| |exact Hb|exact Hrun]. right. auto.
Qed.

Lemma search_run_last thr probe hi lo best cap tr bf cf :
  search_run thr probe hi lo best cap tr bf cf -> (bf, cf) = last_success tr best cap.
Proof.
  induction 1 as [hi lo best cap r hi' lo' best' cap' Hr Hu Hw
                 |hi lo best cap r hi' lo' best' cap' tr bf cf Hr Hu Hw Hrun IH];
    destruct Hu as [(Hne & -> & -> & _ & _)|(He & -> & -> & _ & _)]; simpl.
  - rewrite (proj2 (truthy_true r) Hne). reflexivity.
  - rewrite (proj2 (truthy_false r) He). reflexivity.
  - rewrite (proj2 (truthy_true r) Hne). exact IH.
  - rewrite (proj2 (truthy_false r) He). exact IH.
Qed.

Lemma search_run_nonempty thr probe hi lo best cap tr bf cf :
  search_run thr probe hi lo best cap tr bf cf -> tr <> [].
Proof. destruct 1; discriminate. Qed.

Lemma last_success_all_fail tr best cap :
  Forall (fun p => snd p = ∅) tr -> last_success tr best cap = (best, cap).
Proof.
  induction 1 as [|[mid r] tr Hr _ IH]; simpl in *; [reflexivity|].
  rewrite (proj2 (truthy_false r) Hr). exact IH.
Qed.

(** A search over [[lo, hi]] with a positive threshold terminates with a run
    of probes. *)
Lemma bs_loop_search_fuel thr probe hi lo :
  0 < thr -> lo <= hi ->
  (forall q, exists r, probe q = Ret r) ->
  exists tr bf cf,
    bs_loop (search_fuel hi lo thr) thr probe hi lo ∅ None = Ret (bf, cf) /\
    search_run thr probe hi lo ∅ None tr bf cf.
Proof.
  intros Hthr Hle Htot. unfold search_fuel.
  apply bs_loop_run; [exact Hthr|exact Hle| |exact Htot].
  apply search_fuel_enough; assumption.
Qed.

Lemma slr_threshold_pos : 0 < slr_threshold.
Proof. unfold slr_threshold. lra. Qed.

Lemma area_threshold_pos : 0 < area_threshold.
Proof. unfold area_threshold. lra. Qed.

Lemma slr_search_run init_v2s slot_manager grouping_constraints pre_assignments
    area_limit lo hi max_search_time partitioner :
  (forall args, exists r, partitioner args = Ret r) -> lo <= hi ->
  exists tr bf cf,
    _binary_search_slr_crossing_limit init_v2s slot_manager grouping_constraints
      pre_assignments area_limit lo hi max_search_time partitioner = Ret (bf, cf) /\
    search_run slr_threshold
      (slr_probe partitioner init_v2s slot_manager grouping_constraints
         pre_assignments area_limit max_search_time) hi lo ∅ None tr bf cf.
Proof.
  intros Htot Hle. unfold _binary_search_slr_crossing_limit.
  rewrite (proj2 (Qle_bool_iff lo hi) Hle).
  apply bs_loop_search_fuel; [apply slr_threshold_pos|exact Hle|].
  intros q. apply Htot.
Qed.

Lemma area_search_run init_v2s slot_manager grouping_constraints pre_assignments
    slr_width_limit lo hi max_search_time partitioner :
  (forall args, exists r, partitioner args = Ret r) -> lo <= hi ->
  exists tr bf cf,
    _binary_search_area_limit init_v2s slot_manager grouping_constraints
      pre_assignments slr_width_limit lo hi max_search_time partitioner = Ret (bf, cf) /\
    search_run area_threshold
      (area_probe partitioner init_v2s slot_manager grouping_constraints
         pre_assignments slr_width_limit max_search_time) hi lo ∅ None tr bf cf.
Proof.
  intros Htot Hle. unfold _binary_search_area_limit.
  rewrite (proj2 (Qle_bool_iff lo hi) Hle).
  apply bs_loop_search_fuel; [apply area_threshold_pos|exact Hle|].
  intros q. apply Htot.
Qed.

Lemma last_success_cap tr best cap bf cf :
  last_success tr best cap = (bf, cf) ->
  (best <> ∅ -> cap <> None) -> bf <> ∅ -> exists c, cf = Some c.
Proof.
  revert best cap. induction tr as [|[mid r] tr IH]; intros best cap Hl Hinv Hne; simpl in Hl.
  - inversion Hl; subst. destruct cf as [c|]; [eauto|]. exfalso. apply (Hinv Hne). reflexivity.
  - destruct (truthy r) eqn:Ht.
    + apply (IH r (Some mid) Hl); [discriminate|exact Hne].
    + apply (IH best cap Hl); [exact Hinv|exact Hne].
Qed.

Lemma bs_loop_cap fuel thr probe hi lo best cap bf cf :
  bs_loop fuel thr probe hi lo best cap = Ret (bf, cf) ->
  (best <> ∅ -> cap <> None) -> bf <> ∅ -> exists c, cf = Some c.
Proof.
  revert hi lo best cap. induction fuel as [|fuel IH]; intros hi lo best cap Hl Hinv Hne;
    simpl in Hl; [discriminate|].
  destruct (probe ((hi + lo) / 2)) as [r|e|] eqn:Hr; try discriminate.
  destruct (truthy r) eqn:Ht; cbn iota beta in Hl.
  - destruct (Qltb ((hi + lo) / 2 - lo) thr).
    + inversion Hl; subst. eauto.
    + apply (IH _ _ _ _ Hl); [discriminate|exact Hne].
  - destruct (Qltb (hi - (hi + lo) / 2) thr).
    + inversion Hl; subst. destruct cf as [c|]; [eauto|]. exfalso. apply (Hinv Hne). reflexivity.
    + apply (IH _ _ _ _ Hl); [exact Hinv|exact Hne].
Qed.

Lemma area_search_cap init_v2s slot_manager grouping_constraints pre_assignments
    slr_width_limit lo hi max_search_time partitioner bf cf :
  _binary_search_area_limit init_v2s slot_manager grouping_constraints
    pre_assignments slr_width_limit lo hi max_search_time partitioner = Ret (bf, cf) ->
  bf <> ∅ -> exists c, cf = Some c.
Proof.
  unfold _binary_search_area_limit. destruct (Qle_bool lo hi); [|discriminate].
  intros Hl Hne. apply (bs_loop_cap _ _ _ _ _ _ _ _ _ Hl); [|exact Hne].
  intros H. exfalso. apply H. reflexivity.
Qed.

(** ** The outer searches *)

(** C4: in both binary searches every probe is at the midpoint [(hi + lo) / 2]
    of the current interval; a successful probe records its mapping and sets
    [hi] to the midpoint, a failed one sets [lo] to it; the area search stops
    exactly when [hi - lo < 0.01] and the crossing search exactly when
    [hi - lo < 500]; each search returns the mapping (and limit) recorded at
    its last successful probe.  [lo <= hi] is the routines' own assertion,
    and the partitioner returns on every call. *)
Theorem binary_searches_midpoint_runs
    (init_v2s slot_manager grouping_constraints pre_assignments : pyval)
    (area_limit slr_width_limit max_search_time : pyval)
    (min_area max_area min_slr max_slr : Q) (partitioner : partitioner_t) :
  (forall args, exists r, partitioner args = Ret r) ->
  min_area <= max_area -> min_slr <= max_slr ->
  (exists tr bf cf,
     _binary_search_area_limit init_v2s slot_manager grouping_constraints
       pre_assignments slr_width_limit min_area max_area max_search_time
       partitioner = Ret (bf, cf) /\
     search_run area_threshold
       (area_probe partitioner init_v2s slot_manager grouping_constraints
          pre_assignments slr_width_limit max_search_time)
       max_area min_area ∅ None tr bf cf /\
     (bf, cf) = last_success tr ∅ None) /\
  (exists tr bf cf,
     _binary_search_slr_crossing_limit init_v2s slot_manager grouping_constraints
       pre_assignments area_limit min_slr max_slr max_search_time
       partitioner = Ret (bf, cf) /\
     search_run slr_threshold
       (slr_probe partitioner init_v2s slot_manager grouping_constraints
          pre_assignments area_limit max_search_time)
       max_slr min_slr ∅ None tr bf cf /\
     (bf, cf) = last_success tr ∅ None).
Proof.
  intros Htot Ha Hs. split.
  - destruct (area_search_run init_v2s slot_manager grouping_constraints
                pre_assignments slr_width_limit min_area max_area max_search_time
                partitioner Htot Ha) as (tr & bf & cf & Hl & Hrun).
    exists tr, bf, cf. split; [exact Hl|]. split; [exact Hrun|].
    exact (search_run_last _ _ _ _ _ _ _ _ _ Hrun).
  - destruct (slr_search_run init_v2s slot_manager grouping_constraints
                pre_assignments area_limit min_slr max_slr max_search_time
                partitioner Htot Hs) as (tr & bf & cf & Hl & Hrun).
    exists tr, bf, cf. split; [exact Hl|]. split; [exact Hrun|].
    exact (search_run_last _ _ _ _ _ _ _ _ _ Hrun).
Qed.

Lemma binary_searches_midpoint_runs_witness :
  (forall args, exists r, (fun _ : list pyval => Ret (∅ : v2s_t)) args = Ret r) /\
  (13 # 20) <= (17 # 20) /\ 10000 <= 15000 /\
  ((exists tr bf cf,
     _binary_search_area_limit (PyDict 0) (PyObj 1) (PyList 2) (PyDict 3)
       (PyNum 15000) (13 # 20) (17 # 20) (PyNum 600)
       (fun _ => Ret ∅) = Ret (bf, cf) /\
     search_run area_threshold
       (area_probe (fun _ => Ret ∅) (PyDict 0) (PyObj 1) (PyList 2) (PyDict 3)
          (PyNum 15000) (PyNum 600))
       (17 # 20) (13 # 20) ∅ None tr bf cf /\
     (bf, cf) = last_success tr ∅ None) /\
  (exists tr bf cf,
     _binary_search_slr_crossing_limit (PyDict 0) (PyObj 1) (PyList 2) (PyDict 3)
       (PyNum (17 # 20)) 10000 15000 (PyNum 600)
       (fun _ => Ret ∅) = Ret (bf, cf) /\
     search_run slr_threshold
       (slr_probe (fun _ => Ret ∅) (PyDict 0) (PyObj 1) (PyList 2) (PyDict 3)
          (PyNum (17 # 20)) (PyNum 600))
       15000 10000 ∅ None tr bf cf /\
     (bf, cf) = last_success tr ∅ None)).
Proof.
  assert (Htot : forall args, exists r, (fun _ : list pyval => Ret (∅ : v2s_t)) args = Ret r)
    by (intros; eexists; reflexivity).
  split; [exact Htot|]. split; [lra|]. split; [lra|].
  apply (binary_searches_midpoint_runs (PyDict 0) (PyObj 1) (PyList 2) (PyDict 3)
           (PyNum (17 # 20)) (PyNum 15000) (PyNum 600) (13 # 20) (17 # 20) 10000 15000
           (fun _ => Ret ∅) Htot); lra.
Defined.

(** C10 (as stated it fails): when the interval is given reversed
    ([lo > hi], so [hi - lo] is already below the threshold) the routine
    raises [AssertionError] at [assert lo <= hi]: it never calls the
    partitioner (a partitioner that would raise [TypeError] is not reached),
    and with an always-failing partitioner it does not return [({}, None)]. *)
Lemma binary_search_reversed_interval_asserts :
  (17 # 20) - (9 # 10) < area_threshold /\
  _binary_search_area_limit (PyDict 0) (PyObj 1) (PyList 2) (PyDict 3)
    (PyNum 15000) (9 # 10) (17 # 20) (PyNum 600) (fun _ => Ret ∅)
    = Raise AssertionError /\
  _binary_search_area_limit (PyDict 0) (PyObj 1) (PyList 2) (PyDict 3)
    (PyNum 15000) (9 # 10) (17 # 20) (PyNum 600) (fun _ => Raise TypeError)
    = Raise AssertionError.
Proof.
  split; [unfold area_threshold; lra|]. split; reflexivity.
Qed.

(** C10, amended: on an interval with [lo <= hi] (the routines assert it and
    raise [AssertionError] otherwise), each binary search calls the
    partitioner at least once, even when [hi - lo] is already below its
    threshold (then exactly once), and when every probe fails it returns the
    empty mapping with [None] as the found limit. *)
Theorem binary_searches_probe_at_least_once
    (init_v2s slot_manager grouping_constraints pre_assignments : pyval)
    (area_limit slr_width_limit max_search_time : pyval)
    (min_area max_area min_slr max_slr : Q) (partitioner : partitioner_t) :
  (forall args, exists r, partitioner args = Ret r) ->
  min_area <= max_area -> min_slr <= max_slr ->
  (exists tr bf cf,
     _binary_search_area_limit init_v2s slot_manager grouping_constraints
       pre_assignments slr_width_limit min_area max_area max_search_time
       partitioner = Ret (bf, cf) /\
     search_run area_threshold
       (area_probe partitioner init_v2s slot_manager grouping_constraints
          pre_assignments slr_width_limit max_search_time)
       max_area min_area ∅ None tr bf cf /\
     tr <> [] /\
     (max_area - min_area < area_threshold -> length tr = 1%nat) /\
     (Forall (fun p => snd p = ∅) tr -> bf = ∅ /\ cf = None)) /\
  (exists tr bf cf,
     _binary_search_slr_crossing_limit init_v2s slot_manager grouping_constraints
       pre_assignments area_limit min_slr max_slr max_search_time
       partitioner = Ret (bf, cf) /\
     search_run slr_threshold
       (slr_probe partitioner init_v2s slot_manager grouping_constraints
          pre_assignments area_limit max_search_time)
       max_slr min_slr ∅ None tr bf cf /\
     tr <> [] /\
     (max_slr - min_slr < slr_threshold -> length tr = 1%nat) /\
     (Forall (fun p => snd p = ∅) tr -> bf = ∅ /\ cf = None)).
Proof.
  intros Htot Ha Hs. split.
  - destruct (area_search_run init_v2s slot_manager grouping_constraints
                pre_assignments slr_width_limit min_area max_area max_search_time
                partitioner Htot Ha) as (tr & bf & cf & Hl & Hrun).
    exists tr, bf, cf. split; [exact Hl|]. split; [exact Hrun|].
    split; [exact (search_run_nonempty _ _ _ _ _ _ _ _ _ Hrun)|]. split.
    + intros Hw. pose proof (Qhalf (max_area + min_area)).
      inversion Hrun as [? ? ? ? ? ? ? ? ? _ Hu _|? ? ? ? ? ? ? ? ? ? ? ? _ Hu Hge _];
        subst; [reflexivity|].
      exfalso. destruct Hu as [(_ & _ & _ & -> & ->)|(_ & _ & _ & -> & ->)]; lra.
    + intros Hf. apply search_run_last in Hrun.
      rewrite last_success_all_fail in Hrun by exact Hf. inversion Hrun. auto.
  - destruct (slr_search_run init_v2s slot_manager grouping_constraints
                pre_assignments area_limit min_slr max_slr max_search_time
                partitioner Htot Hs) as (tr & bf & cf & Hl & Hrun).
    exists tr, bf, cf. split; [exact Hl|]. split; [exact Hrun|].
    split; [exact (search_run_nonempty _ _ _ _ _ _ _ _ _ Hrun)|]. split.
    + intros Hw. pose proof (Qhalf (max_slr + min_slr)).
      inversion Hrun as [? ? ? ? ? ? ? ? ? _ Hu _|? ? ? ? ? ? ? ? ? ? ? ? _ Hu Hge _];
        subst; [reflexivity|].
      exfalso. destruct Hu as [(_ & _ & _ & -> & ->)|(_ & _ & _ & -> & ->)]; lra.
    + intros Hf. apply search_run_last in Hrun.
      rewrite last_success_all_fail in Hrun by exact Hf. inversion Hrun. auto.
Qed.

Lemma binary_searches_probe_at_least_once_witness :
  (forall args, exists r, (fun _ : list pyval => Ret (∅ : v2s_t)) args = Ret r) /\
  (4 # 5) <= (4 # 5) /\ 10000 <= 10200 /\
  ((exists tr bf cf,
     _binary_search_area_limit (PyDict 0) (PyObj 1) (PyList 2) (PyDict 3)
       (PyNum 15000) (4 # 5) (4 # 5) (PyNum 600) (fun _ => Ret ∅) = Ret (bf, cf) /\
     search_run area_threshold
       (area_probe (fun _ => Ret ∅) (PyDict 0) (PyObj 1) (PyList 2) (PyDict 3)
          (PyNum 15000) (PyNum 600))
       (4 # 5) (4 # 5) ∅ None tr bf cf /\
     tr <> [] /\
     ((4 # 5) - (4 # 5) < area_threshold -> length tr = 1%nat) /\
     (Forall (fun p => snd p = ∅) tr -> bf = ∅ /\ cf = None)) /\
  (exists tr bf cf,
     _binary_search_slr_crossing_limit (PyDict 0) (PyObj 1) (PyList 2) (PyDict 3)
       (PyNum (4 # 5)) 10000 10200 (PyNum 600) (fun _ => Ret ∅) = Ret (bf, cf) /\
     search_run slr_threshold
       (slr_probe (fun _ => Ret ∅) (PyDict 0) (PyObj 1) (PyList 2) (PyDict 3)
          (PyNum (4 # 5)) (PyNum 600))
       10200 10000 ∅ None tr bf cf /\
     tr <> [] /\
     (10200 - 10000 < slr_threshold -> length tr = 1%nat) /\
     (Forall (fun p => snd p = ∅) tr -> bf = ∅ /\ cf = None))).
Proof.
  assert (Htot : forall args, exists r, (fun _ : list pyval => Ret (∅ : v2s_t)) args = Ret r)
    by (intros; eexists; reflexivity).
  split; [exact Htot|]. split; [lra|]. split; [lra|].
  apply (binary_searches_probe_at_least_once (PyDict 0) (PyObj 1) (PyList 2) (PyDict 3)
           (PyNum (4 # 5)) (PyNum 15000) (PyNum 600) (4 # 5) (4 # 5) 10000 10200
           (fun _ => Ret ∅) Htot); lra.
Defined.

(** C5: under AREA_PRIORITIZED, [partition_area_prioritized] first runs the
    area search with [max_slr_width_limit]; if it finds no mapping the result
    is the empty map; otherwise the search has found an area limit [c] (the
    one of its last successful probe), the crossing search runs with [c], and
    the result is the crossing search's mapping, or the area search's mapping
    when the crossing search finds none (exceptions of the crossing search
    propagate). *)
Theorem partition_area_prioritized_two_phases
    (init_v2s slot_manager grouping_constraints pre_assignments : pyval)
    (min_area max_area min_slr max_slr : Q) (max_search_time : pyval)
    (partitioner : partitioner_t) (v2s_a : v2s_t) (cap_a : option Q) :
  _binary_search_area_limit init_v2s slot_manager grouping_constraints
    pre_assignments (PyNum max_slr) min_area max_area max_search_time
    partitioner = Ret (v2s_a, cap_a) ->
  (v2s_a = ∅ /\
   partition_area_prioritized init_v2s slot_manager grouping_constraints
     pre_assignments min_area max_area min_slr max_slr max_search_time
     partitioner = Ret ∅) \/
  (v2s_a <> ∅ /\ exists c, cap_a = Some c /\
   partition_area_prioritized init_v2s slot_manager grouping_constraints
     pre_assignments min_area max_area min_slr max_slr max_search_time partitioner
   = match _binary_search_slr_crossing_limit init_v2s slot_manager
             grouping_constraints pre_assignments (PyNum c) min_slr max_slr
             max_search_time partitioner with
     | Ret (best_v2s, _) => Ret (if bool_decide (best_v2s = ∅) then v2s_a else best_v2s)
     | Raise e => Raise e
     | OutOfFuel => OutOfFuel
     end).
Proof.
  intros Ha. unfold partition_area_prioritized. rewrite Ha.
  destruct (truthy v2s_a) eqn:Ht; simpl.
  - right. apply truthy_true in Ht. split; [exact Ht|].
    destruct (area_search_cap _ _ _ _ _ _ _ _ _ _ _ Ha Ht) as [c ->].
    exists c. split; [reflexivity|]. simpl.
    destruct (_binary_search_slr_crossing_limit _ _ _ _ _ _ _ _ _) as [[b cb]|e|];
      [|reflexivity|reflexivity].
    unfold truthy. destruct (bool_decide (b = ∅)); reflexivity.
  - left. apply truthy_false in Ht. auto.
Qed.

Lemma partition_area_prioritized_two_phases_witness :
  _binary_search_area_limit (PyDict 0) (PyObj 1) (PyList 2) (PyDict 3)
    (PyNum 15000) (13 # 20) (17 # 20) (PyNum 600)
    (fun _ => Ret (<[1%nat := 0%nat]> ∅)) = Ret (<[1%nat := 0%nat]> ∅, Some (1344000000 # 2048000000)) /\
  ((<[1%nat := 0%nat]> ∅ : v2s_t) = ∅ /\
   partition_area_prioritized (PyDict 0) (PyObj 1) (PyList 2) (PyDict 3)
     (13 # 20) (17 # 20) 10000 15000 (PyNum 600)
     (fun _ => Ret (<[1%nat := 0%nat]> ∅)) = Ret ∅ \/
   (<[1%nat := 0%nat]> ∅ : v2s_t) <> ∅ /\ exists c, Some (1344000000 # 2048000000) = Some c /\
   partition_area_prioritized (PyDict 0) (PyObj 1) (PyList 2) (PyDict 3)
     (13 # 20) (17 # 20) 10000 15000 (PyNum 600) (fun _ => Ret (<[1%nat := 0%nat]> ∅))
   = match _binary_search_slr_crossing_limit (PyDict 0) (PyObj 1) (PyList 2) (PyDict 3)
             (PyNum c) 10000 15000 (PyNum 600) (fun _ => Ret (<[1%nat := 0%nat]> ∅)) with
     | Ret (best_v2s, _) =>
         Ret (if bool_decide (best_v2s = ∅) then <[1%nat := 0%nat]> ∅ else best_v2s)
     | Raise e => Raise e
     | OutOfFuel => OutOfFuel
     end).
Proof.
  assert (Ha : _binary_search_area_limit (PyDict 0) (PyObj 1) (PyList 2) (PyDict 3)
    (PyNum 15000) (13 # 20) (17 # 20) (PyNum 600)
    (fun _ => Ret (<[1%nat := 0%nat]> ∅)) = Ret (<[1%nat := 0%nat]> ∅, Some (1344000000 # 2048000000)))
    by (vm_compute; reflexivity).
  split; [exact Ha|].
  exact (partition_area_prioritized_two_phases _ _ _ _ _ _ _ _ _ _ _ _ Ha).
Defined.

(** ** The four-way retry loop *)






Lemma four_way_loop_S fuel inner env c :
  four_way_loop (S fuel) inner env c =
  match inner (four_way_inner_args env c) with
  | Ret v2s =>
      if negb (truthy v2s) then
        match c, env_get env "max_usage_ratio_delta",
              env_get env "hard_limit_max_usage" with
        | PyNum c, PyNum delta, PyNum hard =>
            let c' := round2 (c + delta) in
            if Qle_bool hard c' then Ret ∅
            else four_way_loop fuel inner env (PyNum c')
        | _, _, _ => Raise TypeError
        end
      else Ret v2s
  | Raise e => Raise e
  | OutOfFuel => OutOfFuel
  end.
Proof. reflexivity. Qed.





(** C1 (the positional call of the crossing search into [four_way_partition]):
    the binary search calls its partitioner as
    [partitioner(init_v2s, grouping_constraints, pre_assignments, slot_manager,
    area_limit, curr_slr_limit, max_search_time)], while [four_way_partition]
    takes [(init_v2s, slot_manager, grouping_constraints, pre_assignments,
    ref_usage_ratio, max_search_time, max_usage_ratio_delta, ...)].  So its
    [slot_manager] receives the grouping list, [grouping_constraints] the
    pre-assignments, [pre_assignments] the slot manager, [max_search_time] the
    probed crossing cap, and [max_usage_ratio_delta] the search time; and the
    ILP [_four_way_partition] is called without width limits, so all three
    boundary limits are their default 12000, whatever the probed cap. *)
Theorem four_way_probe_binding (fuel : nat) (inner : list pyval -> outcome v2s_t)
    (init_v2s slot_manager grouping_constraints pre_assignments area_limit
     max_search_time : pyval) (curr_slr_limit : Q) :
  slr_probe (four_way_partition fuel inner) init_v2s slot_manager
    grouping_constraints pre_assignments area_limit max_search_time curr_slr_limit
  = four_way_loop fuel inner
      [("init_v2s"%string, init_v2s); ("slot_manager"%string, grouping_constraints);
       ("grouping_constraints"%string, pre_assignments);
       ("pre_assignments"%string, slot_manager);
       ("ref_usage_ratio"%string, area_limit);
       ("max_search_time"%string, PyNum curr_slr_limit);
       ("max_usage_ratio_delta"%string, max_search_time);
       ("hard_limit_max_usage"%string, PyNum 2)] area_limit /\
  forall c,
    bind_positional _four_way_partition_params
      (four_way_inner_args
         [("init_v2s"%string, init_v2s); ("slot_manager"%string, grouping_constraints);
          ("grouping_constraints"%string, pre_assignments);
          ("pre_assignments"%string, slot_manager);
          ("ref_usage_ratio"%string, area_limit);
          ("max_search_time"%string, PyNum curr_slr_limit);
          ("max_usage_ratio_delta"%string, max_search_time);
          ("hard_limit_max_usage"%string, PyNum 2)] c)
    = Some [("init_v2s"%string, init_v2s);
            ("grouping_constraints"%string, pre_assignments);
            ("pre_assignments"%string, slot_manager);
            ("slot_manager"%string, grouping_constraints);
            ("max_usage_ratio"%string, c);
            ("max_search_time"%string, PyNum curr_slr_limit);
            ("slr_0_1_width_limit"%string, PyNum 12000);
            ("slr_1_2_width_limit"%string, PyNum 12000);
            ("slr_2_3_width_limit"%string, PyNum 12000)].
Proof. split; reflexivity. Qed.

(** ** The python-mip monad: running a successful computation *)

Lemma mbind_inv {A B} (c : M A) (k : A -> M B) m m2 b :
  mbind c k m = Ret (m2, b) -> exists m1 a, c m = Ret (m1, a) /\ k a m1 = Ret (m2, b).
Proof.
  unfold mbind. destruct (c m) as [[m1 a]| |]; intros H; [eauto|discriminate|discriminate].
Qed.

Ltac mstep_as H E :=
  let m := fresh "m" in let a := fresh "a" in
  apply mbind_inv in H as (m & a & E & H).

Ltac mstep H :=
  let m := fresh "m" in let a := fresh "a" in let E := fresh "E" in
  apply mbind_inv in H as (m & a & E & H).

(** ** Result extraction *)

Lemma py_int_0 (q : Q) : q == 0 -> py_int q = 0%Z.
Proof.
  intros H. unfold py_int.
  assert (Hb : Qle_bool 0 q = true) by (apply Qle_bool_iff; rewrite H; apply Qle_refl).
  rewrite Hb, H. reflexivity.
Qed.

Lemma py_int_1 (q : Q) : q == 1 -> py_int q = 1%Z.
Proof.
  intros H. unfold py_int.
  assert (Hb : Qle_bool 0 q = true) by (apply Qle_bool_iff; rewrite H; discriminate).
  rewrite Hb, H. reflexivity.
Qed.

Lemma py_index_in {A} (l : list A) i x : py_index l i = Ret x -> x ∈ l.
Proof.
  unfold py_index. destruct (_ && _); [|discriminate].
  destruct (nth_error l _) eqn:E; [|discriminate].
  intros [= <-]. apply list_elem_of_In. eapply nth_error_In. exact E.
Qed.

Lemma py_index_small {A} (l : list A) (k : nat) :
  (k < length l)%nat -> exists x, py_index l (Z.of_nat k) = Ret x.
Proof.
  intros Hk. unfold py_index.
  assert (H0 : (Z.of_nat k <? 0)%Z = false) by (apply Z.ltb_ge; lia).
  assert (H1 : (0 <=? Z.of_nat k)%Z = true) by (apply Z.leb_le; lia).
  assert (H2 : (Z.of_nat k <? Z.of_nat (length l))%Z = true) by (apply Z.ltb_lt; lia).
  rewrite H0, H1, H2. simpl. rewrite Nat2Z.id.
  destruct (nth_error l k) eqn:E; [eauto|].
  apply nth_error_None in E. lia.
Qed.

Lemma binary_py_int (q : Q) : q == 0 \/ q == 1 -> py_int q = 0%Z \/ py_int q = 1%Z.
Proof. intros [H|H]; [left; apply py_int_0 | right; apply py_int_1]; exact H. Qed.

Lemma slot_by_idx_total (leaves : list nat) (a b : Z) :
  (4 <= length leaves)%nat -> (a = 0 \/ a = 1)%Z -> (b = 0 \/ b = 1)%Z ->
  exists s, func_get_slot_by_idx leaves a b = Ret s.
Proof.
  intros Hl Ha Hb. unfold func_get_slot_by_idx.
  replace (a * 2 + b)%Z with (Z.of_nat (Z.to_nat (a * 2 + b))) by lia.
  apply py_index_small. lia.
Qed.

Lemma slot_by_idx_in (leaves : list nat) (a b : Z) s :
  func_get_slot_by_idx leaves a b = Ret s -> s ∈ leaves.
Proof. apply py_index_in. Qed.

Lemma extract_results_total x f y1 y2 (l : list nat) (acc : v2s_t) :
  (forall v, v ∈ l -> exists a b s, y1 !! v = Some a /\ y2 !! v = Some b /\
     f (py_int (x a)) (py_int (x b)) = Ret s) ->
  exists r, extract_results x f y1 y2 l acc = Ret r /\
    forall v, is_Some (r !! v) <-> v ∈ l \/ is_Some (acc !! v).
Proof.
  revert acc. induction l as [|v l IH]; intros acc Hl.
  - exists acc. split; [reflexivity|]. intros w. rewrite elem_of_nil. tauto.
  - destruct (Hl v (proj2 (elem_of_cons l v v) (or_introl eq_refl))) as (a & b & s & Ha & Hb & Hs).
    destruct (IH (<[v := s]> acc)) as (r & Hr & Hk).
    { intros w Hw. apply Hl. apply elem_of_cons. right. exact Hw. }
    exists r. split; [simpl; rewrite Ha, Hb, Hs; exact Hr|].
    intros w. rewrite Hk, lookup_insert_is_Some', elem_of_cons. naive_solver.
Qed.

Lemma extract_results_sound x f y1 y2 (l : list nat) (acc r : v2s_t) :
  extract_results x f y1 y2 l acc = Ret r ->
  (forall v, is_Some (r !! v) <-> v ∈ l \/ is_Some (acc !! v)) /\
  (forall v s, r !! v = Some s -> acc !! v = Some s \/ exists a b, f a b = Ret s).
Proof.
  revert acc. induction l as [|v l IH]; intros acc H; simpl in H.
  - injection H as <-. split; [intros w; rewrite elem_of_nil; tauto|]. intros; left; assumption.
  - destruct (y1 !! v) as [a|], (y2 !! v) as [b|]; try discriminate.
    destruct (f (py_int (x a)) (py_int (x b))) as [s| |] eqn:Ef; try discriminate.
    destruct (IH _ H) as [Hk Hv]. split.
    + intros w. rewrite Hk, lookup_insert_is_Some', elem_of_cons. naive_solver.
    + intros w t Hw. destruct (Hv w t Hw) as [Ht|Ht]; [|right; exact Ht].
      apply lookup_insert_Some in Ht as [[<- <-]|[_ Ht]]; [right; eauto|left; exact Ht].
Qed.

Lemma get_results_cases status x v_list f y1 y2 r :
  _get_results status x v_list f y1 y2 = Ret r ->
  r = ∅ \/ extract_results x f y1 y2 v_list ∅ = Ret r.
Proof. destruct status; simpl; intros H; (injection H as <-; left; reflexivity) || (right; exact H). Qed.

Lemma get_results_sound status x v_list leaves y1 y2 r :
  _get_results status x v_list (func_get_slot_by_idx leaves) y1 y2 = Ret r ->
  r = ∅ \/
  ((forall v, is_Some (r !! v) <-> v ∈ v_list) /\
   (forall v s, r !! v = Some s -> s ∈ leaves)).
Proof.
  intros H. apply get_results_cases in H as [H|H]; [left; exact H|right].
  apply extract_results_sound in H as [Hk Hv]. split.
  - intros v. rewrite Hk, lookup_empty. split; [intros [Hv'|[? Hn]]; [exact Hv'|discriminate]|tauto].
  - intros v s Hs. destruct (Hv v s Hs) as [Hn|(a & b & Hab)]; [rewrite lookup_empty in Hn; discriminate|].
    eapply slot_by_idx_in. exact Hab.
Qed.

(** C6: on the model built for the ILP (each vertex of [v_list] owning two
    BINARY location variables) with four leaf slots, [_get_results] never
    raises: for status OPTIMAL or FEASIBLE, with the solver's values a
    feasible assignment of the model, it returns a mapping whose keys are
    exactly [v_list]; for every other status it returns the empty mapping. *)
Theorem get_results_by_status (status : opt_status) (x : nat -> Q) (m : model)
    (v_list leaves : list nat) (v2var_y1 v2var_y2 : gmap nat nat) :
  (forall v, v ∈ v_list -> exists a b, v2var_y1 !! v = Some a /\ v2var_y2 !! v = Some b /\
     m_vars m !! a = Some BINARY /\ m_vars m !! b = Some BINARY) ->
  (4 <= length leaves)%nat ->
  (status = OPTIMAL \/ status = FEASIBLE -> feasible x m) ->
  exists r,
    _get_results status x v_list (func_get_slot_by_idx leaves) v2var_y1 v2var_y2 = Ret r /\
    (status = OPTIMAL \/ status = FEASIBLE -> forall v, is_Some (r !! v) <-> v ∈ v_list) /\
    (status <> OPTIMAL -> status <> FEASIBLE -> r = ∅).
Proof.
  intros Hy Hl Hf.
  assert (Hok : status = OPTIMAL \/ status = FEASIBLE ->
    exists r, extract_results x (func_get_slot_by_idx leaves) v2var_y1 v2var_y2 v_list ∅ = Ret r /\
      forall v, is_Some (r !! v) <-> v ∈ v_list).
  { intros Hs. destruct (Hf Hs) as (_ & Hbin & _).
    destruct (extract_results_total x (func_get_slot_by_idx leaves) v2var_y1 v2var_y2 v_list ∅)
      as (r & Hr & Hk).
    - intros v Hv. destruct (Hy v Hv) as (a & b & Ha & Hb & Ta & Tb).
      destruct (slot_by_idx_total leaves (py_int (x a)) (py_int (x b)) Hl) as [s Hs'];
        [apply binary_py_int, Hbin, Ta | apply binary_py_int, Hbin, Tb |].
      exists a, b, s. auto.
    - exists r. split; [exact Hr|]. intros v. rewrite Hk, lookup_empty.
      split; [intros [H|[? H]]; [exact H|discriminate]|tauto]. }
  destruct status;
    try (exists ∅; split; [reflexivity|]; split; [intros [H|H]; discriminate|reflexivity]);
    (destruct (Hok ltac:(auto)) as (r & Hr & Hk); exists r; split; [exact Hr|];
     split; [intros _; exact Hk|intros H1 H2; congruence]).
Qed.

Lemma get_results_by_status_witness :
  exists r,
    _get_results OPTIMAL (fun _ => 0) [0%nat; 1%nat]
      (func_get_slot_by_idx [10%nat; 11%nat; 12%nat; 13%nat]) demo_y1 demo_y2 = Ret r /\
    (OPTIMAL = OPTIMAL \/ OPTIMAL = FEASIBLE -> forall v, is_Some (r !! v) <-> v ∈ [0%nat; 1%nat]) /\
    (OPTIMAL <> OPTIMAL -> OPTIMAL <> FEASIBLE -> r = ∅).
Proof.
  apply (get_results_by_status OPTIMAL (fun _ => 0) demo_model).
  - intros v Hv. apply elem_of_cons in Hv as [->|Hv].
    + exists 0%nat, 1%nat. repeat split; reflexivity.
    + apply elem_of_cons in Hv as [->|Hv]; [|apply elem_of_nil in Hv; contradiction].
      exists 2%nat, 3%nat. repeat split; reflexivity.
  - simpl. lia.
  - intros _. split; [constructor|]. split.
    + intros i _. left. reflexivity.
    + intros i Hi. destruct i as [|[|[|[|i]]]]; cbn in Hi; discriminate.
Defined.

(** ** Coverage of the four-way result *)

Lemma four_way_loop_result fuel inner env c r :
  four_way_loop fuel inner env c = Ret r ->
  r = ∅ \/ exists c', inner (four_way_inner_args env c') = Ret r.
Proof.
  revert c. induction fuel as [|fuel IH]; intros c Hl; [discriminate|].
  rewrite four_way_loop_S in Hl.
  destruct (inner (four_way_inner_args env c)) as [v|e|] eqn:Ei; try discriminate.
  destruct (negb (truthy v)); [|injection Hl as <-; right; exists c; exact Ei].
  destruct c as [| | |q|]; try discriminate.
  destruct (env_get env "max_usage_ratio_delta") as [| | |d|]; try discriminate.
  destruct (env_get env "hard_limit_max_usage") as [| | |hl|]; try discriminate.
  cbv zeta in Hl. destruct (Qle_bool hl (round2 (q + d))).
  - injection Hl as <-. left. reflexivity.
  - exact (IH _ Hl).
Qed.

Lemma bind_positional_cons (x : string) d ps a args :
  bind_positional ((x, d) :: ps) (a :: args) = option_map (cons (x, a)) (bind_positional ps args).
Proof. destruct d; reflexivity. Qed.

Lemma v_list_keys (init_v2s : v2s_t) v :
  v ∈ map fst (map_to_list init_v2s) <-> is_Some (init_v2s !! v).
Proof.
  rewrite list_elem_of_In, in_map_iff. split.
  - intros [[k s] [Hk Hin]]. simpl in Hk. subst k.
    apply list_elem_of_In, elem_of_map_to_list in Hin. eauto.
  - intros [s Hs]. exists (v, s). split; [reflexivity|].
    apply list_elem_of_In, elem_of_map_to_list. exact Hs.
Qed.

Lemma _four_way_partition_sound W init_v2s grouping_constraints pre_assignments
    all_leaf_slots max_usage_ratio t w01 w12 w23 r :
  _four_way_partition W init_v2s grouping_constraints pre_assignments all_leaf_slots
    max_usage_ratio t w01 w12 w23 = Ret r ->
  r = ∅ \/
  ((forall v, is_Some (r !! v) <-> is_Some (init_v2s !! v)) /\
   (forall v s, r !! v = Some s -> s ∈ all_leaf_slots)).
Proof.
  unfold _four_way_partition. intros H.
  match type of H with
  | match ?b with _ => _ end = _ => destruct b as [[m' r']| |] eqn:E; try discriminate
  end.
  injection H as <-.
  do 9 mstep E.
  destruct (optimize W _ t) as [status x].
  destruct (_get_results _ _ _ _ _ _) as [r0| |] eqn:Eg; try discriminate.
  injection E as <- <-.
  destruct (get_results_sound _ _ _ _ _ _ _ Eg) as [Hr|[Hk Hv]]; [left; exact Hr|right].
  split; [|exact Hv]. intros v. rewrite Hk. apply v_list_keys.
Qed.

Lemma _four_way_partition_py_sound W h args r :
  _four_way_partition_py W h args = Ret r ->
  r = ∅ \/
  exists i s, nth_error args 0 = Some (PyDict i) /\ nth_error args 3 = Some (PyObj s) /\
    (forall v, is_Some (r !! v) <-> is_Some (heap_dict h i !! v)) /\
    (forall v sl, r !! v = Some sl -> sl ∈ heap_leaves h s).
Proof.
  unfold _four_way_partition_py.
  destruct args as [|a0 [|a1 [|a2 [|a3 [|a4 [|a5 rest]]]]]]; try discriminate.
  unfold _four_way_partition_params. rewrite !bind_positional_cons.
  destruct (bind_positional _ rest) as [env|] eqn:Eb; [|discriminate].
  cbn [option_map env_get String.eqb Ascii.eqb Bool.eqb andb].
  destruct a0 as [| | | |]; try discriminate.
  destruct a1 as [| | | |]; try discriminate.
  destruct a2 as [| | | |]; try discriminate.
  destruct a3 as [| | | |]; try discriminate.
  destruct a4 as [| | | |]; try discriminate.
  intros H. apply _four_way_partition_sound in H as [H|H]; [left; exact H|right].
  eexists _, _. split; [reflexivity|]. split; [reflexivity|]. exact H.
Qed.

(** C7: whatever the arguments, a value returned by [four_way_partition]
    (with [_four_way_partition] as its inner ILP, reading the dict and slot
    manager it is given) is either the empty mapping, or a mapping whose keys
    are exactly the vertices of the [init_v2s] dict passed first, each mapped
    to a leaf of the slot manager passed second
    ([getLeafSlotsAfterPartition([horizontal, horizontal])]). *)
Theorem four_way_partition_coverage (W : ilp_world) (h : heap) (fuel : nat)
    (args : list pyval) (r : v2s_t) :
  four_way_partition fuel (_four_way_partition_py W h) args = Ret r ->
  r = ∅ \/
  exists i s rest, args = PyDict i :: PyObj s :: rest /\
    (forall v, is_Some (r !! v) <-> is_Some (heap_dict h i !! v)) /\
    (forall v sl, r !! v = Some sl -> sl ∈ heap_leaves h s).
Proof.
  unfold four_way_partition.
  destruct args as [|a0 [|a1 rest]]; try discriminate.
  unfold four_way_partition_params. rewrite !bind_positional_cons.
  destruct (bind_positional _ rest) as [env|] eqn:Eb; [|discriminate].
  cbn [option_map]. intros H.
  apply four_way_loop_result in H as [H|[c H]]; [left; exact H|].
  apply _four_way_partition_py_sound in H as [H|(i & s & Hi & Hs & Hk & Hv)];
    [left; exact H|right].
  cbn in Hi, Hs. injection Hi as ->. injection Hs as ->.
  exists i, s, rest. auto.
Qed.

Lemma four_way_partition_coverage_witness :
  four_way_partition 5 (_four_way_partition_py W_demo h_demo)
    [PyDict 0; PyObj 0; PyList 0; PyDict 1; PyNum (7 # 10)] = Ret {[0%nat := 10%nat]} /\
  ({[0%nat := 10%nat]} = (∅ : v2s_t) \/
   exists i s rest, [PyDict 0; PyObj 0; PyList 0; PyDict 1; PyNum (7 # 10)] =
                    PyDict i :: PyObj s :: rest /\
     (forall v, is_Some (({[0%nat := 10%nat]} : v2s_t) !! v) <-> is_Some (heap_dict h_demo i !! v)) /\
     (forall v sl, ({[0%nat := 10%nat]} : v2s_t) !! v = Some sl -> sl ∈ heap_leaves h_demo s)).
Proof.
  assert (E : four_way_partition 5 (_four_way_partition_py W_demo h_demo)
    [PyDict 0; PyObj 0; PyList 0; PyDict 1; PyNum (7 # 10)] = Ret {[0%nat := 10%nat]})
    by (vm_compute; reflexivity).
  split; [exact E|]. exact (four_way_partition_coverage W_demo h_demo 5 _ _ E).
Defined.

(** ** Pre-assignments *)

Lemma mfor_noop {A} (l : list A) (body : A -> M unit) m :
  (forall x, x ∈ l -> body x m = Ret (m, tt)) -> mfor l body m = Ret (m, tt).
Proof.
  induction l as [|x l IH]; intros Hb; [reflexivity|].
  simpl. unfold mbind. rewrite (Hb x) by (apply elem_of_cons; left; reflexivity).
  apply IH. intros y Hy. apply Hb. apply elem_of_cons. right. exact Hy.
Qed.

(** C2: when the expected slot of a pre-assignment lies in no current leaf,
    [_add_pre_assignment] neither raises nor constrains the vertex: with
    every pre-assigned vertex in [v_list] and no leaf containing its expected
    slot, the call returns normally and leaves the model unchanged, so the
    ILP is then solved with those vertices free. *)
Theorem pre_assignment_without_container_is_silent (W : ilp_world)
    (v_list : list nat) (slot_to_idx : list (nat * (Z * Z))) (pre_assignments : v2s_t)
    (v2var_y1 v2var_y2 : gmap nat nat) (m : model) :
  (forall v expect_slot, pre_assignments !! v = Some expect_slot ->
     v ∈ v_list /\
     forall avail_slot, avail_slot ∈ map fst slot_to_idx ->
       containsChildSlot W avail_slot expect_slot = false) ->
  _add_pre_assignment W v_list slot_to_idx pre_assignments v2var_y1 v2var_y2 m = Ret (m, tt).
Proof.
  intros Hpre. unfold _add_pre_assignment. apply mfor_noop.
  intros [v e] Hve. apply elem_of_map_to_list in Hve.
  destruct (Hpre v e Hve) as [Hv Hc].
  rewrite (bool_decide_eq_true_2 _ Hv).
  apply mfor_noop. intros s Hs. rewrite (Hc s Hs). reflexivity.
Qed.

Lemma pre_assignment_without_container_is_silent_witness :
  _add_pre_assignment W_demo [0%nat] [(10%nat, (0, 0)%Z); (11%nat, (0, 1)%Z);
      (12%nat, (1, 0)%Z); (13%nat, (1, 1)%Z)] {[0%nat := 9%nat]}
    {[0%nat := 0%nat]} {[0%nat := 1%nat]} demo_model = Ret (demo_model, tt) /\
  _four_way_partition W_demo {[0%nat := 10%nat]} [] {[0%nat := 9%nat]}
    [10%nat; 11%nat; 12%nat; 13%nat] 1 (PyNum 600) (PyNum 12000) (PyNum 12000)
    (PyNum 12000) = Ret {[0%nat := 10%nat]}.
Proof.
  split; [|vm_compute; reflexivity].
  apply pre_assignment_without_container_is_silent.
  intros v e He. apply lookup_singleton_Some in He as [<- <-].
  split; [apply elem_of_cons; left; reflexivity|].
  intros s Hs. simpl in Hs.
  repeat (apply elem_of_cons in Hs as [->|Hs]; [reflexivity|]).
  apply elem_of_nil in Hs. contradiction.
Defined.

(** ** Area constraints *)

Lemma ext_refl m : ext m m.
Proof. split; exists []; rewrite app_nil_r; reflexivity. Qed.

Lemma ext_trans m1 m2 m3 : ext m1 m2 -> ext m2 m3 -> ext m1 m3.
Proof.
  intros [[l1 H1] [k1 K1]] [[l2 H2] [k2 K2]].
  split; [exists (l1 ++ l2); rewrite H2, H1|exists (k1 ++ k2); rewrite K2, K1];
    rewrite app_assoc; reflexivity.
Qed.

Lemma ext_var m m' i t : ext m m' -> m_vars m !! i = Some t -> m_vars m' !! i = Some t.
Proof. intros [[l ->] _] H. apply lookup_app_l_Some. exact H. Qed.

Lemma ext_constr m m' c : ext m m' -> c ∈ m_constrs m -> c ∈ m_constrs m'.
Proof. intros [_ [l ->]] H. apply elem_of_app. left. exact H. Qed.

Lemma add_var_inv vt m m' a :
  add_var vt m = Ret (m', a) -> ext m m' /\ m_vars m' !! a = Some vt.
Proof.
  unfold add_var. intros [= <- <-]. split.
  - split; [exists [vt]|exists []; rewrite app_nil_r]; reflexivity.
  - simpl. rewrite lookup_app_r by lia. rewrite Nat.sub_diag. reflexivity.
Qed.

Lemma add_constr_inv c m m' u :
  add_constr c m = Ret (m', u) -> ext m m' /\ c ∈ m_constrs m'.
Proof.
  unfold add_constr. intros [= <- _]. split.
  - split; [exists []; rewrite app_nil_r|exists [c]]; reflexivity.
  - simpl. apply elem_of_app. right. apply elem_of_cons. left. reflexivity.
Qed.

Lemma dict_get_inv d k m m' a : dict_get d k m = Ret (m', a) -> m' = m /\ d !! k = Some a.
Proof. unfold dict_get. destruct (d !! k); [intros [= <- <-]; auto|discriminate]. Qed.

Lemma lift_inv {A} (o : outcome A) m m' a : lift o m = Ret (m', a) -> m' = m /\ o = Ret a.
Proof. unfold lift. destruct o; [intros [= <- <-]; auto|discriminate|discriminate]. Qed.

Lemma mfor_inv {A} (l : list A) (body : A -> M unit) (P : A -> model -> Prop) m m'' u :
  (forall x m m', x ∈ l -> body x m = Ret (m', tt) -> ext m m' /\ P x m') ->
  (forall x m m', P x m -> ext m m' -> P x m') ->
  mfor l body m = Ret (m'', u) -> ext m m'' /\ forall x, x ∈ l -> P x m''.
Proof.
  intros Hb Hmono. revert m. induction l as [|x l IH]; intros m H; simpl in H.
  - injection H as <- _. split; [apply ext_refl|]. intros x Hx. apply elem_of_nil in Hx. contradiction.
  - mstep H. destruct a.
    destruct (Hb x m m0 (proj2 (elem_of_cons l x x) (or_introl eq_refl)) E) as [He Hp].
    destruct (IH (fun y m m' Hy => Hb y m m' (proj2 (elem_of_cons l y x) (or_intror Hy))) m0 H)
      as [He' Hl].
    split; [exact (ext_trans _ _ _ He He')|].
    intros y Hy. apply elem_of_cons in Hy as [->|Hy]; [exact (Hmono _ _ _ Hp He')|exact (Hl y Hy)].
Qed.

Lemma mmap_inv {A B} (f : A -> M B) (l : list A) (R : A -> B -> model -> Prop) m m' bs :
  (forall x m m' b, x ∈ l -> f x m = Ret (m', b) -> ext m m' /\ R x b m') ->
  (forall x b m m', R x b m -> ext m m' -> R x b m') ->
  mmap f l m = Ret (m', bs) -> ext m m' /\ Forall2 (fun x b => R x b m') l bs.
Proof.
  intros Hf Hmono. revert m bs. induction l as [|x l IH]; intros m bs H; simpl in H.
  - injection H as <- <-. split; [apply ext_refl|constructor].
  - mstep H. mstep H. injection H as <- <-.
    destruct (Hf x m m0 a (proj2 (elem_of_cons l x x) (or_introl eq_refl)) E) as [He Hr].
    destruct (IH (fun y m m' b Hy => Hf y m m' b (proj2 (elem_of_cons l y x) (or_intror Hy)))
                 m0 a0 E0) as [He' Hl].
    split; [exact (ext_trans _ _ _ He He')|].
    constructor; [exact (Hmono _ _ _ _ Hr He')|exact Hl].
Qed.

Lemma alloc_prods_inv vs prods m m' prods' :
  alloc_prods vs prods m = Ret (m', prods') ->
  ext m m' /\
  forall v, (v ∈ vs -> exists p, prods' !! v = Some p /\ m_vars m' !! p = Some BINARY) /\
            (v ∉ vs -> prods' !! v = prods !! v).
Proof.
  revert prods m. induction vs as [|v0 vs IH]; intros prods m H; simpl in H.
  - injection H as <- <-. split; [apply ext_refl|]. intros v. split; [|reflexivity].
    intros Hv. apply elem_of_nil in Hv. contradiction.
  - mstep H. apply add_var_inv in E as [He Ha].
    destruct (IH _ _ H) as [He' Hv]. split; [exact (ext_trans _ _ _ He He')|].
    intros v. split.
    + intros Hin. destruct (decide (v ∈ vs)) as [Hvs|Hvs]; [exact (proj1 (Hv v) Hvs)|].
      apply elem_of_cons in Hin as [->|Hin]; [|contradiction].
      exists a. split; [rewrite (proj2 (Hv v0) Hvs); apply lookup_insert_eq|].
      exact (ext_var _ _ _ _ He' Ha).
    + intros Hn. rewrite elem_of_cons in Hn.
      rewrite (proj2 (Hv v)) by tauto. apply lookup_insert_ne. intros ->. tauto.
Qed.

Lemma eval_terms_app σ ts1 ts2 :
  eval_terms σ (ts1 ++ ts2) == eval_terms σ ts1 + eval_terms σ ts2.
Proof. induction ts1 as [|[c x] ts1 IH]; simpl; [ring|rewrite IH; ring]. Qed.

Lemma eval_terms_scale σ k ts :
  eval_terms σ (map (fun '(c, x) => (k * c, x)) ts) == k * eval_terms σ ts.
Proof. induction ts as [|[c x] ts IH]; simpl; [ring|rewrite IH; ring]. Qed.

Lemma eval_lvar σ x : eval_lin σ (lvar x) == σ x.
Proof. unfold eval_lin, lvar. simpl. ring. Qed.

Lemma eval_lconst σ q : eval_lin σ (lconst q) == q.
Proof. unfold eval_lin, lconst. simpl. ring. Qed.

Lemma eval_ladd σ a b : eval_lin σ (ladd a b) == eval_lin σ a + eval_lin σ b.
Proof. unfold eval_lin, ladd. simpl. rewrite eval_terms_app. ring. Qed.

Lemma eval_lscale σ k a : eval_lin σ (lscale k a) == k * eval_lin σ a.
Proof. unfold eval_lin, lscale. simpl. rewrite eval_terms_scale. ring. Qed.

Lemma eval_lsub σ a b : eval_lin σ (lsub a b) == eval_lin σ a - eval_lin σ b.
Proof. unfold lsub. rewrite eval_ladd, eval_lscale. ring. Qed.

Lemma sat_cge σ a b : sat σ (cge a b) <-> eval_lin σ b <= eval_lin σ a.
Proof. unfold sat, cge. simpl. rewrite eval_lsub. split; intros; lra. Qed.

Lemma sat_cle σ a b : sat σ (cle a b) <-> eval_lin σ a <= eval_lin σ b.
Proof. unfold sat, cle. simpl. rewrite eval_lsub. split; intros; lra. Qed.

Lemma eval_choose σ x num :
  eval_lin σ (choose x num) == if Z.eqb num 1 then σ x else 1 - σ x.
Proof.
  unfold choose. destruct (Z.eqb num 1); [apply eval_lvar|].
  rewrite eval_lsub, eval_lconst, eval_lvar. reflexivity.
Qed.

Lemma feasible_sat σ m c : feasible σ m -> c ∈ m_constrs m -> sat σ c.
Proof.
  intros [Hc _] Hin. rewrite Forall_forall in Hc. apply Hc. exact Hin.
Qed.

Lemma feasible_binary σ m i : feasible σ m -> m_vars m !! i = Some BINARY -> σ i == 0 \/ σ i == 1.
Proof. intros (_ & Hb & _). apply Hb. Qed.

(** The three inequalities of the AND encoding on 0/1 values. *)
Lemma and_encoding (s1 s2 sp : Q) (y1 y2 : Z) :
  (y1 = 0 \/ y1 = 1)%Z -> (y2 = 0 \/ y2 = 1)%Z ->
  (s1 == 0 \/ s1 == 1) -> (s2 == 0 \/ s2 == 1) -> (sp == 0 \/ sp == 1) ->
  sp <= (if Z.eqb y1 1 then s1 else 1 - s1) ->
  sp <= (if Z.eqb y2 1 then s2 else 1 - s2) ->
  (if Z.eqb y1 1 then s1 else 1 - s1) + (if Z.eqb y2 1 then s2 else 1 - s2) - sp <= 1 ->
  (sp == 1 <-> s1 == inject_Z y1 /\ s2 == inject_Z y2).
Proof.
  intros [->| ->] [->| ->] H1 H2 Hp; simpl; unfold inject_Z;
    destruct H1 as [H1|H1], H2 as [H2|H2], Hp as [Hp|Hp]; intros C1 C2 C3;
    (split; [intros E; split; lra|intros [E1 E2]; lra]).
Qed.

Lemma area_terms_inv (area : nat -> Q) (prods : gmap nat nat) l m m' bs :
  mmap (fun v => let* p := dict_get prods v in mret (lscale (area v) (lvar p))) l m = Ret (m', bs) ->
  m' = m /\ forall σ, eval_lin σ (xsum bs) == area_sum σ area prods l.
Proof.
  revert m bs. induction l as [|v l IH]; intros m bs H; simpl in H.
  - injection H as <- <-. split; [reflexivity|]. intros σ. apply eval_lconst.
  - mstep H. mstep E. apply dict_get_inv in E0 as [-> Hp]. unfold mret in E. injection E as <- <-.
    mstep H. injection H as <- <-. destruct (IH _ _ E) as [-> Hs]. split; [reflexivity|].
    intros σ. simpl. rewrite Hp, eval_ladd, eval_lscale, eval_lvar, Hs. ring.
Qed.

Lemma block_syn_mono W v_list y1v y2v f ratio r y1 y2 prods m m' :
  block_syn W v_list y1v y2v f ratio r y1 y2 prods m -> ext m m' ->
  block_syn W v_list y1v y2v f ratio r y1 y2 prods m'.
Proof.
  intros [Hv (slot & terms & Hs & Hc & He)] Hx. split.
  - intros v Hin. destruct (Hv v Hin) as (p & x1 & x2 & H1 & H2 & H3 & H4 & H5 & H6 & H7).
    exists p, x1, x2. repeat split; eauto using ext_var, ext_constr.
  - exists slot, terms. repeat split; eauto using ext_constr.
Qed.

Lemma area_block_inv W v_list y1v y2v f ratio r y1 y2 m m' prods :
  area_block W v_list y1v y2v f ratio r y1 y2 m = Ret (m', prods) ->
  ext m m' /\ block_syn W v_list y1v y2v f ratio r y1 y2 prods m'.
Proof.
  unfold area_block. intros H.
  mstep_as H Ea. apply alloc_prods_inv in Ea as [He0 Hp].
  mstep_as H Eb.
  apply (mfor_inv _ _ (fun v m =>
     exists p x1 x2,
       a !! v = Some p /\ y1v !! v = Some x1 /\ y2v !! v = Some x2 /\
       cge (choose x1 y1) (lvar p) ∈ m_constrs m /\
       cge (choose x2 y2) (lvar p) ∈ m_constrs m /\
       cle (lsub (ladd (choose x1 y1) (choose x2 y2)) (lvar p)) (lconst 1) ∈ m_constrs m))
    in Eb as [He1 Hv].
  2:{ intros v mm mm' _ Hb.
      mstep_as Hb B1. apply dict_get_inv in B1 as [-> Hx1].
      mstep_as Hb B2. apply dict_get_inv in B2 as [-> Hpv].
      mstep_as Hb B3. apply add_constr_inv in B3 as [Ha1 C1].
      mstep_as Hb B4. apply dict_get_inv in B4 as [-> Hx2].
      mstep_as Hb B5. apply add_constr_inv in B5 as [Ha2 C2].
      apply add_constr_inv in Hb as [Ha3 C3].
      split; [eauto using ext_trans|].
      eexists _, _, _. repeat split; eauto using ext_trans, ext_constr. }
  2:{ intros v mm mm' (p & x1 & x2 & H1 & H2 & H3 & H4 & H5 & H6) Hx.
      exists p, x1, x2. repeat split; eauto using ext_constr. }
  mstep_as H Ec. apply area_terms_inv in Ec as [-> Hs].
  mstep_as H Ed. apply lift_inv in Ed as [-> Hf].
  mstep_as H Ee. apply add_constr_inv in Ee as [He2 Hc].
  unfold mret in H. injection H as <- <-.
  split; [eauto using ext_trans|]. split.
  - intros v Hin. destruct (Hv v Hin) as (p & x1 & x2 & H1 & H2 & H3 & H4 & H5 & H6).
    destruct (proj1 (Hp v) Hin) as (p' & Hp' & Ht). rewrite H1 in Hp'. injection Hp' as <-.
    exists p, x1, x2. repeat split; eauto using ext_var, ext_constr, ext_trans.
  - eexists _, _. repeat split; [exact Hf|exact Hc|exact Hs].
Qed.

Lemma block_syn_sem W v_list y1v y2v f ratio r y1 y2 prods m σ :
  block_syn W v_list y1v y2v f ratio r y1 y2 prods m ->
  map_Forall (fun _ x => m_vars m !! x = Some BINARY) y1v ->
  map_Forall (fun _ x => m_vars m !! x = Some BINARY) y2v ->
  (y1 = 0 \/ y1 = 1)%Z -> (y2 = 0 \/ y2 = 1)%Z ->
  feasible σ m ->
  (forall v, v ∈ v_list -> exists p x1 x2,
     prods !! v = Some p /\ y1v !! v = Some x1 /\ y2v !! v = Some x2 /\
     (σ p == 0 \/ σ p == 1) /\
     (σ p == 1 <-> σ x1 == inject_Z y1 /\ σ x2 == inject_Z y2)) /\
  exists slot, f y1 y2 = Ret slot /\
    area_sum σ (fun v => getVertexAndInboundFIFOArea W v r) prods v_list <=
    getArea W slot r * ratio.
Proof.
  intros [Hv (slot & terms & Hs & Hc & He)] B1 B2 Hy1 Hy2 Hf. split.
  - intros v Hin. destruct (Hv v Hin) as (p & x1 & x2 & H1 & H2 & H3 & H4 & C1 & C2 & C3).
    exists p, x1, x2. split; [exact H1|]. split; [exact H2|]. split; [exact H3|].
    pose proof (feasible_binary σ m p Hf H4) as Bp. split; [exact Bp|].
    pose proof (feasible_sat σ m _ Hf C1) as S1.
    pose proof (feasible_sat σ m _ Hf C2) as S2.
    pose proof (feasible_sat σ m _ Hf C3) as S3.
    rewrite sat_cge, eval_lvar, eval_choose in S1, S2.
    rewrite sat_cle, eval_lsub, eval_ladd, !eval_choose, eval_lvar, eval_lconst in S3.
    apply and_encoding; auto.
    + exact (feasible_binary σ m x1 Hf (B1 v x1 H2)).
    + exact (feasible_binary σ m x2 Hf (B2 v x2 H3)).
  - exists slot. split; [exact Hs|].
    pose proof (feasible_sat σ m _ Hf Hc) as S.
    rewrite sat_cle, He, eval_lconst in S. exact S.
Qed.

Lemma Forall2_list_prod {A B C} (P : A -> B -> C -> Prop) (l1 : list A) (l2 : list B)
    (ll : list (list C)) :
  Forall2 (fun a cs => Forall2 (fun b c => P a b c) l2 cs) l1 ll ->
  Forall2 (fun ab c => P (fst ab) (snd ab) c) (list_prod l1 l2) (concat ll).
Proof.
  induction 1 as [|a cs l1 ll Hcs _ IH]; simpl; [constructor|].
  apply Forall2_app; [|exact IH]. clear IH.
  induction Hcs; simpl; constructor; auto.
Qed.

Lemma product22_range (y1 y2 : Z) :
  (y1, y2) ∈ product22 -> (y1 = 0 \/ y1 = 1)%Z /\ (y2 = 0 \/ y2 = 1)%Z.
Proof.
  unfold product22. rewrite !elem_of_cons, elem_of_nil.
  intros [E|[E|[E|[E|[]]]]]; injection E as -> ->; lia.
Qed.

(** C8: for every resource [r] and leaf index [(y1, y2)] in [{0,1}^2], in
    this order, [_add_area_constraints] creates a block of indicator
    variables [prods]; in every feasible assignment [σ] of the resulting
    model (location variables being BINARY), each vertex's indicator is 0 or
    1 and equals 1 iff the vertex's location variables are [(y1, y2)] (the
    three-inequality AND encoding), and the sum over the vertices of
    indicator times [getVertexAndInboundFIFOArea()[r]] is at most the leaf's
    [getArea()[r]] times [max_usage_ratio]. *)
Theorem area_constraints_and_encoding (W : ilp_world) (v_list : list nat)
    (v2var_y1 v2var_y2 : gmap nat nat) (f : Z -> Z -> outcome nat) (max_usage_ratio : Q)
    (m0 m1 : model) (blocks : list (string * Z * Z * gmap nat nat)) :
  map_Forall (fun _ x => m_vars m0 !! x = Some BINARY) v2var_y1 ->
  map_Forall (fun _ x => m_vars m0 !! x = Some BINARY) v2var_y2 ->
  _add_area_constraints W v_list v2var_y1 v2var_y2 f max_usage_ratio m0 = Ret (m1, blocks) ->
  Forall2 (fun '(r, (y1, y2)) '(r', y1', y2', prods) =>
     r' = r /\ y1' = y1 /\ y2' = y2 /\
     forall σ, feasible σ m1 ->
       (forall v, v ∈ v_list -> exists p x1 x2,
          prods !! v = Some p /\ v2var_y1 !! v = Some x1 /\ v2var_y2 !! v = Some x2 /\
          (σ p == 0 \/ σ p == 1) /\
          (σ p == 1 <-> σ x1 == inject_Z y1 /\ σ x2 == inject_Z y2)) /\
       exists slot, f y1 y2 = Ret slot /\
         area_sum σ (fun v => getVertexAndInboundFIFOArea W v r) prods v_list <=
         getArea W slot r * max_usage_ratio)
    (list_prod (RESOURCE_TYPES W) product22) blocks.
Proof.
  intros B1 B2 H. unfold _add_area_constraints in H.
  mstep_as H Eo. unfold mret in H. injection H as <- <-.
  apply (mmap_inv _ _ (fun r bs m =>
    Forall2 (fun yy blk =>
      (fst yy = 0 \/ fst yy = 1)%Z /\ (snd yy = 0 \/ snd yy = 1)%Z /\
      exists prods, blk = (r, fst yy, snd yy, prods) /\
        block_syn W v_list v2var_y1 v2var_y2 f max_usage_ratio r (fst yy) (snd yy) prods m)
      product22 bs)) in Eo as [Hext Hall].
  - apply (Forall2_impl _ _ _ _ (Forall2_list_prod _ _ _ _ Hall)).
    intros [r [y1 y2]] blk. simpl. intros (Hy1 & Hy2 & prods & -> & Hs).
    split; [reflexivity|]. split; [reflexivity|]. split; [reflexivity|].
    intros σ Hf. apply (block_syn_sem _ _ _ _ _ _ _ _ _ _ _ _ Hs); auto.
    + intros i x Hx. exact (ext_var _ _ _ _ Hext (B1 i x Hx)).
    + intros i x Hx. exact (ext_var _ _ _ _ Hext (B2 i x Hx)).
  - intros r mm mm' bs _ Hin.
    apply (mmap_inv _ _ (fun yy blk m =>
      (fst yy = 0 \/ fst yy = 1)%Z /\ (snd yy = 0 \/ snd yy = 1)%Z /\
      exists prods, blk = (r, fst yy, snd yy, prods) /\
        block_syn W v_list v2var_y1 v2var_y2 f max_usage_ratio r (fst yy) (snd yy) prods m))
      in Hin as [Hx Hl]; [split; [exact Hx|exact Hl]| |].
    + intros [y1 y2] m2 m2' blk Hyy Hb.
      mstep_as Hb Ab. apply area_block_inv in Ab as [Hx Hsyn].
      unfold mret in Hb. injection Hb as <- <-.
      destruct (product22_range y1 y2 Hyy) as [Hy1 Hy2].
      split; [exact Hx|]. simpl. split; [exact Hy1|]. split; [exact Hy2|].
      eexists. split; [reflexivity|exact Hsyn].
    + intros yy blk m2 m2' (Hy1 & Hy2 & prods & -> & Hs) Hx.
      split; [exact Hy1|]. split; [exact Hy2|].
      exists prods. split; [reflexivity|]. exact (block_syn_mono _ _ _ _ _ _ _ _ _ _ _ _ Hs Hx).
  - intros r bs m2 m2' HF Hx. eapply Forall2_impl; [exact HF|].
    intros yy blk (Hy1 & Hy2 & prods & -> & Hs).
    split; [exact Hy1|]. split; [exact Hy2|].
    exists prods. split; [reflexivity|]. exact (block_syn_mono _ _ _ _ _ _ _ _ _ _ _ _ Hs Hx).
Qed.

Lemma area_constraints_and_encoding_witness :
  exists m1 blocks,
    _add_area_constraints W_demo [0%nat; 1%nat] demo_y1 demo_y2
      (func_get_slot_by_idx [10%nat; 11%nat; 12%nat; 13%nat]) (7 # 10) demo_model
    = Ret (m1, blocks) /\
    Forall2 (fun '(r, (y1, y2)) '(r', y1', y2', prods) =>
       r' = r /\ y1' = y1 /\ y2' = y2 /\
       forall σ, feasible σ m1 ->
         (forall v, v ∈ [0%nat; 1%nat] -> exists p x1 x2,
            prods !! v = Some p /\ demo_y1 !! v = Some x1 /\ demo_y2 !! v = Some x2 /\
            (σ p == 0 \/ σ p == 1) /\
            (σ p == 1 <-> σ x1 == inject_Z y1 /\ σ x2 == inject_Z y2)) /\
         exists slot, func_get_slot_by_idx [10%nat; 11%nat; 12%nat; 13%nat] y1 y2 = Ret slot /\
           area_sum σ (fun v => getVertexAndInboundFIFOArea W_demo v r) prods [0%nat; 1%nat] <=
           getArea W_demo slot r * (7 # 10))
      (list_prod (RESOURCE_TYPES W_demo) product22) blocks.
Proof.
  assert (E : _add_area_constraints W_demo [0%nat; 1%nat] demo_y1 demo_y2
      (func_get_slot_by_idx [10%nat; 11%nat; 12%nat; 13%nat]) (7 # 10) demo_model
    = demo_area_run) by (vm_compute; reflexivity).
  eexists _, _. split; [exact E|].
  apply (area_constraints_and_encoding W_demo [0%nat; 1%nat] demo_y1 demo_y2
           (func_get_slot_by_idx [10%nat; 11%nat; 12%nat; 13%nat]) (7 # 10) demo_model).
  - unfold demo_y1. apply map_Forall_insert_2; [reflexivity|].
    apply map_Forall_singleton. reflexivity.
  - unfold demo_y2. apply map_Forall_insert_2; [reflexivity|].
    apply map_Forall_singleton. reflexivity.
  - exact E.
Defined.

(** ** graph.py *)

Lemma alter_mono (f : Vertex -> Vertex) (sel : Vertex -> list nat) :
  (forall v x, x ∈ sel v -> x ∈ sel (f v)) ->
  forall l (st : store) k e,
    (exists v, st !! k = Some v /\ e ∈ sel v) ->
    exists v, alter f l st !! k = Some v /\ e ∈ sel v.
Proof.
  intros Hf l st k e (v & Hv & He).
  destruct (decide (l = k)) as [->|Hne].
  - exists (f v). rewrite lookup_alter_eq, Hv. split; [reflexivity|]. apply Hf. exact He.
  - exists v. rewrite lookup_alter_ne by exact Hne. auto.
Qed.

Lemma alter_dom (f : Vertex -> Vertex) l (st : store) k :
  is_Some (alter f l st !! k) <-> is_Some (st !! k).
Proof.
  destruct (decide (l = k)) as [->|Hne].
  - rewrite lookup_alter_eq. destruct (st !! k); simpl; split; intros [? H]; try discriminate; eauto.
  - rewrite lookup_alter_ne by exact Hne. reflexivity.
Qed.

Lemma sub_add_mono (f : nat -> Vertex -> Vertex) (sel : Vertex -> list nat) (eid : nat)
    (ename : string) (l : nat) (st : store) (k e : nat) :
  (forall v x, x ∈ sel v -> x ∈ sel (f eid v)) ->
  (exists v, st !! k = Some v /\ e ∈ sel v) ->
  exists v, sub_add f eid ename l st !! k = Some v /\ e ∈ sel v.
Proof.
  intros Hf H. unfold sub_add.
  destruct (st !! l) as [vd|]; [|exact H].
  destruct (str_get (actual_to_sub vd) ename) as [sub|]; [|exact H].
  exact (alter_mono (f eid) sel Hf sub st k e H).
Qed.

Lemma sub_add_dom (f : nat -> Vertex -> Vertex) (eid : nat) (ename : string) (l : nat)
    (st : store) (k : nat) :
  is_Some (sub_add f eid ename l st !! k) <-> is_Some (st !! k).
Proof.
  unfold sub_add. destruct (st !! l) as [vd|]; [|reflexivity].
  destruct (str_get (actual_to_sub vd) ename) as [sub|]; [apply alter_dom|reflexivity].
Qed.

Lemma add_in_out_sub e v x : x ∈ out_edges v -> x ∈ out_edges (add_in e v).
Proof. intros H. simpl. apply elem_of_app. left. exact H. Qed.
Lemma add_in_in_sub e v x : x ∈ in_edges v -> x ∈ in_edges (add_in e v).
Proof. auto. Qed.
Lemma add_out_out_sub e v x : x ∈ out_edges v -> x ∈ out_edges (add_out e v).
Proof. auto. Qed.
Lemma add_out_in_sub e v x : x ∈ in_edges v -> x ∈ in_edges (add_out e v).
Proof. intros H. simpl. apply elem_of_app. left. exact H. Qed.

Lemma alter_here (f : Vertex -> Vertex) (sel : Vertex -> list nat) e l (st : store) :
  (forall v, e ∈ sel (f v)) -> is_Some (st !! l) ->
  exists v, alter f l st !! l = Some v /\ e ∈ sel v.
Proof.
  intros Hf [v Hv]. exists (f v). rewrite lookup_alter_eq, Hv. split; [reflexivity|]. apply Hf.
Qed.

Lemma initEdges_loop_inv eid ename e2v ps src dst st s' d' st' :
  (forall x l, str_get e2v x = Some l -> is_Some (st !! l)) ->
  (forall d, dst = Some d -> exists vd, st !! d = Some vd /\ eid ∈ out_edges vd) ->
  (forall s, src = Some s -> exists vs, st !! s = Some vs /\ eid ∈ in_edges vs) ->
  initEdges_loop eid ename e2v ps src dst st = Ret (s', d', st') ->
  (forall d, d' = Some d -> exists vd, st' !! d = Some vd /\ eid ∈ out_edges vd) /\
  (forall s, s' = Some s -> exists vs, st' !! s = Some vs /\ eid ∈ in_edges vs).
Proof.
  revert src dst st. induction ps as [|p ps IH]; intros src dst st Hdom Hd Hs H; simpl in H.
  - injection H as <- <- <-. auto.
  - destruct (argname p) as [actual_raw|]; [|exact (IH _ _ _ Hdom Hd Hs H)].
    destruct (py_in "_dout" actual_raw && py_in "_dout" (portname p)).
    + destruct (str_get e2v actual_raw) as [d0|] eqn:E; [|discriminate].
      refine (IH _ _ _ _ _ _ H).
      * intros x l Hx. apply sub_add_dom, alter_dom. exact (Hdom x l Hx).
      * intros d [= <-]. apply sub_add_mono; [apply add_in_out_sub|].
        apply (alter_here _ out_edges); [|exact (Hdom _ _ E)].
        intros v. simpl. apply elem_of_app. right. apply elem_of_cons. left. reflexivity.
      * intros s Hs'. apply sub_add_mono; [apply add_in_in_sub|].
        apply alter_mono; [apply add_in_in_sub|]. exact (Hs s Hs').
    + destruct (py_in "_din" actual_raw && py_in "_din" (portname p));
        [|exact (IH _ _ _ Hdom Hd Hs H)].
      destruct (str_get e2v actual_raw) as [s0|] eqn:E; [|discriminate].
      refine (IH _ _ _ _ _ _ H).
      * intros x l Hx. apply sub_add_dom, alter_dom. exact (Hdom x l Hx).
      * intros d Hd'. apply sub_add_mono; [apply add_out_out_sub|].
        apply alter_mono; [apply add_out_out_sub|]. exact (Hd d Hd').
      * intros s [= <-]. apply sub_add_mono; [apply add_out_in_sub|].
        apply (alter_here _ in_edges); [|exact (Hdom _ _ E)].
        intros v. simpl. apply elem_of_app. right. apply elem_of_cons. left. reflexivity.
Qed.

Lemma str_get_set {V} (d : list (string * V)) k v : str_get (str_set d k v) k = Some v.
Proof.
  induction d as [|[k' v'] d IH]; simpl; [rewrite String.eqb_refl; reflexivity|].
  destruct (String.eqb k k') eqn:E; simpl; [rewrite String.eqb_refl; reflexivity|].
  rewrite E. exact IH.
Qed.

(** C9: [add_in(e)] appends [e] to [out_edges] and leaves [in_edges]
    unchanged, [add_out(e)] appends [e] to [in_edges] and leaves [out_edges]
    unchanged; so when [initEdges] processes a FIFO instance (every vertex
    named in [edge_to_vertex] being in the store) and returns, the edge it
    records under the instance's name is the new edge, which is in the
    [out_edges] of its destination vertex and in the [in_edges] of its source
    vertex. *)
Theorem initEdges_edge_placement (node_name : string) (portlist : list portarg) (eid : nat)
    (g g' : Graph) :
  (forall x l, str_get (edge_to_vertex g) x = Some l -> is_Some (vertices g !! l)) ->
  initEdges true true node_name portlist eid g = Ret g' ->
  (forall e v, out_edges (add_in e v) = out_edges v ++ [e] /\ in_edges (add_in e v) = in_edges v) /\
  (forall e v, in_edges (add_out e v) = in_edges v ++ [e] /\ out_edges (add_out e v) = out_edges v) /\
  exists ed, str_get (edges g') node_name = Some ed /\ edge_id ed = eid /\
    (forall d, dst ed = Some d -> exists vd, vertices g' !! d = Some vd /\ eid ∈ out_edges vd) /\
    (forall s, src ed = Some s -> exists vs, vertices g' !! s = Some vs /\ eid ∈ in_edges vs).
Proof.
  intros Hdom H.
  split; [intros e v; split; reflexivity|]. split; [intros e v; split; reflexivity|].
  unfold initEdges in H. simpl in H.
  destruct (initEdges_loop eid node_name (edge_to_vertex g) portlist None None (vertices g))
    as [[[s d] st]| |] eqn:E; try discriminate.
  injection H as <-.
  assert (Hn1 : forall d, (None : option nat) = Some d ->
                 exists vd, vertices g !! d = Some vd /\ eid ∈ out_edges vd) by (intros ? [=]).
  assert (Hn2 : forall s, (None : option nat) = Some s ->
                 exists vs, vertices g !! s = Some vs /\ eid ∈ in_edges vs) by (intros ? [=]).
  destruct (initEdges_loop_inv _ _ _ _ _ _ _ _ _ _ Hdom Hn1 Hn2 E) as [Hd Hs].
  eexists. split; [apply str_get_set|]. simpl. auto.
Qed.

Lemma initEdges_edge_placement_witness :
  exists g',
    (forall x l, str_get (edge_to_vertex demo_graph) x = Some l ->
       is_Some (vertices demo_graph !! l)) /\
    initEdges true true "fifo_x" demo_ports 7 demo_graph = Ret g' /\
    ((forall e v, out_edges (add_in e v) = out_edges v ++ [e] /\
                  in_edges (add_in e v) = in_edges v) /\
     (forall e v, in_edges (add_out e v) = in_edges v ++ [e] /\
                  out_edges (add_out e v) = out_edges v) /\
     exists ed, str_get (edges g') "fifo_x" = Some ed /\ edge_id ed = 7%nat /\
       (forall d, dst ed = Some d -> exists vd, vertices g' !! d = Some vd /\ 7%nat ∈ out_edges vd) /\
       (forall s, src ed = Some s -> exists vs, vertices g' !! s = Some vs /\ 7%nat ∈ in_edges vs)).
Proof.
  assert (Hdom : forall x l, str_get (edge_to_vertex demo_graph) x = Some l ->
                   is_Some (vertices demo_graph !! l)).
  { intros x l Hx. cbn [demo_graph edge_to_vertex str_get] in Hx.
    destruct (String.eqb x "fifo_x_din"); [injection Hx as <-; eexists; reflexivity|].
    destruct (String.eqb x "fifo_x_dout"); [injection Hx as <-; eexists; reflexivity|].
    discriminate. }
  assert (E : initEdges true true "fifo_x" demo_ports 7 demo_graph = demo_initEdges_run)
    by (vm_compute; reflexivity).
  eexists. split; [exact Hdom|]. split; [exact E|].
  exact (initEdges_edge_placement "fifo_x" demo_ports 7 demo_graph _ Hdom E).
Defined.

(** ** The searches: number of probes and the limit found *)

Lemma probe_update_width mid r hi lo best cap hi' lo' best' cap' :
  mid = (hi + lo) / 2 ->
  probe_update mid r hi lo best cap hi' lo' best' cap' -> hi - lo == 2 * (hi' - lo').
Proof.
  intros -> [(_ & _ & _ & -> & ->)|(_ & _ & _ & -> & ->)]; rewrite Qhalf; ring.
Qed.


Lemma search_run_separates thr probe hi lo best cap tr bf cf :
  search_run thr probe hi lo best cap tr bf cf -> lo < hi ->
  (forall c, cap = Some c -> c = hi) ->
  (forall p r, (p, r) ∈ tr -> lo < p < hi /\
     (r = ∅ -> forall c, cf = Some c -> p < c) /\
     (r <> ∅ -> exists c, cf = Some c /\ c <= p)) /\
  (forall c, cf = Some c -> cap = Some c \/ (lo < c /\ c < hi)) /\
  (forall c0, cap = Some c0 -> exists c, cf = Some c /\ c <= c0).
Proof.
  induction 1 as [hi lo best cap r hi' lo' best' cap' Hr Hu Hw
                 |hi lo best cap r hi' lo' best' cap' tr bf cf Hr Hu Hw Hrun IH];
    intros Hlt Hcap; pose proof (Qhalf (hi + lo)) as Hm.
  - destruct Hu as [(Hne & -> & -> & -> & ->)|(He & -> & -> & -> & ->)].
    + split; [|split].
      * intros p r0 Hin. apply list_elem_of_singleton in Hin. injection Hin as -> ->.
        split; [lra|]. split; [intros; contradiction|]. intros _. exists ((hi + lo) / 2).
        split; [reflexivity|apply Qle_refl].
      * intros c Hc. injection Hc as <-. right. lra.
      * intros c0 Hc0. apply Hcap in Hc0 as ->. exists ((hi + lo) / 2). split; [reflexivity|lra].
    + split; [|split].
      * intros p r0 Hin. apply list_elem_of_singleton in Hin. injection Hin as -> ->.
        split; [lra|]. split; [|intros; contradiction].
        intros _ c Hc. apply Hcap in Hc as ->. lra.
      * intros c Hc. left. exact Hc.
      * intros c0 Hc0. exists c0. split; [exact Hc0|apply Qle_refl].
  - destruct Hu as [(Hne & -> & -> & -> & ->)|(He & -> & -> & -> & ->)].
    + destruct (IH ltac:(lra) (fun c Hc => eq_sym (f_equal (fun o => match o with Some q => q | None => c end) Hc)))
        as (P1 & P2 & P3).
      split; [|split].
      * intros p r0 Hin. apply elem_of_cons in Hin as [Hin|Hin].
        -- injection Hin as -> ->. split; [lra|]. split; [intros; contradiction|].
           intros _. exact (P3 _ eq_refl).
        -- destruct (P1 p r0 Hin) as (Hp & Q1 & Q2). split; [lra|]. auto.
      * intros c Hc. right. destruct (P2 c Hc) as [Hc'|Hc']; [injection Hc' as <-|]; lra.
      * intros c0 Hc0. apply Hcap in Hc0 as ->. destruct (P3 _ eq_refl) as (c & Hc & Hle).
        exists c. split; [exact Hc|lra].
    + destruct (IH ltac:(lra) Hcap) as (P1 & P2 & P3). split; [|split].
      * intros p r0 Hin. apply elem_of_cons in Hin as [Hin|Hin].
        -- injection Hin as -> ->. split; [lra|]. split; [|intros; contradiction].
           intros _ c Hc. destruct (P2 c Hc) as [Hc'|Hc']; [apply Hcap in Hc' as ->|]; lra.
        -- destruct (P1 p r0 Hin) as (Hp & Q1 & Q2). split; [lra|]. auto.
      * intros c Hc. destruct (P2 c Hc) as [Hc'|Hc']; [left; exact Hc'|right; lra].
      * exact P3.
Qed.

Lemma search_run_separates_top thr probe hi lo tr bf cf :
  search_run thr probe hi lo ∅ None tr bf cf -> 0 < thr -> lo <= hi ->
  forall p r, (p, r) ∈ tr -> lo <= p <= hi /\
    (r = ∅ -> forall c, cf = Some c -> p < c) /\
    (r <> ∅ -> exists c, cf = Some c /\ c <= p).
Proof.
  intros Hrun Hthr Hle p r Hin.
  destruct (Qlt_le_dec lo hi) as [Hlt|Hge].
  - destruct (search_run_separates _ _ _ _ _ _ _ _ _ Hrun Hlt ltac:(discriminate))
      as (P1 & _ & _).
    destruct (P1 p r Hin) as (Hp & Q). split; [lra|exact Q].
  - pose proof (Qhalf (hi + lo)) as Hm.
    inversion Hrun as [hi0 lo0 best0 cap0 r0 hi' lo' best' cap' Hr Hu Hw
                      |hi0 lo0 best0 cap0 r0 hi' lo' best' cap' tr' bf' cf' Hr Hu Hw Hrun'];
      subst; pose proof (probe_update_width _ _ _ _ _ _ _ _ _ _ eq_refl Hu) as HW.
    + apply list_elem_of_singleton in Hin. injection Hin as -> ->.
      split; [lra|].
      destruct Hu as [(Hne & -> & -> & -> & ->)|(He & -> & -> & -> & ->)].
      * split; [intros; contradiction|]. intros _. exists ((hi + lo) / 2).
        split; [reflexivity|apply Qle_refl].
      * split; [intros _ c Hc; discriminate|intros; contradiction].
    + lra.
Qed.

Lemma bs_loop_origin fuel thr probe hi lo best cap bf cf L H :
  bs_loop fuel thr probe hi lo best cap = Ret (bf, cf) ->
  L <= lo -> lo <= hi -> hi <= H ->
  (best <> ∅ -> exists c, cap = Some c /\ L <= c <= H /\ probe c = Ret best) ->
  bf <> ∅ -> exists c, cf = Some c /\ L <= c <= H /\ probe c = Ret bf.
Proof.
  revert hi lo best cap. induction fuel as [|fuel IH]; intros hi lo best cap Hl HL Hle HH Hinv Hne;
    simpl in Hl; [discriminate|].
  pose proof (Qhalf (hi + lo)) as Hm.
  destruct (probe ((hi + lo) / 2)) as [r|e|] eqn:Hr; try discriminate.
  destruct (truthy r) eqn:Ht; cbn iota beta in Hl.
  - apply truthy_true in Ht.
    destruct (Qltb ((hi + lo) / 2 - lo) thr).
    + injection Hl as <- <-. exists ((hi + lo) / 2). split; [reflexivity|]. split; [lra|exact Hr].
    + apply (IH _ _ _ _ Hl); [lra|lra|lra| |exact Hne].
      intros _. exists ((hi + lo) / 2). split; [reflexivity|]. split; [lra|exact Hr].
  - destruct (Qltb (hi - (hi + lo) / 2) thr).
    + injection Hl as <- <-. exact (Hinv Hne).
    + apply (IH _ _ _ _ Hl); [lra|lra|lra|exact Hinv|exact Hne].
Qed.

Lemma area_search_origin init_v2s slot_manager grouping_constraints pre_assignments
    slr_width_limit lo hi max_search_time partitioner bf cf :
  _binary_search_area_limit init_v2s slot_manager grouping_constraints
    pre_assignments slr_width_limit lo hi max_search_time partitioner = Ret (bf, cf) ->
  lo <= hi /\
  (bf <> ∅ -> exists c, cf = Some c /\ lo <= c <= hi /\
     partitioner [init_v2s; grouping_constraints; pre_assignments; slot_manager;
                  PyNum c; slr_width_limit; max_search_time] = Ret bf).
Proof.
  unfold _binary_search_area_limit. destruct (Qle_bool lo hi) eqn:E; [|discriminate].
  apply Qle_bool_iff in E. intros Hl. split; [exact E|]. intros Hne.
  eapply bs_loop_origin; [exact Hl|apply Qle_refl|exact E|apply Qle_refl| |exact Hne].
  intros Hn. exfalso. apply Hn. reflexivity.
Qed.

Lemma slr_search_origin init_v2s slot_manager grouping_constraints pre_assignments
    area_limit lo hi max_search_time partitioner bf cf :
  _binary_search_slr_crossing_limit init_v2s slot_manager grouping_constraints
    pre_assignments area_limit lo hi max_search_time partitioner = Ret (bf, cf) ->
  lo <= hi /\
  (bf <> ∅ -> exists c, cf = Some c /\ lo <= c <= hi /\
     partitioner [init_v2s; grouping_constraints; pre_assignments; slot_manager;
                  area_limit; PyNum c; max_search_time] = Ret bf).
Proof.
  unfold _binary_search_slr_crossing_limit. destruct (Qle_bool lo hi) eqn:E; [|discriminate].
  apply Qle_bool_iff in E. intros Hl. split; [exact E|]. intros Hne.
  eapply bs_loop_origin; [exact Hl|apply Qle_refl|exact E|apply Qle_refl| |exact Hne].
  intros Hn. exfalso. apply Hn. reflexivity.
Qed.

Lemma area_prioritized_origin init_v2s slot_manager grouping_constraints pre_assignments
    min_area max_area min_slr max_slr max_search_time partitioner r :
  partition_area_prioritized init_v2s slot_manager grouping_constraints pre_assignments
    min_area max_area min_slr max_slr max_search_time partitioner = Ret r -> r <> ∅ ->
  exists a s, min_area <= a <= max_area /\ min_slr <= s <= max_slr /\
    partitioner [init_v2s; grouping_constraints; pre_assignments; slot_manager;
                 PyNum a; PyNum s; max_search_time] = Ret r.
Proof.
  unfold partition_area_prioritized.
  destruct (_binary_search_area_limit _ _ _ _ _ _ _ _ _) as [[cv ca]| |] eqn:E1; try discriminate.
  destruct (truthy cv) eqn:Ht; cbn [negb].
  2:{ intros [= <-] Hn. contradiction. }
  apply truthy_true in Ht.
  destruct (area_search_origin _ _ _ _ _ _ _ _ _ _ _ E1) as [Hla Ho].
  destruct (Ho Ht) as (c & -> & Hc & Hp). cbn [py_of_opt].
  destruct (_binary_search_slr_crossing_limit _ _ _ _ _ _ _ _ _) as [[bv bc]| |] eqn:E2;
    try discriminate.
  destruct (slr_search_origin _ _ _ _ _ _ _ _ _ _ _ E2) as [Hls Ho2].
  destruct (truthy bv) eqn:Hb; cbn [negb].
  - apply truthy_true in Hb. intros [= <-] _.
    destruct (Ho2 Hb) as (s & -> & Hs & Hp2). exists c, s. auto.
  - intros [= <-] _. exists c, max_slr. split; [exact Hc|]. split; [split; [exact Hls|apply Qle_refl]|].
    exact Hp.
Qed.

Lemma slr_prioritized_origin init_v2s slot_manager grouping_constraints pre_assignments
    min_area max_area min_slr max_slr max_search_time partitioner r :
  partition_slr_crossing_prioritized init_v2s slot_manager grouping_constraints pre_assignments
    min_area max_area min_slr max_slr max_search_time partitioner = Ret r -> r <> ∅ ->
  exists a s, min_area <= a <= max_area /\ min_slr <= s <= max_slr /\
    partitioner [init_v2s; grouping_constraints; pre_assignments; slot_manager;
                 PyNum a; PyNum s; max_search_time] = Ret r.
Proof.
  unfold partition_slr_crossing_prioritized.
  destruct (_binary_search_slr_crossing_limit _ _ _ _ _ _ _ _ _) as [[cv cs]| |] eqn:E1;
    try discriminate.
  destruct (truthy cv) eqn:Ht; cbn [negb].
  2:{ intros [= <-] Hn. contradiction. }
  apply truthy_true in Ht.
  destruct (slr_search_origin _ _ _ _ _ _ _ _ _ _ _ E1) as [Hls Ho].
  destruct (Ho Ht) as (c & -> & Hc & Hp). cbn [py_of_opt].
  destruct (_binary_search_area_limit _ _ _ _ _ _ _ _ _) as [[bv ba]| |] eqn:E2;
    try discriminate.
  destruct (area_search_origin _ _ _ _ _ _ _ _ _ _ _ E2) as [Hla Ho2].
  destruct (truthy bv) eqn:Hb; cbn [negb].
  - apply truthy_true in Hb. intros [= <-] _.
    destruct (Ho2 Hb) as (a & -> & Ha & Hp2). exists a, c. auto.
  - intros [= <-] _. exists max_area, c. split; [split; [exact Hla|apply Qle_refl]|].
    split; [exact Hc|]. exact Hp.
Qed.



(** Each search is consistent with a monotone partitioner: every probe lies
    in [[min, max]], every probe that failed (empty mapping) lies strictly
    below the limit the search returns, and after any successful probe the
    search returns a limit no larger than that probe. *)
Theorem binary_searches_limit_separates
    (init_v2s slot_manager grouping_constraints pre_assignments : pyval)
    (area_limit slr_width_limit max_search_time : pyval)
    (min_area max_area min_slr max_slr : Q) (partitioner : partitioner_t) :
  (forall args, exists r, partitioner args = Ret r) ->
  min_area <= max_area -> min_slr <= max_slr ->
  (exists tr bf cf,
     _binary_search_area_limit init_v2s slot_manager grouping_constraints
       pre_assignments slr_width_limit min_area max_area max_search_time
       partitioner = Ret (bf, cf) /\
     search_run area_threshold
       (area_probe partitioner init_v2s slot_manager grouping_constraints
          pre_assignments slr_width_limit max_search_time)
       max_area min_area ∅ None tr bf cf /\
     forall p r, (p, r) ∈ tr -> min_area <= p <= max_area /\
       (r = ∅ -> forall c, cf = Some c -> p < c) /\
       (r <> ∅ -> exists c, cf = Some c /\ c <= p)) /\
  (exists tr bf cf,
     _binary_search_slr_crossing_limit init_v2s slot_manager grouping_constraints
       pre_assignments area_limit min_slr max_slr max_search_time
       partitioner = Ret (bf, cf) /\
     search_run slr_threshold
       (slr_probe partitioner init_v2s slot_manager grouping_constraints
          pre_assignments area_limit max_search_time)
       max_slr min_slr ∅ None tr bf cf /\
     forall p r, (p, r) ∈ tr -> min_slr <= p <= max_slr /\
       (r = ∅ -> forall c, cf = Some c -> p < c) /\
       (r <> ∅ -> exists c, cf = Some c /\ c <= p)).
Proof.
  intros Htot Ha Hs. split.
  - destruct (area_search_run init_v2s slot_manager grouping_constraints
                pre_assignments slr_width_limit min_area max_area max_search_time
                partitioner Htot Ha) as (tr & bf & cf & Hl & Hrun).
    exists tr, bf, cf. split; [exact Hl|]. split; [exact Hrun|].
    exact (search_run_separates_top _ _ _ _ _ _ _ Hrun area_threshold_pos Ha).
  - destruct (slr_search_run init_v2s slot_manager grouping_constraints
                pre_assignments area_limit min_slr max_slr max_search_time
                partitioner Htot Hs) as (tr & bf & cf & Hl & Hrun).
    exists tr, bf, cf. split; [exact Hl|]. split; [exact Hrun|].
    exact (search_run_separates_top _ _ _ _ _ _ _ Hrun slr_threshold_pos Hs).
Qed.

Lemma binary_searches_limit_separates_witness :
  (forall args, exists r, s5_inner args = Ret r) /\
  (13 # 20) <= (17 # 20) /\ 10000 <= 15000 /\
  ((exists tr bf cf,
     _binary_search_area_limit (PyDict 0) (PyObj 1) (PyList 2) (PyDict 3)
       (PyNum 15000) (13 # 20) (17 # 20) (PyNum 600) s5_inner = Ret (bf, cf) /\
     search_run area_threshold
       (area_probe s5_inner (PyDict 0) (PyObj 1) (PyList 2) (PyDict 3)
          (PyNum 15000) (PyNum 600))
       (17 # 20) (13 # 20) ∅ None tr bf cf /\
     forall p r, (p, r) ∈ tr -> (13 # 20) <= p <= (17 # 20) /\
       (r = ∅ -> forall c, cf = Some c -> p < c) /\
       (r <> ∅ -> exists c, cf = Some c /\ c <= p)) /\
  (exists tr bf cf,
     _binary_search_slr_crossing_limit (PyDict 0) (PyObj 1) (PyList 2) (PyDict 3)
       (PyNum (17 # 20)) 10000 15000 (PyNum 600) s5_inner = Ret (bf, cf) /\
     search_run slr_threshold
       (slr_probe s5_inner (PyDict 0) (PyObj 1) (PyList 2) (PyDict 3)
          (PyNum (17 # 20)) (PyNum 600))
       15000 10000 ∅ None tr bf cf /\
     forall p r, (p, r) ∈ tr -> 10000 <= p <= 15000 /\
       (r = ∅ -> forall c, cf = Some c -> p < c) /\
       (r <> ∅ -> exists c, cf = Some c /\ c <= p))).
Proof.
  assert (Htot : forall args, exists r, s5_inner args = Ret r).
  { intros args. unfold s5_inner.
    destruct (nth_error args 4) as [[| | | q |]|]; try (eexists; reflexivity).
    destruct (Qle_bool (76 # 100) q); eexists; reflexivity. }
  split; [exact Htot|]. split; [lra|]. split; [lra|].
  apply (binary_searches_limit_separates (PyDict 0) (PyObj 1) (PyList 2) (PyDict 3)
           (PyNum (17 # 20)) (PyNum 15000) (PyNum 600) (13 # 20) (17 # 20) 10000 15000
           s5_inner Htot); lra.
Defined.

(** ** [partition] *)

(** [partition] raises [NotImplementedError] for a [partition_method] other
    than ['EIGHT_WAY_PARTITION'] and ['FOUR_WAY_PARTITION'], and for a
    [floorplan_opt_priority] other than ['AREA_PRIORITIZED'] and
    ['SLR_CROSSING_PRIORITIZED'], whatever the partitioners would do: both
    checks come before any partitioner call. *)
Theorem partition_rejects_unknown_options (eight_way_partition four_way_partition : partitioner_t)
    (init_v2s slot_manager grouping_constraints pre_assignments : pyval)
    (min_area max_area min_slr max_slr : Q) (max_search_time : pyval)
    (partition_method floorplan_opt_priority : string) :
  (partition_method <> "EIGHT_WAY_PARTITION"%string /\
   partition_method <> "FOUR_WAY_PARTITION"%string) \/
  (floorplan_opt_priority <> "AREA_PRIORITIZED"%string /\
   floorplan_opt_priority <> "SLR_CROSSING_PRIORITIZED"%string) ->
  partition eight_way_partition four_way_partition init_v2s slot_manager
    grouping_constraints pre_assignments min_area max_area min_slr max_slr
    max_search_time partition_method floorplan_opt_priority = Raise NotImplementedError.
Proof.
  unfold partition. intros [[H1 H2]|[H1 H2]].
  - rewrite (proj2 (String.eqb_neq _ _) H1), (proj2 (String.eqb_neq _ _) H2). reflexivity.
  - rewrite (proj2 (String.eqb_neq _ _) H1), (proj2 (String.eqb_neq _ _) H2).
    destruct (String.eqb partition_method _); [reflexivity|].
    destruct (String.eqb partition_method _); reflexivity.
Qed.

Lemma partition_rejects_unknown_options_witness :
  (("FOUR_WAY_PARTITION"%string <> "EIGHT_WAY_PARTITION"%string /\
    "FOUR_WAY_PARTITION"%string <> "FOUR_WAY_PARTITION"%string) \/
   ("WIRELENGTH_PRIORITIZED"%string <> "AREA_PRIORITIZED"%string /\
    "WIRELENGTH_PRIORITIZED"%string <> "SLR_CROSSING_PRIORITIZED"%string)) /\
  partition (fun _ => Raise TypeError) s5_inner (PyDict 0) (PyObj 1) (PyList 2) (PyDict 3)
    (13 # 20) (17 # 20) 10000 15000 (PyNum 600)
    "FOUR_WAY_PARTITION" "WIRELENGTH_PRIORITIZED" = Raise NotImplementedError.
Proof.
  assert (H : ("FOUR_WAY_PARTITION"%string <> "EIGHT_WAY_PARTITION"%string /\
               "FOUR_WAY_PARTITION"%string <> "FOUR_WAY_PARTITION"%string) \/
              ("WIRELENGTH_PRIORITIZED"%string <> "AREA_PRIORITIZED"%string /\
               "WIRELENGTH_PRIORITIZED"%string <> "SLR_CROSSING_PRIORITIZED"%string))
    by (right; split; discriminate).
  split; [exact H|]. exact (partition_rejects_unknown_options _ _ _ _ _ _ _ _ _ _ _ _ _ H).
Defined.

(** A non-empty mapping returned by [partition] is a value that the
    partitioner selected by [partition_method] returned when called, in the
    order [(init_v2s, grouping_constraints, pre_assignments, slot_manager,
    area_limit, slr_width_limit, max_search_time)], with an area limit in
    [[min_area_limit, max_area_limit]] and a width limit in
    [[min_slr_width_limit, max_slr_width_limit]]. *)
Theorem partition_result_origin (eight_way_partition four_way_partition : partitioner_t)
    (init_v2s slot_manager grouping_constraints pre_assignments : pyval)
    (min_area max_area min_slr max_slr : Q) (max_search_time : pyval)
    (partition_method floorplan_opt_priority : string) (r : v2s_t) :
  partition eight_way_partition four_way_partition init_v2s slot_manager
    grouping_constraints pre_assignments min_area max_area min_slr max_slr
    max_search_time partition_method floorplan_opt_priority = Ret r ->
  r <> ∅ ->
  exists partitioner a s,
    ((partition_method = "EIGHT_WAY_PARTITION"%string /\ partitioner = eight_way_partition) \/
     (partition_method = "FOUR_WAY_PARTITION"%string /\ partitioner = four_way_partition)) /\
    min_area <= a <= max_area /\ min_slr <= s <= max_slr /\
    partitioner [init_v2s; grouping_constraints; pre_assignments; slot_manager;
                 PyNum a; PyNum s; max_search_time] = Ret r.
Proof.
  unfold partition. intros H Hne.
  assert (Hw : forall partitioner,
    match (if String.eqb floorplan_opt_priority "AREA_PRIORITIZED"
           then Some partition_area_prioritized
           else if String.eqb floorplan_opt_priority "SLR_CROSSING_PRIORITIZED"
           then Some partition_slr_crossing_prioritized else None) with
    | Some worker => worker init_v2s slot_manager grouping_constraints pre_assignments
                       min_area max_area min_slr max_slr max_search_time partitioner
    | None => Raise NotImplementedError
    end = Ret r ->
    exists a s, min_area <= a <= max_area /\ min_slr <= s <= max_slr /\
      partitioner [init_v2s; grouping_constraints; pre_assignments; slot_manager;
                   PyNum a; PyNum s; max_search_time] = Ret r).
  { intros partitioner Hp.
    destruct (String.eqb floorplan_opt_priority _);
      [exact (area_prioritized_origin _ _ _ _ _ _ _ _ _ _ _ Hp Hne)|].
    destruct (String.eqb floorplan_opt_priority _);
      [exact (slr_prioritized_origin _ _ _ _ _ _ _ _ _ _ _ Hp Hne)|discriminate]. }
  destruct (String.eqb partition_method "EIGHT_WAY_PARTITION") eqn:E1.
  - apply String.eqb_eq in E1. destruct (Hw _ H) as (a & s & Ha & Hs & Hp).
    exists eight_way_partition, a, s. auto.
  - destruct (String.eqb partition_method "FOUR_WAY_PARTITION") eqn:E2; [|discriminate].
    apply String.eqb_eq in E2. destruct (Hw _ H) as (a & s & Ha & Hs & Hp).
    exists four_way_partition, a, s. auto.
Qed.

Lemma partition_result_origin_witness :
  partition (fun _ => Raise TypeError) s5_inner (PyDict 0) (PyObj 1) (PyList 2) (PyDict 3)
    (13 # 20) (17 # 20) 10000 15000 (PyNum 600)
    "FOUR_WAY_PARTITION" "AREA_PRIORITIZED" = Ret {[1%nat := 0%nat]} /\
  ({[1%nat := 0%nat]} : v2s_t) <> ∅ /\
  exists partitioner a s,
    (("FOUR_WAY_PARTITION"%string = "EIGHT_WAY_PARTITION"%string /\
      partitioner = (fun _ => Raise TypeError)) \/
     ("FOUR_WAY_PARTITION"%string = "FOUR_WAY_PARTITION"%string /\ partitioner = s5_inner)) /\
    (13 # 20) <= a <= (17 # 20) /\ 10000 <= s <= 15000 /\
    partitioner [PyDict 0; PyList 2; PyDict 3; PyObj 1; PyNum a; PyNum s; PyNum 600]
      = Ret {[1%nat := 0%nat]}.
Proof.
  assert (E : partition (fun _ => Raise TypeError) s5_inner (PyDict 0) (PyObj 1) (PyList 2)
    (PyDict 3) (13 # 20) (17 # 20) 10000 15000 (PyNum 600)
    "FOUR_WAY_PARTITION" "AREA_PRIORITIZED" = Ret {[1%nat := 0%nat]})
    by (vm_compute; reflexivity).
  assert (Hne : ({[1%nat := 0%nat]} : v2s_t) <> ∅) by apply map_non_empty_singleton.
  split; [exact E|]. split; [exact Hne|].
  exact (partition_result_origin _ _ _ _ _ _ _ _ _ _ _ _ _ _ E Hne).
Defined.

(** ** The four-way retry loop with a small step *)






(** ** [Graph.dfs] *)

Lemma apply_all_app {A} (func : nat -> A -> outcome A) l1 l2 s :
  apply_all func (l1 ++ l2) s =
  match apply_all func l1 s with
  | Ret s1 => apply_all func l2 s1
  | Raise e => Raise e
  | OutOfFuel => OutOfFuel
  end.
Proof.
  revert s. induction l1 as [|n l1 IH]; intros s; [reflexivity|].
  simpl. destruct (func n s); [apply IH|reflexivity|reflexivity].
Qed.

Lemma dfs_children_spec {A} (children : nat -> list nat) (func : nat -> A -> outcome A)
    (rec : nat -> gset nat -> A -> outcome (gset nat * A)) cs visited s visited' s' :
  (forall c, c ∈ cs -> forall v0 s0 v1 s1, rec c v0 s0 = Ret (v1, s1) ->
     exists order, NoDup order /\ (forall x, x ∈ order -> x ∉ v0) /\
       (forall x, x ∈ v1 <-> x ∈ v0 \/ x ∈ order) /\ apply_all func order s0 = Ret s1 /\
       (forall x, x ∈ order -> rtc (fun a b => b ∈ children a) c x)) ->
  dfs_children rec cs visited s = Ret (visited', s') ->
  exists order, NoDup order /\ (forall x, x ∈ order -> x ∉ visited) /\
    (forall x, x ∈ visited' <-> x ∈ visited \/ x ∈ order) /\
    apply_all func order s = Ret s' /\
    (forall x, x ∈ order -> exists c, c ∈ cs /\ rtc (fun a b => b ∈ children a) c x).
Proof.
  revert visited s. induction cs as [|c cs IH]; intros visited s Hrec H; simpl in H.
  - injection H as <- <-. exists []. split; [constructor|].
    split; [intros x Hx; apply elem_of_nil in Hx; contradiction|].
    split; [intros x; rewrite elem_of_nil; tauto|].
    split; [reflexivity|]. intros x Hx. apply elem_of_nil in Hx. contradiction.
  - destruct (rec c visited s) as [[v1 s1]| |] eqn:Ec; try discriminate.
    destruct (Hrec c (proj2 (elem_of_cons cs c c) (or_introl eq_refl)) _ _ _ _ Ec)
      as (o1 & N1 & D1 & V1 & A1 & R1).
    destruct (IH v1 s1 (fun c' Hc' => Hrec c' (proj2 (elem_of_cons cs c' c) (or_intror Hc'))) H)
      as (o2 & N2 & D2 & V2 & A2 & R2).
    exists (o1 ++ o2). split; [|split; [|split; [|split]]].
    + apply NoDup_app. split; [exact N1|]. split; [|exact N2].
      intros x Hx1 Hx2. apply (D2 x Hx2). apply V1. right. exact Hx1.
    + intros x Hx. apply elem_of_app in Hx as [Hx|Hx]; [exact (D1 x Hx)|].
      intros Hv. apply (D2 x Hx). apply V1. left. exact Hv.
    + intros x. rewrite V2, V1, elem_of_app. tauto.
    + rewrite apply_all_app, A1. exact A2.
    + intros x Hx. apply elem_of_app in Hx as [Hx|Hx].
      * exists c. split; [apply elem_of_cons; left; reflexivity|exact (R1 x Hx)].
      * destruct (R2 x Hx) as (c' & Hc' & Hr). exists c'.
        split; [apply elem_of_cons; right; exact Hc'|exact Hr].
Qed.

Lemma dfs_spec {A} (children : nat -> list nat) (func : nat -> A -> outcome A) fuel :
  forall node visited s visited' s',
  dfs children func fuel node visited s = Ret (visited', s') ->
  exists order, NoDup order /\ (forall x, x ∈ order -> x ∉ visited) /\
    (forall x, x ∈ visited' <-> x ∈ visited \/ x ∈ order) /\
    apply_all func order s = Ret s' /\
    (forall x, x ∈ order -> rtc (fun a b => b ∈ children a) node x) /\
    (node ∉ visited -> head order = Some node).
Proof.
  induction fuel as [|fuel IH]; intros node visited s visited' s' H; simpl in H; [discriminate|].
  destruct (decide (node ∈ visited)) as [Hin|Hin].
  - injection H as <- <-. exists []. split; [constructor|].
    split; [intros x Hx; apply elem_of_nil in Hx; contradiction|].
    split; [intros x; rewrite elem_of_nil; tauto|].
    split; [reflexivity|]. split; [intros x Hx; apply elem_of_nil in Hx; contradiction|].
    intros Hn. contradiction.
  - destruct (func node s) as [s1| |] eqn:Ef; try discriminate.
    destruct (dfs_children_spec children func (dfs children func fuel) _ _ _ _ _
                (fun c _ v0 s0 v1 s2 Hc => match IH c v0 s0 v1 s2 Hc with
                   | ex_intro _ o (conj N (conj D (conj V (conj Ap (conj R _))))) =>
                       ex_intro _ o (conj N (conj D (conj V (conj Ap R)))) end) H)
      as (o & N & D & V & Ap & R).
    exists (node :: o). split; [|split; [|split; [|split; [|split]]]].
    + constructor; [|exact N]. intros Ho. apply (D node Ho). set_solver.
    + intros x Hx. apply elem_of_cons in Hx as [->|Hx]; [exact Hin|].
      intros Hv. apply (D x Hx). set_solver.
    + intros x. rewrite V, elem_of_union, elem_of_singleton, elem_of_cons. tauto.
    + simpl. rewrite Ef. exact Ap.
    + intros x Hx. apply elem_of_cons in Hx as [->|Hx]; [apply rtc_refl|].
      destruct (R x Hx) as (c & Hc & Hr). eapply rtc_l; [exact Hc|exact Hr].
    + intros _. reflexivity.
Qed.



(** [Graph.dfs] applies [func] exactly once to each node it visits for the
    first time and to no other node: the nodes it is applied to, in order,
    are distinct, were not in [visited] before the call, are reachable from
    [node] through [children()], and are exactly the nodes added to
    [visited]; [node] itself comes first unless it was already visited. *)
Theorem dfs_calls_func_once {A : Type} (children : nat -> list nat)
    (func : nat -> A -> outcome A) (fuel node : nat) (visited : gset nat) (s : A)
    (visited' : gset nat) (s' : A) :
  dfs children func fuel node visited s = Ret (visited', s') ->
  exists order, NoDup order /\
    (forall x, x ∈ order -> (x ∉ visited) /\ rtc (fun a b => b ∈ children a) node x) /\
    (forall x, x ∈ visited' <-> x ∈ visited \/ x ∈ order) /\
    apply_all func order s = Ret s' /\
    (node ∉ visited -> head order = Some node).
Proof.
  intros H. destruct (dfs_spec children func fuel _ _ _ _ _ H) as (o & N & D & V & Ap & R & Hd).
  exists o. split; [exact N|]. split; [intros x Hx; split; [exact (D x Hx)|exact (R x Hx)]|].
  split; [exact V|]. split; [exact Ap|exact Hd].
Qed.

Lemma dfs_calls_func_once_witness :
  exists visited' s',
    dfs demo_children demo_record 10 0 ∅ [] = Ret (visited', s') /\
    s' = [0%nat; 1%nat; 3%nat; 2%nat] /\
    exists order, NoDup order /\
      (forall x, x ∈ order -> (x ∉ (∅ : gset nat)) /\
                 rtc (fun a b => b ∈ demo_children a) 0%nat x) /\
      (forall x, x ∈ visited' <-> x ∈ (∅ : gset nat) \/ x ∈ order) /\
      apply_all demo_record order [] = Ret s' /\
      (0%nat ∉ (∅ : gset nat) -> head order = Some 0%nat).
Proof.
  assert (E : dfs demo_children demo_record 10 0 ∅ [] = demo_dfs_run) by (vm_compute; reflexivity).
  unfold demo_dfs_run in E.
  eexists _, _. split; [exact E|]. split; [reflexivity|].
  exact (dfs_calls_func_once demo_children demo_record 10 0 ∅ [] _ _ E).
Defined.

(** ** [_four_way_partition]: the stages of a run *)

Lemma mbind_ret {A B} (c : M A) (k : A -> M B) m m1 a :
  c m = Ret (m1, a) -> mbind c k m = k a m1.
Proof. intros H. unfold mbind. rewrite H. reflexivity. Qed.

Lemma mbind_raise {A B} (c : M A) (k : A -> M B) m e :
  c m = Raise e -> mbind c k m = Raise e.
Proof. intros H. unfold mbind. rewrite H. reflexivity. Qed.

Lemma alloc_y_vars_ok vs y1 y2 m : exists m' ys, alloc_y_vars vs y1 y2 m = Ret (m', ys).
Proof.
  revert y1 y2 m. induction vs as [|v vs IH]; intros y1 y2 m; simpl.
  - eexists _, _. reflexivity.
  - unfold mbind, add_var. simpl. apply IH.
Qed.

Lemma alloc_y_vars_inv vs y1 y2 m m' y1' y2' :
  alloc_y_vars vs y1 y2 m = Ret (m', (y1', y2')) ->
  ext m m' /\
  forall v, (v ∈ vs -> exists a b, y1' !! v = Some a /\ y2' !! v = Some b /\
                        m_vars m' !! a = Some BINARY /\ m_vars m' !! b = Some BINARY) /\
            (v ∉ vs -> y1' !! v = y1 !! v /\ y2' !! v = y2 !! v).
Proof.
  revert y1 y2 m. induction vs as [|v0 vs IH]; intros y1 y2 m H; simpl in H.
  - injection H as <- <- <-. split; [apply ext_refl|]. intros v. split; [|auto].
    intros Hv. apply elem_of_nil in Hv. contradiction.
  - apply mbind_inv in H as (ma & a & Ea & H). apply add_var_inv in Ea as [Xa Ha].
    apply mbind_inv in H as (mb & b & Eb & H). apply add_var_inv in Eb as [Xb Hb].
    destruct (IH _ _ _ H) as [X Hv]. split; [exact (ext_trans _ _ _ Xa (ext_trans _ _ _ Xb X))|].
    intros v. split.
    + intros Hin. destruct (decide (v ∈ vs)) as [Hvs|Hvs]; [exact (proj1 (Hv v) Hvs)|].
      apply elem_of_cons in Hin as [->|Hin]; [|contradiction].
      destruct (proj2 (Hv v0) Hvs) as [E1 E2].
      exists a, b. rewrite E1, E2, !lookup_insert_eq.
      split; [reflexivity|]. split; [reflexivity|].
      split; [exact (ext_var _ _ _ _ X (ext_var _ _ _ _ Xb Ha))|exact (ext_var _ _ _ _ X Hb)].
    + intros Hn. rewrite elem_of_cons in Hn.
      destruct (proj2 (Hv v)) as [E1 E2]; [tauto|].
      rewrite E1, E2, !lookup_insert_ne by (intros ->; tauto). auto.
Qed.

Lemma four_way_stages W init_v2s grouping_constraints pre_assignments all_leaf_slots
    max_usage_ratio t w01 w12 w23 r :
  _four_way_partition W init_v2s grouping_constraints pre_assignments all_leaf_slots
    max_usage_ratio t w01 w12 w23 = Ret r ->
  exists m1 y1v y2v sti m2 blocks m3 m4 m5 m6 m7 m8 status x,
    alloc_y_vars (map fst (map_to_list init_v2s)) ∅ ∅ empty_model = Ret (m1, (y1v, y2v)) /\
    _get_slot_to_idx (func_get_slot_by_idx all_leaf_slots) = Ret sti /\
    _add_area_constraints W (map fst (map_to_list init_v2s)) y1v y2v
      (func_get_slot_by_idx all_leaf_slots) max_usage_ratio m1 = Ret (m2, blocks) /\
    _add_slr_0_1_crossing_constraint W (map fst (map_to_list init_v2s)) y1v y2v w01 m2
      = Ret (m3, tt) /\
    _add_slr_1_2_crossing_constraint W (map fst (map_to_list init_v2s)) y1v w12 m3
      = Ret (m4, tt) /\
    _add_slr_2_3_crossing_constraint W (map fst (map_to_list init_v2s)) y1v y2v w23 m4
      = Ret (m5, tt) /\
    _add_pre_assignment W (map fst (map_to_list init_v2s)) sti pre_assignments y1v y2v m5
      = Ret (m6, tt) /\
    _add_grouping_constraints grouping_constraints y1v y2v m6 = Ret (m7, tt) /\
    _add_opt_goal W (map fst (map_to_list init_v2s)) y1v y2v m7 = Ret (m8, tt) /\
    optimize W m8 t = (status, x) /\
    _get_results status x (map fst (map_to_list init_v2s))
      (func_get_slot_by_idx all_leaf_slots) y1v y2v = Ret r.
Proof.
  unfold _four_way_partition. intros H.
  match type of H with
  | match ?b with _ => _ end = _ => destruct b as [[m' r']| |] eqn:E; try discriminate
  end.
  injection H as <-.
  apply mbind_inv in E as (m1 & [y1v y2v] & E1 & E). cbn [fst snd] in E.
  apply mbind_inv in E as (m1' & sti & E2 & E). apply lift_inv in E2 as [Em E2]. subst m1'.
  apply mbind_inv in E as (m2 & blocks & E3 & E).
  apply mbind_inv in E as (m3 & [] & E4 & E).
  apply mbind_inv in E as (m4 & [] & E5 & E).
  apply mbind_inv in E as (m5 & [] & E6 & E).
  apply mbind_inv in E as (m6 & [] & E7 & E).
  apply mbind_inv in E as (m7 & [] & E8 & E).
  apply mbind_inv in E as (m8 & [] & E9 & E).
  destruct (optimize W m8 t) as [status x] eqn:Eo.
  destruct (_get_results _ _ _ _ _ _) as [r0| |] eqn:Eg; try discriminate.
  injection E as <- <-.
  exists m1, y1v, y2v, sti, m2, blocks, m3, m4, m5, m6, m7, m8, status, x.
  repeat split; assumption.
Qed.

(** *** Result extraction, entry by entry *)

Lemma extract_results_lookup x f y1 y2 (l : list nat) (acc r : v2s_t) v s :
  extract_results x f y1 y2 l acc = Ret r -> r !! v = Some s ->
  (exists a b, y1 !! v = Some a /\ y2 !! v = Some b /\ f (py_int (x a)) (py_int (x b)) = Ret s) \/
  acc !! v = Some s.
Proof.
  revert acc. induction l as [|v0 l IH]; intros acc H Hv; simpl in H.
  - injection H as <-. right. exact Hv.
  - destruct (y1 !! v0) as [a|] eqn:Ha, (y2 !! v0) as [b|] eqn:Hb; try discriminate.
    destruct (f (py_int (x a)) (py_int (x b))) as [s0| |] eqn:Ef; try discriminate.
    destruct (IH _ H Hv) as [Hl|Hl]; [left; exact Hl|].
    apply lookup_insert_Some in Hl as [[<- <-]|[_ Hl]]; [left; exists a, b; auto|right; exact Hl].
Qed.

Lemma get_results_lookup status x v_list f y1 y2 r v s :
  _get_results status x v_list f y1 y2 = Ret r -> r !! v = Some s ->
  (status = OPTIMAL \/ status = FEASIBLE) /\
  exists a b, y1 !! v = Some a /\ y2 !! v = Some b /\ f (py_int (x a)) (py_int (x b)) = Ret s.
Proof.
  intros H Hv. destruct status; simpl in H;
    try (injection H as <-; rewrite lookup_empty in Hv; discriminate);
    (split; [auto|]);
    (destruct (extract_results_lookup _ _ _ _ _ _ _ _ _ H Hv) as [Hl|Hl];
     [exact Hl|rewrite lookup_empty in Hl; discriminate]).
Qed.

Lemma get_results_status status x v_list f y1 y2 r :
  _get_results status x v_list f y1 y2 = Ret r -> r <> ∅ ->
  (status = OPTIMAL \/ status = FEASIBLE) /\ extract_results x f y1 y2 v_list ∅ = Ret r.
Proof.
  destruct status; simpl; intros H Hn;
    try (injection H as <-; congruence); auto.
Qed.

Lemma py_int_comp (q q' : Q) : q == q' -> py_int q = py_int q'.
Proof.
  intros H. unfold py_int.
  assert (Hb : Qle_bool 0 q = Qle_bool 0 q').
  { destruct (Qle_bool 0 q) eqn:E1, (Qle_bool 0 q') eqn:E2; try reflexivity.
    - apply Qle_bool_iff in E1. rewrite H in E1. apply Qle_bool_iff in E1. congruence.
    - apply Qle_bool_iff in E2. rewrite <- H in E2. apply Qle_bool_iff in E2. congruence. }
  assert (H' : - q == - q') by (rewrite H; reflexivity).
  rewrite Hb, (Qfloor_comp _ _ H), (Qfloor_comp _ _ H'). reflexivity.
Qed.

Lemma py_int_inject (z : Z) : py_int (inject_Z z) = z.
Proof.
  unfold py_int. destruct (Qle_bool 0 (inject_Z z)).
  - apply Qfloor_Z.
  - rewrite <- inject_Z_opp, Qfloor_Z. lia.
Qed.

Lemma binary_py_int_eq (q : Q) :
  q == 0 \/ q == 1 -> q == inject_Z (py_int q) /\ (py_int q = 0 \/ py_int q = 1)%Z.
Proof.
  intros [H|H].
  - rewrite (py_int_0 _ H). split; [exact H|auto].
  - rewrite (py_int_1 _ H). split; [exact H|auto].
Qed.

Lemma sat_ceq σ a b : sat σ (ceq a b) <-> eval_lin σ a == eval_lin σ b.
Proof. unfold sat, ceq. simpl. rewrite eval_lsub. split; intros; lra. Qed.

(** *** Grouping and pre-assignment constraints *)

Lemma grouping_inv g y1 y2 m m' u :
  _add_grouping_constraints g y1 y2 m = Ret (m', u) ->
  ext m m' /\
  forall g0 rest gi, (g0 :: rest) ∈ g -> gi ∈ rest ->
    exists a0 ai b0 bi, y1 !! g0 = Some a0 /\ y1 !! gi = Some ai /\
      y2 !! g0 = Some b0 /\ y2 !! gi = Some bi /\
      ceq (lvar a0) (lvar ai) ∈ m_constrs m' /\ ceq (lvar b0) (lvar bi) ∈ m_constrs m'.
Proof.
  unfold _add_grouping_constraints. intros H.
  apply (mfor_inv _ _ (fun grp m => forall g0 rest gi, grp = g0 :: rest -> gi ∈ rest ->
    exists a0 ai b0 bi, y1 !! g0 = Some a0 /\ y1 !! gi = Some ai /\
      y2 !! g0 = Some b0 /\ y2 !! gi = Some bi /\
      ceq (lvar a0) (lvar ai) ∈ m_constrs m /\ ceq (lvar b0) (lvar bi) ∈ m_constrs m)) in H
    as [He Hg].
  - split; [exact He|]. intros g0 rest gi Hin Hgi. exact (Hg _ Hin g0 rest gi eq_refl Hgi).
  - intros grp mm mm' _ Hb. destruct grp as [|h rest].
    + simpl in Hb. cbv [mret] in Hb. injection Hb as <-. split; [apply ext_refl|].
      intros g0 rest gi E. discriminate.
    + simpl in Hb.
      apply (mfor_inv _ _ (fun gi m => exists a0 ai b0 bi, y1 !! h = Some a0 /\
        y1 !! gi = Some ai /\ y2 !! h = Some b0 /\ y2 !! gi = Some bi /\
        ceq (lvar a0) (lvar ai) ∈ m_constrs m /\ ceq (lvar b0) (lvar bi) ∈ m_constrs m)) in Hb
        as [He Hr].
      * split; [exact He|]. intros g0 rest' gi E Hgi. injection E as <- <-. exact (Hr gi Hgi).
      * intros gi m1 m2 _ Hc. simpl in Hc.
        apply mbind_inv in Hc as (ma & [] & Ea & Hc).
        apply mbind_inv in Ea as (mb & a0 & Eb & Ea). apply dict_get_inv in Eb as [-> Ha0].
        apply mbind_inv in Ea as (mc & ai & Ec & Ea). apply dict_get_inv in Ec as [-> Hai].
        apply add_constr_inv in Ea as [Ex1 C1].
        apply mbind_inv in Hc as (md & [] & Ed & Hc).
        apply mbind_inv in Ed as (me & b0 & Ee & Ed). apply dict_get_inv in Ee as [-> Hb0].
        apply mbind_inv in Ed as (mf & bi & Ef & Ed). apply dict_get_inv in Ef as [-> Hbi].
        apply add_constr_inv in Ed as [Ex2 C2].
        cbv [mret] in Hc. injection Hc as <-.
        split; [exact (ext_trans _ _ _ Ex1 Ex2)|].
        exists a0, ai, b0, bi. repeat split; auto. exact (ext_constr _ _ _ Ex2 C1).
      * intros gi m1 m2 (a0 & ai & b0 & bi & H1 & H2 & H3 & H4 & C1 & C2) Hx.
        exists a0, ai, b0, bi. repeat split; eauto using ext_constr.
  - intros grp m1 m2 Hp Hx g0 rest gi E Hgi.
    destruct (Hp g0 rest gi E Hgi) as (a0 & ai & b0 & bi & H1 & H2 & H3 & H4 & C1 & C2).
    exists a0, ai, b0, bi. repeat split; eauto using ext_constr.
Qed.

Lemma pre_inv W v_list sti pre y1 y2 m m' u :
  _add_pre_assignment W v_list sti pre y1 y2 m = Ret (m', u) ->
  ext m m' /\
  forall v e avail yy1 yy2, pre !! v = Some e -> avail ∈ map fst sti ->
    containsChildSlot W avail e = true -> assoc_get sti avail = Some (yy1, yy2) ->
    exists x1 x2, y1 !! v = Some x1 /\ y2 !! v = Some x2 /\
      ceq (lvar x1) (lconst (inject_Z yy1)) ∈ m_constrs m' /\
      ceq (lvar x2) (lconst (inject_Z yy2)) ∈ m_constrs m'.
Proof.
  unfold _add_pre_assignment. intros H.
  apply (mfor_inv _ _ (fun ve m => forall avail yy1 yy2, avail ∈ map fst sti ->
      containsChildSlot W avail ve.2 = true -> assoc_get sti avail = Some (yy1, yy2) ->
      exists x1 x2, y1 !! ve.1 = Some x1 /\ y2 !! ve.1 = Some x2 /\
        ceq (lvar x1) (lconst (inject_Z yy1)) ∈ m_constrs m /\
        ceq (lvar x2) (lconst (inject_Z yy2)) ∈ m_constrs m)) in H as [He Hp].
  - split; [exact He|]. intros v e avail yy1 yy2 Hv Ha Hc Hs.
    apply elem_of_map_to_list in Hv. exact (Hp (v, e) Hv avail yy1 yy2 Ha Hc Hs).
  - intros [v e] mm mm' _ Hb. cbv beta iota in Hb.
    destruct (bool_decide (v ∈ v_list)); [|discriminate].
    apply (mfor_inv _ _ (fun avail m => forall yy1 yy2,
        containsChildSlot W avail e = true -> assoc_get sti avail = Some (yy1, yy2) ->
        exists x1 x2, y1 !! v = Some x1 /\ y2 !! v = Some x2 /\
          ceq (lvar x1) (lconst (inject_Z yy1)) ∈ m_constrs m /\
          ceq (lvar x2) (lconst (inject_Z yy2)) ∈ m_constrs m)) in Hb as [He Hq].
    + split; [exact He|]. intros avail yy1 yy2 Ha Hc Hs. exact (Hq avail Ha yy1 yy2 Hc Hs).
    + intros avail m1 m2 _ Hc. cbv beta in Hc. destruct (containsChildSlot W avail e) eqn:Ec.
      * destruct (assoc_get sti avail) as [[z1 z2]|] eqn:Es; [|discriminate].
        apply mbind_inv in Hc as (ma & x1 & Ea & Hc). apply dict_get_inv in Ea as [-> H1].
        apply mbind_inv in Hc as (mb & [] & Eb & Hc). apply add_constr_inv in Eb as [X1 C1].
        apply mbind_inv in Hc as (mc & x2 & Ec' & Hc). apply dict_get_inv in Ec' as [-> H2].
        apply add_constr_inv in Hc as [X2 C2].
        split; [exact (ext_trans _ _ _ X1 X2)|].
        intros yy1 yy2 _ Hs. injection Hs as <- <-.
        exists x1, x2. repeat split; eauto using ext_constr.
      * cbv [mret] in Hc. injection Hc as <-. split; [apply ext_refl|].
        intros yy1 yy2 Hf. discriminate.
    + intros avail m1 m2 Hq Hx yy1 yy2 Hc Hs.
      destruct (Hq yy1 yy2 Hc Hs) as (x1 & x2 & H1 & H2 & C1 & C2).
      exists x1, x2. repeat split; eauto using ext_constr.
  - intros ve m1 m2 Hp Hx avail yy1 yy2 Ha Hc Hs.
    destruct (Hp avail yy1 yy2 Ha Hc Hs) as (x1 & x2 & H1 & H2 & C1 & C2).
    exists x1, x2. repeat split; eauto using ext_constr.
Qed.

(** *** [_get_slot_to_idx] *)

Lemma assoc_get_set {V} (d : list (nat * V)) k v k' :
  assoc_get (assoc_set d k v) k' = if Nat.eqb k' k then Some v else assoc_get d k'.
Proof.
  induction d as [|[k0 v0] d IH]; simpl; [reflexivity|].
  destruct (Nat.eqb_spec k k0) as [->|Hne]; simpl.
  - destruct (Nat.eqb k' k0); reflexivity.
  - rewrite IH. destruct (Nat.eqb_spec k' k0), (Nat.eqb_spec k' k); congruence.
Qed.

Lemma assoc_get_key {V} (d : list (nat * V)) k : k ∈ map fst d <-> is_Some (assoc_get d k).
Proof.
  induction d as [|[k0 v0] d IH]; simpl.
  - split; [intros H; apply elem_of_nil in H; contradiction|intros [? H]; discriminate].
  - rewrite elem_of_cons, IH. destruct (Nat.eqb_spec k k0) as [->|Hne].
    + split; [intros _; eexists; reflexivity|intros _; left; reflexivity].
    + split; [intros [->|H]; [exfalso; exact (Hne eq_refl)|exact H]|intros H; right; exact H].
Qed.

Lemma assoc_set_key {V} (d : list (nat * V)) k v k' :
  k' ∈ map fst (assoc_set d k v) <-> k' = k \/ k' ∈ map fst d.
Proof.
  rewrite !assoc_get_key, assoc_get_set. destruct (Nat.eqb_spec k' k) as [->|Hne].
  - split; [auto|intros _; eexists; reflexivity].
  - split; [auto|intros [E|H]; [contradiction|exact H]].
Qed.

Lemma slot_to_idx_loop_inv f ys d d' :
  _get_slot_to_idx_loop f ys d = Ret d' ->
  (forall k, k ∈ map fst d' <->
     k ∈ map fst d \/ exists y1 y2, (y1, y2) ∈ ys /\ f y1 y2 = Ret k) /\
  (forall k y1 y2, assoc_get d' k = Some (y1, y2) ->
     assoc_get d k = Some (y1, y2) \/ ((y1, y2) ∈ ys /\ f y1 y2 = Ret k)).
Proof.
  revert d. induction ys as [|[a b] ys IH]; intros d H; simpl in H.
  - injection H as <-. split; [|auto]. intros k. split; [auto|].
    intros [H|(y1 & y2 & H & _)]; [exact H|apply elem_of_nil in H; contradiction].
  - destruct (f a b) as [s| |] eqn:Ef; try discriminate.
    destruct (IH _ H) as [Hk Hg]. split.
    + intros k. rewrite Hk, assoc_set_key. split.
      * intros [[->|H0]|(y1 & y2 & Hy & Hf)].
        -- right. exists a, b. split; [apply elem_of_cons; left; reflexivity|exact Ef].
        -- left. exact H0.
        -- right. exists y1, y2. split; [apply elem_of_cons; right; exact Hy|exact Hf].
      * intros [H0|(y1 & y2 & Hy & Hf)]; [left; right; exact H0|].
        apply elem_of_cons in Hy as [Hy|Hy].
        -- injection Hy as -> ->. left. left. congruence.
        -- right. exists y1, y2. auto.
    + intros k y1 y2 Hs. destruct (Hg k y1 y2 Hs) as [H0|[Hy Hf]].
      * rewrite assoc_get_set in H0. destruct (Nat.eqb_spec k s) as [->|Hne].
        -- injection H0 as -> ->. right.
           split; [apply elem_of_cons; left; reflexivity|exact Ef].
        -- left. exact H0.
      * right. split; [apply elem_of_cons; right; exact Hy|exact Hf].
Qed.

Lemma slot_to_idx_loop_ok f ys d :
  (forall y1 y2, (y1, y2) ∈ ys -> exists s, f y1 y2 = Ret s) ->
  exists d', _get_slot_to_idx_loop f ys d = Ret d'.
Proof.
  revert d. induction ys as [|[a b] ys IH]; intros d Hf; simpl; [eauto|].
  destruct (Hf a b (proj2 (elem_of_cons _ _ _) (or_introl eq_refl))) as [s Hs]. rewrite Hs.
  apply IH. intros y1 y2 Hy. apply Hf. apply elem_of_cons. right. exact Hy.
Qed.

Lemma nth_error_lookup {A} (l : list A) k : nth_error l k = l !! k.
Proof. revert k. induction l as [|x l IH]; intros [|k]; simpl; auto. Qed.

Lemma py_index_nat {A} (l : list A) (k : nat) :
  (k < length l)%nat -> exists x, l !! k = Some x /\ py_index l (Z.of_nat k) = Ret x.
Proof.
  intros Hk. unfold py_index.
  assert (H0 : (Z.of_nat k <? 0)%Z = false) by (apply Z.ltb_ge; lia).
  assert (H1 : (0 <=? Z.of_nat k)%Z = true) by (apply Z.leb_le; lia).
  assert (H2 : (Z.of_nat k <? Z.of_nat (length l))%Z = true) by (apply Z.ltb_lt; lia).
  rewrite H0, H1, H2. simpl. rewrite Nat2Z.id, nth_error_lookup.
  destruct (lookup_lt_is_Some_2 l k Hk) as [x Hx]. rewrite Hx. eauto.
Qed.

Lemma product22_mem (y1 y2 : Z) :
  (y1 = 0 \/ y1 = 1)%Z -> (y2 = 0 \/ y2 = 1)%Z -> (y1, y2) ∈ product22.
Proof.
  intros [->| ->] [->| ->]; unfold product22; rewrite list_elem_of_In; simpl; tauto.
Qed.

Lemma slot_by_idx_lookup (leaves : list nat) (y1 y2 : Z) :
  (4 <= length leaves)%nat -> (y1, y2) ∈ product22 ->
  exists s, func_get_slot_by_idx leaves y1 y2 = Ret s /\
    take 4 leaves !! Z.to_nat (y1 * 2 + y2) = Some s.
Proof.
  intros Hl Hy. destruct (product22_range _ _ Hy) as [Hy1 Hy2].
  assert (Hk : (Z.to_nat (y1 * 2 + y2) < 4)%nat) by lia.
  destruct (py_index_nat leaves (Z.to_nat (y1 * 2 + y2))) as (s & Hs & Hp); [lia|].
  exists s. split.
  - unfold func_get_slot_by_idx. rewrite Z2Nat.id in Hp by lia. exact Hp.
  - rewrite lookup_take_lt by exact Hk. exact Hs.
Qed.

(** The four leaves [take 4 leaves] are exactly the slots
    [func_get_slot_by_idx] returns on [{0,1}^2]. *)
Lemma take4_slot (leaves : list nat) (s : nat) :
  (4 <= length leaves)%nat ->
  s ∈ take 4 leaves <->
  exists y1 y2, (y1, y2) ∈ product22 /\ func_get_slot_by_idx leaves y1 y2 = Ret s.
Proof.
  intros Hl. split.
  - intros Hs. apply list_elem_of_lookup in Hs as [i Hi].
    assert (Hi4 : (i < 4)%nat).
    { apply lookup_lt_Some in Hi. rewrite length_take in Hi. lia. }
    assert (Hp : exists y1 y2, (y1, y2) ∈ product22 /\ Z.to_nat (y1 * 2 + y2) = i).
    { destruct i as [|[|[|[|i]]]]; [exists 0%Z, 0%Z|exists 0%Z, 1%Z|exists 1%Z, 0%Z
        |exists 1%Z, 1%Z|lia];
        (split; [apply product22_mem; lia|reflexivity]). }
    destruct Hp as (y1 & y2 & Hy & <-).
    destruct (slot_by_idx_lookup leaves y1 y2 Hl Hy) as (s' & Hf & Hs').
    rewrite Hi in Hs'. injection Hs' as <-. eauto.
  - intros (y1 & y2 & Hy & Hf).
    destruct (slot_by_idx_lookup leaves y1 y2 Hl Hy) as (s' & Hf' & Hs').
    rewrite Hf in Hf'. injection Hf' as <-.
    apply list_elem_of_lookup. eauto.
Qed.

(** On distinct leaves, [func_get_slot_by_idx] is injective on [{0,1}^2]. *)
Lemma slot_by_idx_inj (leaves : list nat) a b c d s :
  NoDup (take 4 leaves) -> (4 <= length leaves)%nat ->
  (a, b) ∈ product22 -> (c, d) ∈ product22 ->
  func_get_slot_by_idx leaves a b = Ret s -> func_get_slot_by_idx leaves c d = Ret s ->
  a = c /\ b = d.
Proof.
  intros Hnd Hl Hab Hcd H1 H2.
  destruct (slot_by_idx_lookup leaves a b Hl Hab) as (s1 & F1 & L1).
  destruct (slot_by_idx_lookup leaves c d Hl Hcd) as (s2 & F2 & L2).
  rewrite H1 in F1. injection F1 as <-. rewrite H2 in F2. injection F2 as <-.
  pose proof (NoDup_lookup _ _ _ _ Hnd L1 L2) as E.
  destruct (product22_range _ _ Hab), (product22_range _ _ Hcd). lia.
Qed.

Lemma slot_to_idx_short (leaves : list nat) :
  (length leaves < 4)%nat -> _get_slot_to_idx (func_get_slot_by_idx leaves) = Raise IndexError.
Proof.
  intros Hl. destruct leaves as [|l0 [|l1 [|l2 [|l3 leaves]]]]; simpl in Hl; try lia;
    vm_compute; reflexivity.
Qed.

Lemma slot_to_idx_spec (leaves : list nat) sti :
  _get_slot_to_idx (func_get_slot_by_idx leaves) = Ret sti ->
  (4 <= length leaves)%nat /\
  (forall k, k ∈ map fst sti <-> k ∈ take 4 leaves) /\
  (forall k y1 y2, assoc_get sti k = Some (y1, y2) ->
     (y1, y2) ∈ product22 /\ func_get_slot_by_idx leaves y1 y2 = Ret k).
Proof.
  intros H.
  assert (Hl : (4 <= length leaves)%nat).
  { destruct (decide (4 <= length leaves)%nat) as [Hl|Hl]; [exact Hl|].
    rewrite slot_to_idx_short in H by lia. discriminate. }
  destruct (slot_to_idx_loop_inv _ _ _ _ H) as [Hk Hg].
  split; [exact Hl|]. split.
  - intros k. rewrite Hk, take4_slot by exact Hl. simpl.
    split; [intros [H0|H0]; [apply elem_of_nil in H0; contradiction|exact H0]|auto].
  - intros k y1 y2 Hs. destruct (Hg k y1 y2 Hs) as [H0|H0]; [discriminate|exact H0].
Qed.

(** *** The optimisation goal *)

Lemma xsum_cons a l : xsum (a :: l) = ladd a (xsum l).
Proof. reflexivity. Qed.

Lemma wirelength_le σ y1 y2 es ecs :
  Forall2 (fun e ec => fst ec = e) es ecs ->
  Forall (fun e => 0 <= e_width e) es ->
  (forall ec, ec ∈ ecs ->
     Qabs (pos_of σ y1 y2 (e_src (fst ec)) - pos_of σ y1 y2 (e_dst (fst ec))) <= σ (snd ec)) ->
  wirelength σ y1 y2 es <=
  eval_lin σ (xsum (map (fun '(e, cost_var) => lscale (e_width e) (lvar cost_var)) ecs)).
Proof.
  induction 1 as [|e [e' c] es ecs He _ IH]; intros Hw Hc.
  - simpl. rewrite eval_lconst. apply Qle_refl.
  - simpl in He. subst e'. inversion Hw as [|? ? Hw0 Hws]; subst.
    cbn [map wirelength]. rewrite xsum_cons, eval_ladd, eval_lscale, eval_lvar.
    pose proof (Hc (e, c) (proj2 (elem_of_cons _ _ _) (or_introl eq_refl))) as H0. cbn [fst snd] in H0.
    specialize (IH Hws (fun ec Hin => Hc ec (proj2 (elem_of_cons _ _ _) (or_intror Hin)))).
    pose proof (Qmult_le_compat_r _ _ _ H0 Hw0) as HM. lra.
Qed.

Lemma opt_goal_inv W v_list y1 y2 m m' u :
  _add_opt_goal W v_list y1 y2 m = Ret (m', u) ->
  ext m m' /\
  forall σ, Forall (sat σ) (m_constrs m') ->
  Forall (fun e => 0 <= e_width e) (get_all_edges W v_list) ->
  wirelength σ y1 y2 (get_all_edges W v_list) <= eval_lin σ (m_objective m').
Proof.
  unfold _add_opt_goal. cbv zeta. intros H.
  apply mbind_inv in H as (m1 & ecs & E1 & H).
  apply (mmap_inv _ _ (fun e ec _ => fst ec = e)) in E1 as [X1 F1].
  2:{ intros e mm mm' ec _ He. apply mbind_inv in He as (mc & c & Ec & He).
      apply add_var_inv in Ec as [Xc _]. cbv [mret] in He. injection He as <- <-.
      split; [exact Xc|reflexivity]. }
  2:{ intros e ec mm mm' He _. exact He. }
  apply mbind_inv in H as (m2 & [] & E2 & H).
  apply (mfor_inv _ _ (fun ec m => exists a1 b1 a2 b2,
     y1 !! e_src (fst ec) = Some a1 /\ y2 !! e_src (fst ec) = Some b1 /\
     y1 !! e_dst (fst ec) = Some a2 /\ y2 !! e_dst (fst ec) = Some b2 /\
     cge (lvar (snd ec)) (lsub (ladd (lscale 2 (lvar a1)) (lvar b1))
                               (ladd (lscale 2 (lvar a2)) (lvar b2))) ∈ m_constrs m /\
     cge (lvar (snd ec)) (lscale (-1) (lsub (ladd (lscale 2 (lvar a1)) (lvar b1))
                               (ladd (lscale 2 (lvar a2)) (lvar b2)))) ∈ m_constrs m))
    in E2 as [X2 P2].
  3:{ intros ec mm mm' (a1 & b1 & a2 & b2 & H1 & H2 & H3 & H4 & C1 & C2) Hx.
      exists a1, b1, a2, b2. repeat split; eauto using ext_constr. }
  2:{ intros [e c] mm mm' _ Hb. cbv beta iota in Hb.
      apply mbind_inv in Hb as (ma & ps & Ea & Hb).
      apply mbind_inv in Ea as (mb & a1 & Eb & Ea). apply dict_get_inv in Eb as [-> Ha1].
      apply mbind_inv in Ea as (mc & b1 & Ec & Ea). apply dict_get_inv in Ec as [-> Hb1].
      cbv [mret] in Ea. injection Ea as <- <-.
      apply mbind_inv in Hb as (md & pd & Ed & Hb).
      apply mbind_inv in Ed as (me & a2 & Ee & Ed). apply dict_get_inv in Ee as [-> Ha2].
      apply mbind_inv in Ed as (mf & b2 & Ef & Ed). apply dict_get_inv in Ef as [-> Hb2].
      cbv [mret] in Ed. injection Ed as <- <-.
      apply mbind_inv in Hb as (mg & [] & Eg & Hb). apply add_constr_inv in Eg as [Xg Cg].
      apply add_constr_inv in Hb as [Xh Ch].
      split; [exact (ext_trans _ _ _ Xg Xh)|].
      exists a1, b1, a2, b2. simpl. repeat split; auto. exact (ext_constr _ _ _ Xh Cg). }
  unfold set_objective in H. injection H as <- _.
  split.
  - destruct (ext_trans _ _ _ X1 X2) as [[l1 L1] [l2 L2]].
    split; [exists l1|exists l2]; simpl; assumption.
  - intros σ Hs Hw. simpl in Hs |- *. apply (wirelength_le _ _ _ _ _ F1 Hw).
    intros ec Hin. destruct (P2 ec Hin) as (a1 & b1 & a2 & b2 & H1 & H2 & H3 & H4 & C1 & C2).
    rewrite Forall_forall in Hs.
    pose proof (Hs _ C1) as S1. pose proof (Hs _ C2) as S2.
    rewrite sat_cge, eval_lvar, eval_lsub, !eval_ladd, !eval_lscale, !eval_lvar in S1.
    rewrite sat_cge, eval_lvar, eval_lscale, eval_lsub, !eval_ladd, !eval_lscale, !eval_lvar in S2.
    unfold pos_of. rewrite H1, H2, H3, H4.
    apply Qabs_Qle_condition. split; lra.
Qed.

(** *** Area constraints, block by block *)

Lemma Forall2_l {A B} (P : A -> Prop) (l : list A) (l' : list B) :
  Forall2 (fun x _ => P x) l l' -> forall x, x ∈ l -> P x.
Proof.
  induction 1 as [|a b l l' Ha _ IH]; intros y Hy; [apply elem_of_nil in Hy; contradiction|].
  apply elem_of_cons in Hy as [->|Hy]; auto.
Qed.

Lemma area_constraints_blocks W v_list y1v y2v f ratio m0 m1 blocks :
  _add_area_constraints W v_list y1v y2v f ratio m0 = Ret (m1, blocks) ->
  ext m0 m1 /\
  forall r y1 y2, r ∈ RESOURCE_TYPES W -> (y1, y2) ∈ product22 ->
    exists prods, block_syn W v_list y1v y2v f ratio r y1 y2 prods m1.
Proof.
  unfold _add_area_constraints. intros H.
  apply mbind_inv in H as (mo & bls & Eo & H). cbv [mret] in H. injection H as <- _.
  apply (mmap_inv _ _ (fun r _ m => forall y1 y2, (y1, y2) ∈ product22 ->
     exists prods, block_syn W v_list y1v y2v f ratio r y1 y2 prods m)) in Eo as [X Hall].
  - split; [exact X|]. intros r y1 y2 Hr Hy.
    exact (Forall2_l (fun r => forall y1 y2, (y1, y2) ∈ product22 ->
       exists prods, block_syn W v_list y1v y2v f ratio r y1 y2 prods mo) _ _ Hall r Hr y1 y2 Hy).
  - intros r mm mm' bs _ Hin.
    apply (mmap_inv _ _ (fun yy _ m =>
       exists prods, block_syn W v_list y1v y2v f ratio r yy.1 yy.2 prods m)) in Hin as [Xi Hi].
    + split; [exact Xi|]. intros y1 y2 Hy.
      exact (Forall2_l (fun yy => exists prods,
        block_syn W v_list y1v y2v f ratio r yy.1 yy.2 prods mm') _ _ Hi (y1, y2) Hy).
    + intros [y1 y2] m2 m2' blk _ Hb. cbv beta iota in Hb.
      apply mbind_inv in Hb as (ma & prods & Ab & Hb).
      apply area_block_inv in Ab as [Xa Hsyn]. cbv [mret] in Hb. injection Hb as <- _.
      split; [exact Xa|]. exists prods. exact Hsyn.
    + intros yy _ m2 m2' [prods Hs] Hx. exists prods.
      exact (block_syn_mono _ _ _ _ _ _ _ _ _ _ _ _ Hs Hx).
  - intros r _ m2 m2' Hp Hx y1 y2 Hy. destruct (Hp y1 y2 Hy) as [prods Hs]. exists prods.
    exact (block_syn_mono _ _ _ _ _ _ _ _ _ _ _ _ Hs Hx).
Qed.

Lemma slot_usage_area_sum W res (r : v2s_t) s σ prods (l : list nat) :
  (forall v, v ∈ l -> exists p, prods !! v = Some p /\
     ((r !! v = Some s /\ σ p == 1) \/ (r !! v <> Some s /\ σ p == 0))) ->
  slot_usage W res r s l ==
  area_sum σ (fun v => getVertexAndInboundFIFOArea W v res) prods l.
Proof.
  induction l as [|v l IH]; intros Hl; simpl; [reflexivity|].
  destruct (Hl v (proj2 (elem_of_cons _ _ _) (or_introl eq_refl))) as (p & Hp & Hc).
  rewrite Hp, IH by (intros w Hw; apply Hl; apply elem_of_cons; right; exact Hw).
  destruct Hc as [[Hr Hs]|[Hr Hs]].
  - rewrite (bool_decide_eq_true_2 _ Hr), Hs. ring.
  - rewrite (bool_decide_eq_false_2 _ Hr), Hs. ring.
Qed.

(** *** The 0/1 solver of the examples is sound *)

Lemma sat_b_sound σ c : sat_b σ c = true -> sat σ c.
Proof.
  unfold sat_b, sat. intros H. destruct (c_sense c).
  - apply Qle_bool_iff. exact H.
  - apply Qle_bool_iff. exact H.
  - apply Qeq_bool_iff. exact H.
Qed.

Lemma vars_ok_b_sound σ i vs :
  vars_ok_b σ i vs = true -> forall j t, vs !! j = Some t -> var_ok_b σ (i + j) t = true.
Proof.
  revert i. induction vs as [|t0 vs IH]; intros i H j t Hj; [simpl in Hj; discriminate|].
  simpl in H. apply andb_true_iff in H as [H0 H1].
  destruct j as [|j]; simpl in Hj.
  - injection Hj as <-. rewrite Nat.add_0_r. exact H0.
  - rewrite <- Nat.add_succ_comm. exact (IH _ H1 j t Hj).
Qed.

Lemma feasible_b_sound σ m : feasible_b σ m = true -> feasible σ m.
Proof.
  unfold feasible_b. intros H. apply andb_true_iff in H as [Hc Hv].
  split; [|split].
  - apply Forall_forall. intros c Hin. apply sat_b_sound.
    rewrite forallb_forall in Hc. apply Hc. apply list_elem_of_In. exact Hin.
  - intros i Hi. pose proof (vars_ok_b_sound _ _ _ Hv i _ Hi) as H. simpl in H.
    apply orb_true_iff in H as [H|H]; apply Qeq_bool_iff in H; auto.
  - intros i Hi. pose proof (vars_ok_b_sound _ _ _ Hv i _ Hi) as H. simpl in H.
    apply Qeq_bool_iff in H. exists (Qfloor (σ i)). symmetry. exact H.
Qed.

Lemma solve01_sound (t : pyval) m status x :
  solve01 m t = (status, x) -> status = OPTIMAL \/ status = FEASIBLE -> feasible x m.
Proof.
  unfold solve01. destruct (find _ _) as [l|] eqn:E.
  - intros [= <- <-] _. apply find_some in E as [_ E]. apply feasible_b_sound. exact E.
  - intros [= <- <-] [H|H]; discriminate.
Qed.

Lemma W_ilp_solver_sound t : solver_sound W_ilp t.
Proof. intros m status x H. exact (solve01_sound t m status x H). Qed.

Lemma W_ilp_builders_extend : builders_extend W_ilp.
Proof.
  split; [|split]; intros * H; simpl in H; injection H as <- _; apply ext_refl.
Qed.

(** *** Loops that only return or raise one exception *)

Lemma mfor_total {A} (l : list A) (body : A -> M unit) (e : exn) m :
  (forall x m, x ∈ l -> body x m = Raise e \/ exists m', body x m = Ret (m', tt)) ->
  mfor l body m = Raise e \/ exists m', mfor l body m = Ret (m', tt).
Proof.
  revert m. induction l as [|x l IH]; intros m Hb; simpl; [right; eexists; reflexivity|].
  unfold mbind.
  destruct (Hb x m (proj2 (elem_of_cons l x x) (or_introl eq_refl))) as [E|[m1 E]];
    rewrite E; [left; reflexivity|].
  apply IH. intros y m' Hy. apply Hb. apply elem_of_cons. right. exact Hy.
Qed.

Lemma mfor_ok {A} (l : list A) (body : A -> M unit) m :
  (forall x m, x ∈ l -> exists m', body x m = Ret (m', tt)) ->
  exists m', mfor l body m = Ret (m', tt).
Proof.
  revert m. induction l as [|x l IH]; intros m Hb; simpl; [eexists; reflexivity|].
  unfold mbind.
  destruct (Hb x m (proj2 (elem_of_cons l x x) (or_introl eq_refl))) as [m1 E]. rewrite E.
  apply IH. intros y m' Hy. apply Hb. apply elem_of_cons. right. exact Hy.
Qed.

Lemma mfor_ret_each {A} (l : list A) (body : A -> M unit) m m' u :
  mfor l body m = Ret (m', u) -> forall x, x ∈ l -> exists m1 m2, body x m1 = Ret (m2, tt).
Proof.
  revert m. induction l as [|y l IH]; intros m H x Hx; simpl in H.
  - apply elem_of_nil in Hx. contradiction.
  - mstep H. destruct a. apply elem_of_cons in Hx as [->|Hx]; [eauto|exact (IH _ H x Hx)].
Qed.

Lemma grouping_pair_cases (v2var : gmap nat nat) (g0 gi : nat) m :
  ((let* a := dict_get v2var g0 in let* b := dict_get v2var gi in
    add_constr (ceq (lvar a) (lvar b))) m = Raise KeyError \/
   exists m', (let* a := dict_get v2var g0 in let* b := dict_get v2var gi in
    add_constr (ceq (lvar a) (lvar b))) m = Ret (m', tt)) /\
  (is_Some (v2var !! g0) -> is_Some (v2var !! gi) ->
   exists m', (let* a := dict_get v2var g0 in let* b := dict_get v2var gi in
    add_constr (ceq (lvar a) (lvar b))) m = Ret (m', tt)) /\
  (forall m' u, (let* a := dict_get v2var g0 in let* b := dict_get v2var gi in
    add_constr (ceq (lvar a) (lvar b))) m = Ret (m', u) ->
   is_Some (v2var !! g0) /\ is_Some (v2var !! gi)).
Proof.
  unfold mbind, dict_get, mret, mthrow, add_constr.
  destruct (v2var !! g0) as [a|], (v2var !! gi) as [b|]; cbn.
  - split; [right; eexists; reflexivity|]. split; [intros; eexists; reflexivity|].
    intros; split; eexists; reflexivity.
  - split; [left; reflexivity|]. split; [intros _ [? H]; discriminate|discriminate].
  - split; [left; reflexivity|]. split; [intros [? H]; discriminate|discriminate].
  - split; [left; reflexivity|]. split; [intros [? H]; discriminate|discriminate].
Qed.

Lemma pre_inner_ok (W : ilp_world) (slot_to_idx : list (nat * (Z * Z)))
    (v2var_y1 v2var_y2 : gmap nat nat) (v expect_slot : nat) m :
  is_Some (v2var_y1 !! v) -> is_Some (v2var_y2 !! v) ->
  exists m', mfor (map fst slot_to_idx) (fun avail_slot =>
        if containsChildSlot W avail_slot expect_slot then
          match assoc_get slot_to_idx avail_slot with
          | Some (y1, y2) =>
              let* x1 := dict_get v2var_y1 v in
              let* _ := add_constr (ceq (lvar x1) (lconst (inject_Z y1))) in
              let* x2 := dict_get v2var_y2 v in
              add_constr (ceq (lvar x2) (lconst (inject_Z y2)))
          | None => mthrow KeyError
          end
        else mret tt) m = Ret (m', tt).
Proof.
  intros [x1 H1] [x2 H2]. apply mfor_ok. intros avail mm Ha.
  destruct (containsChildSlot W avail expect_slot); [|eexists; reflexivity].
  destruct (proj1 (assoc_get_key slot_to_idx avail) Ha) as [[z1 z2] Hs]. rewrite Hs.
  unfold mbind, dict_get, add_constr. rewrite H1, H2. cbn. eexists; reflexivity.
Qed.

(** ** Properties of [_four_way_partition] *)

(** [_four_way_partition] raises [IndexError] whenever the slot manager
    has fewer than four leaf slots: building [slot_to_idx] indexes
    [all_leaf_slots] at [y1 * 2 + y2] for the four pairs, before any
    constraint is added or the solver is called. *)
Theorem _four_way_partition_needs_four_leaves (W : ilp_world) (init_v2s : v2s_t)
    (grouping_constraints : list (list nat)) (pre_assignments : v2s_t)
    (all_leaf_slots : list nat) (max_usage_ratio : Q) (t w01 w12 w23 : pyval) :
  (length all_leaf_slots < 4)%nat ->
  _four_way_partition W init_v2s grouping_constraints pre_assignments all_leaf_slots
    max_usage_ratio t w01 w12 w23 = Raise IndexError.
Proof.
  intros Hl. unfold _four_way_partition. cbv zeta.
  destruct (alloc_y_vars_ok (map fst (map_to_list init_v2s)) ∅ ∅ empty_model)
    as (m1 & [y1 y2] & Ha).
  rewrite (mbind_ret _ _ _ _ _ Ha). cbv beta. cbn [fst snd].
  assert (Hs : lift (_get_slot_to_idx (func_get_slot_by_idx all_leaf_slots)) m1 = Raise IndexError)
    by (unfold lift; rewrite slot_to_idx_short by exact Hl; reflexivity).
  rewrite (mbind_raise _ _ _ _ Hs). reflexivity.
Qed.

Lemma _four_way_partition_needs_four_leaves_witness :
  (length [10%nat; 11%nat; 12%nat] < 4)%nat /\
  _four_way_partition W_ilp demo_init [] ∅ [10%nat; 11%nat; 12%nat] 1 (PyNum 600)
    (PyNum 12000) (PyNum 12000) (PyNum 12000) = Raise IndexError.
Proof.
  split; [simpl; lia|]. apply _four_way_partition_needs_four_leaves. simpl. lia.
Defined.

(** [_get_slot_to_idx] inverts [func_get_slot_by_idx]: with at least four
    leaf slots it returns normally, its keys are exactly the first four
    leaves, and each key [s] is mapped to a pair [(y1, y2)] in [{0,1}^2]
    with [func_get_slot_by_idx(y1, y2) = s]. *)
Theorem _get_slot_to_idx_round_trip (all_leaf_slots : list nat) :
  (4 <= length all_leaf_slots)%nat ->
  exists slot_to_idx,
    _get_slot_to_idx (func_get_slot_by_idx all_leaf_slots) = Ret slot_to_idx /\
    (forall s, s ∈ map fst slot_to_idx <-> s ∈ take 4 all_leaf_slots) /\
    (forall s y1 y2, assoc_get slot_to_idx s = Some (y1, y2) ->
       (y1, y2) ∈ product22 /\ func_get_slot_by_idx all_leaf_slots y1 y2 = Ret s).
Proof.
  intros Hl.
  destruct (slot_to_idx_loop_ok (func_get_slot_by_idx all_leaf_slots) product22 [])
    as [sti Hs].
  { intros y1 y2 Hy. destruct (product22_range _ _ Hy) as [H1 H2].
    exact (slot_by_idx_total _ _ _ Hl H1 H2). }
  exists sti. destruct (slot_to_idx_spec _ _ Hs) as (_ & Hk & Hg).
  split; [exact Hs|]. split; [exact Hk|exact Hg].
Qed.

Lemma _get_slot_to_idx_round_trip_witness :
  (4 <= length demo_leaves)%nat /\
  exists slot_to_idx,
    _get_slot_to_idx (func_get_slot_by_idx demo_leaves) = Ret slot_to_idx /\
    (forall s, s ∈ map fst slot_to_idx <-> s ∈ take 4 demo_leaves) /\
    (forall s y1 y2, assoc_get slot_to_idx s = Some (y1, y2) ->
       (y1, y2) ∈ product22 /\ func_get_slot_by_idx demo_leaves y1 y2 = Ret s).
Proof.
  split; [simpl; lia|]. apply _get_slot_to_idx_round_trip. simpl. lia.
Defined.

(** With a solver whose OPTIMAL or FEASIBLE answers satisfy the model,
    [_four_way_partition] keeps every user group together: two vertices of
    one group of [grouping_constraints] that both appear in the result are
    mapped to the same slot. *)
Theorem _four_way_partition_keeps_groups (W : ilp_world) (init_v2s : v2s_t)
    (grouping_constraints : list (list nat)) (pre_assignments : v2s_t)
    (all_leaf_slots : list nat) (max_usage_ratio : Q) (t w01 w12 w23 : pyval)
    (r : v2s_t) (grp : list nat) (v w s1 s2 : nat) :
  solver_sound W t ->
  _four_way_partition W init_v2s grouping_constraints pre_assignments all_leaf_slots
    max_usage_ratio t w01 w12 w23 = Ret r ->
  grp ∈ grouping_constraints -> v ∈ grp -> w ∈ grp ->
  r !! v = Some s1 -> r !! w = Some s2 -> s1 = s2.
Proof.
  intros Hsol H Hg Hv Hw H1 H2.
  apply four_way_stages in H as (m1 & y1v & y2v & sti & m2 & blocks & m3 & m4 & m5 & m6 & m7
    & m8 & status & x & _ & _ & _ & _ & _ & _ & _ & E8 & E9 & Eo & Er).
  destruct (get_results_lookup _ _ _ _ _ _ _ _ _ Er H1) as [Hst (a1 & b1 & A1 & B1 & F1)].
  destruct (get_results_lookup _ _ _ _ _ _ _ _ _ Er H2) as [_ (a2 & b2 & A2 & B2 & F2)].
  pose proof (Hsol _ _ _ Eo Hst) as Hf.
  apply grouping_inv in E8 as [_ Hgc]. apply opt_goal_inv in E9 as [X9 _].
  destruct grp as [|g0 rest]; [apply elem_of_nil in Hv; contradiction|].
  assert (Hlink : forall u a b, u ∈ g0 :: rest -> y1v !! u = Some a -> y2v !! u = Some b ->
     exists a0 b0, y1v !! g0 = Some a0 /\ y2v !! g0 = Some b0 /\ x a == x a0 /\ x b == x b0).
  { intros u a b Hu Ha Hb. apply elem_of_cons in Hu as [->|Hu].
    - exists a, b. repeat split; auto; reflexivity.
    - destruct (Hgc g0 rest u Hg Hu) as (a0 & ai & b0 & bi & Ha0 & Hai & Hb0 & Hbi & C1 & C2).
      rewrite Ha in Hai. injection Hai as <-. rewrite Hb in Hbi. injection Hbi as <-.
      pose proof (feasible_sat _ _ _ Hf (ext_constr _ _ _ X9 C1)) as S1.
      pose proof (feasible_sat _ _ _ Hf (ext_constr _ _ _ X9 C2)) as S2.
      rewrite sat_ceq, !eval_lvar in S1, S2.
      exists a0, b0. repeat split; auto; symmetry; assumption. }
  destruct (Hlink v a1 b1 Hv A1 B1) as (a0 & b0 & Ha0 & Hb0 & Ea & Eb).
  destruct (Hlink w a2 b2 Hw A2 B2) as (a0' & b0' & Ha0' & Hb0' & Ea' & Eb').
  rewrite Ha0 in Ha0'. injection Ha0' as <-. rewrite Hb0 in Hb0'. injection Hb0' as <-.
  rewrite (py_int_comp _ _ Ea), (py_int_comp _ _ Eb) in F1.
  rewrite (py_int_comp _ _ Ea'), (py_int_comp _ _ Eb') in F2.
  rewrite F1 in F2. injection F2 as ->. reflexivity.
Qed.

Lemma _four_way_partition_keeps_groups_witness :
  _four_way_partition W_ilp demo_init [[0%nat; 1%nat]] ∅ demo_leaves 1 (PyNum 600)
    (PyNum 12000) (PyNum 12000) (PyNum 12000) = Ret (<[1%nat := 10%nat]> {[0%nat := 10%nat]}) /\
  (10 = 10)%nat.
Proof.
  assert (E : _four_way_partition W_ilp demo_init [[0%nat; 1%nat]] ∅ demo_leaves 1 (PyNum 600)
    (PyNum 12000) (PyNum 12000) (PyNum 12000) = Ret (<[1%nat := 10%nat]> {[0%nat := 10%nat]}))
    by (vm_compute; reflexivity).
  split; [exact E|].
  apply (_four_way_partition_keeps_groups W_ilp demo_init [[0%nat; 1%nat]] ∅ demo_leaves 1
    (PyNum 600) (PyNum 12000) (PyNum 12000) (PyNum 12000)
    (<[1%nat := 10%nat]> {[0%nat := 10%nat]}) [0%nat; 1%nat] 0 1).
  - apply W_ilp_solver_sound.
  - exact E.
  - apply elem_of_cons. left. reflexivity.
  - apply elem_of_cons. left. reflexivity.
  - apply elem_of_cons. right. apply elem_of_cons. left. reflexivity.
  - reflexivity.
  - reflexivity.
Defined.

(** With a solver whose OPTIMAL or FEASIBLE answers satisfy the model,
    [_four_way_partition] honours pre-assignments: a vertex pre-assigned to
    [expect_slot] that appears in the result is placed in the leaf (among
    the four) that contains [expect_slot]. *)
Theorem _four_way_partition_honours_pre_assignments (W : ilp_world) (init_v2s : v2s_t)
    (grouping_constraints : list (list nat)) (pre_assignments : v2s_t)
    (all_leaf_slots : list nat) (max_usage_ratio : Q) (t w01 w12 w23 : pyval)
    (r : v2s_t) (v expect_slot avail_slot s : nat) :
  solver_sound W t ->
  _four_way_partition W init_v2s grouping_constraints pre_assignments all_leaf_slots
    max_usage_ratio t w01 w12 w23 = Ret r ->
  pre_assignments !! v = Some expect_slot ->
  avail_slot ∈ take 4 all_leaf_slots -> containsChildSlot W avail_slot expect_slot = true ->
  r !! v = Some s -> s = avail_slot.
Proof.
  intros Hsol H Hp Ha Hc Hr.
  apply four_way_stages in H as (m1 & y1v & y2v & sti & m2 & blocks & m3 & m4 & m5 & m6 & m7
    & m8 & status & x & _ & E2 & _ & _ & _ & _ & E7 & E8 & E9 & Eo & Er).
  destruct (get_results_lookup _ _ _ _ _ _ _ _ _ Er Hr) as [Hst (a & b & A & B & F)].
  pose proof (Hsol _ _ _ Eo Hst) as Hf.
  destruct (slot_to_idx_spec _ _ E2) as (Hl & Hk & Hg).
  apply (proj2 (Hk avail_slot)) in Ha.
  destruct (proj1 (assoc_get_key sti avail_slot) Ha) as [[y1 y2] Hy].
  destruct (Hg _ _ _ Hy) as [_ Hfy].
  apply pre_inv in E7 as [_ Hpre].
  destruct (Hpre v expect_slot avail_slot y1 y2 Hp Ha Hc Hy) as (x1 & x2 & H1 & H2 & C1 & C2).
  rewrite A in H1. injection H1 as <-. rewrite B in H2. injection H2 as <-.
  apply grouping_inv in E8 as [X8 _]. apply opt_goal_inv in E9 as [X9 _].
  pose proof (feasible_sat _ _ _ Hf (ext_constr _ _ _ X9 (ext_constr _ _ _ X8 C1))) as S1.
  pose proof (feasible_sat _ _ _ Hf (ext_constr _ _ _ X9 (ext_constr _ _ _ X8 C2))) as S2.
  rewrite sat_ceq, eval_lvar, eval_lconst in S1, S2.
  rewrite (py_int_comp _ _ S1), (py_int_comp _ _ S2), !py_int_inject, Hfy in F.
  injection F as ->. reflexivity.
Qed.

Lemma _four_way_partition_honours_pre_assignments_witness :
  _four_way_partition W_ilp demo_init [] {[0%nat := 12%nat]} demo_leaves 1 (PyNum 600)
    (PyNum 12000) (PyNum 12000) (PyNum 12000) = Ret (<[1%nat := 10%nat]> {[0%nat := 12%nat]}) /\
  (12 = 12)%nat.
Proof.
  assert (E : _four_way_partition W_ilp demo_init [] {[0%nat := 12%nat]} demo_leaves 1
    (PyNum 600) (PyNum 12000) (PyNum 12000) (PyNum 12000)
    = Ret (<[1%nat := 10%nat]> {[0%nat := 12%nat]})) by (vm_compute; reflexivity).
  split; [exact E|].
  apply (_four_way_partition_honours_pre_assignments W_ilp demo_init [] {[0%nat := 12%nat]}
    demo_leaves 1 (PyNum 600) (PyNum 12000) (PyNum 12000) (PyNum 12000)
    (<[1%nat := 10%nat]> {[0%nat := 12%nat]}) 0 12 12 12).
  - apply W_ilp_solver_sound.
  - exact E.
  - reflexivity.
  - rewrite list_elem_of_In. simpl. tauto.
  - reflexivity.
  - reflexivity.
Defined.

(** With a solver whose OPTIMAL or FEASIBLE answers satisfy the model,
    crossing-constraint builders that only add to the model, and four
    distinct leaves, a non-empty result of [_four_way_partition] respects
    the area limits: for every resource type and each of the four leaves,
    the summed [getVertexAndInboundFIFOArea()] of the vertices placed there
    is at most the leaf's [getArea()] times [max_usage_ratio]. *)
Theorem _four_way_partition_respects_capacity (W : ilp_world) (init_v2s : v2s_t)
    (grouping_constraints : list (list nat)) (pre_assignments : v2s_t)
    (all_leaf_slots : list nat) (max_usage_ratio : Q) (t w01 w12 w23 : pyval)
    (r : v2s_t) (res : string) (s : nat) :
  solver_sound W t -> builders_extend W -> NoDup (take 4 all_leaf_slots) ->
  _four_way_partition W init_v2s grouping_constraints pre_assignments all_leaf_slots
    max_usage_ratio t w01 w12 w23 = Ret r ->
  r <> ∅ -> res ∈ RESOURCE_TYPES W -> s ∈ take 4 all_leaf_slots ->
  slot_usage W res r s (map fst (map_to_list init_v2s)) <= getArea W s res * max_usage_ratio.
Proof.
  intros Hsol [B01 [B12 B23]] Hnd H Hn Hres Hs.
  apply four_way_stages in H as (m1 & y1v & y2v & sti & m2 & blocks & m3 & m4 & m5 & m6 & m7
    & m8 & status & x & E1 & E2 & E3 & E4 & E5 & E6 & E7 & E8 & E9 & Eo & Er).
  destruct (get_results_status _ _ _ _ _ _ _ Er Hn) as [Hst Ex].
  pose proof (Hsol _ _ _ Eo Hst) as Hf.
  destruct (slot_to_idx_spec _ _ E2) as (Hl & _ & _).
  apply alloc_y_vars_inv in E1 as [_ Hy].
  apply area_constraints_blocks in E3 as [X3 Hblk].
  apply B01 in E4. apply B12 in E5. apply B23 in E6.
  apply pre_inv in E7 as [X7 _]. apply grouping_inv in E8 as [X8 _].
  apply opt_goal_inv in E9 as [X9 _].
  pose proof (ext_trans _ _ _ X7 (ext_trans _ _ _ X8 X9)) as X58.
  pose proof (ext_trans _ _ _ E4 (ext_trans _ _ _ E5 (ext_trans _ _ _ E6 X58))) as X.
  pose proof (ext_trans _ _ _ X3 X) as X'.
  apply (take4_slot _ _ Hl) in Hs as (y1 & y2 & Hyy & Hfs).
  destruct (Hblk res y1 y2 Hres Hyy) as [prods Hsyn].
  pose proof (block_syn_mono _ _ _ _ _ _ _ _ _ _ _ _ Hsyn X) as Hsyn8.
  assert (B1 : map_Forall (fun _ x => m_vars m8 !! x = Some BINARY) y1v).
  { intros v a Ha. destruct (decide (v ∈ map fst (map_to_list init_v2s))) as [Hv|Hv].
    - destruct (proj1 (Hy v) Hv) as (a' & b' & Ha' & _ & Ta & _).
      rewrite Ha in Ha'. injection Ha' as <-. exact (ext_var _ _ _ _ X' Ta).
    - rewrite (proj1 (proj2 (Hy v) Hv)), lookup_empty in Ha. discriminate. }
  assert (B2 : map_Forall (fun _ x => m_vars m8 !! x = Some BINARY) y2v).
  { intros v b Hb. destruct (decide (v ∈ map fst (map_to_list init_v2s))) as [Hv|Hv].
    - destruct (proj1 (Hy v) Hv) as (a' & b' & _ & Hb' & _ & Tb).
      rewrite Hb in Hb'. injection Hb' as <-. exact (ext_var _ _ _ _ X' Tb).
    - rewrite (proj2 (proj2 (Hy v) Hv)), lookup_empty in Hb. discriminate. }
  destruct (product22_range _ _ Hyy) as [Hy1 Hy2].
  destruct (block_syn_sem _ _ _ _ _ _ _ _ _ _ _ _ Hsyn8 B1 B2 Hy1 Hy2 Hf)
    as [Hv (slot & Hslot & Hle)].
  rewrite Hfs in Hslot. injection Hslot as <-.
  rewrite (slot_usage_area_sum W res r s x prods); [exact Hle|].
  intros v Hin. destruct (Hv v Hin) as (p & x1 & x2 & Hp & H1 & H2 & Bp & Hiff).
  exists p. split; [exact Hp|].
  destruct (extract_results_sound _ _ _ _ _ _ _ Ex) as [Hkeys _].
  destruct (proj2 (Hkeys v) (or_introl Hin)) as [s' Hs'].
  destruct (extract_results_lookup _ _ _ _ _ _ _ _ _ Ex Hs') as [(a & b & A & B & F)|Hn0];
    [|rewrite lookup_empty in Hn0; discriminate].
  rewrite H1 in A. injection A as <-. rewrite H2 in B. injection B as <-.
  destruct (binary_py_int_eq (x x1) (feasible_binary _ _ _ Hf (B1 v x1 H1))) as [Q1 R1].
  destruct (binary_py_int_eq (x x2) (feasible_binary _ _ _ Hf (B2 v x2 H2))) as [Q2 R2].
  destruct Bp as [Bp|Bp].
  - right. split; [|exact Bp]. rewrite Hs'. intros [= Es]. subst s'.
    destruct (slot_by_idx_inj _ _ _ _ _ _ Hnd Hl (product22_mem _ _ R1 R2) Hyy F Hfs)
      as [<- <-].
    assert (x p == 1) by (apply Hiff; split; assumption). lra.
  - left. split; [|exact Bp]. rewrite Hs'. f_equal.
    destruct (proj1 Hiff Bp) as [Z1 Z2].
    rewrite (py_int_comp _ _ Z1), (py_int_comp _ _ Z2), !py_int_inject, Hfs in F.
    injection F as ->. reflexivity.
Qed.

Lemma _four_way_partition_respects_capacity_witness :
  _four_way_partition W_ilp demo_init [] ∅ demo_leaves (1 # 10) (PyNum 600)
    (PyNum 12000) (PyNum 12000) (PyNum 12000) = Ret (<[1%nat := 10%nat]> {[0%nat := 11%nat]}) /\
  slot_usage W_ilp "LUT" (<[1%nat := 10%nat]> {[0%nat := 11%nat]}) 10
    (map fst (map_to_list demo_init)) <= getArea W_ilp 10 "LUT" * (1 # 10).
Proof.
  assert (E : _four_way_partition W_ilp demo_init [] ∅ demo_leaves (1 # 10) (PyNum 600)
    (PyNum 12000) (PyNum 12000) (PyNum 12000)
    = Ret (<[1%nat := 10%nat]> {[0%nat := 11%nat]})) by (vm_compute; reflexivity).
  split; [exact E|].
  apply (_four_way_partition_respects_capacity W_ilp demo_init [] ∅ demo_leaves (1 # 10)
    (PyNum 600) (PyNum 12000) (PyNum 12000) (PyNum 12000)).
  - apply W_ilp_solver_sound.
  - apply W_ilp_builders_extend.
  - simpl. repeat constructor; rewrite ?list_elem_of_In; simpl; lia.
  - exact E.
  - apply insert_non_empty.
  - apply elem_of_cons. left. reflexivity.
  - apply elem_of_cons. left. reflexivity.
Defined.

(** The objective that [_add_opt_goal] sets bounds the weighted wire
    length: with non-negative edge widths, at every feasible assignment of
    the resulting model the objective is at least the sum over
    [get_all_edges(v_list)] of [e.width] times the distance between the
    positions [y1 * 2 + y2] of the edge's ends. *)
Theorem _add_opt_goal_bounds_wirelength (W : ilp_world) (v_list : list nat)
    (v2var_y1 v2var_y2 : gmap nat nat) (m m' : model) (u : unit) (σ : nat -> Q) :
  _add_opt_goal W v_list v2var_y1 v2var_y2 m = Ret (m', u) ->
  Forall (fun e => 0 <= e_width e) (get_all_edges W v_list) ->
  feasible σ m' ->
  wirelength σ v2var_y1 v2var_y2 (get_all_edges W v_list) <= eval_lin σ (m_objective m').
Proof.
  intros H Hw [Hc _]. apply opt_goal_inv in H as [_ H]. exact (H σ Hc Hw).
Qed.

Lemma _add_opt_goal_bounds_wirelength_witness :
  exists m',
    _add_opt_goal W_edge [0%nat; 1%nat] demo_y1 demo_y2 demo_model = Ret (m', tt) /\
    Forall (fun e => 0 <= e_width e) (get_all_edges W_edge [0%nat; 1%nat]) /\
    feasible (of_list [0; 1; 1; 1; 3]) m' /\
    wirelength (of_list [0; 1; 1; 1; 3]) demo_y1 demo_y2 (get_all_edges W_edge [0%nat; 1%nat])
    <= eval_lin (of_list [0; 1; 1; 1; 3]) (m_objective m').
Proof.
  eexists. split; [vm_compute; reflexivity|].
  assert (Hw : Forall (fun e => 0 <= e_width e) (get_all_edges W_edge [0%nat; 1%nat]))
    by (repeat constructor; discriminate).
  split; [exact Hw|]. split; [apply feasible_b_sound; vm_compute; reflexivity|].
  apply (_add_opt_goal_bounds_wirelength W_edge [0%nat; 1%nat] demo_y1 demo_y2 demo_model _ tt);
    [vm_compute; reflexivity|exact Hw|apply feasible_b_sound; vm_compute; reflexivity].
Defined.

(** [_add_grouping_constraints] either returns or raises [KeyError], and
    it returns exactly when every vertex of every group with at least two
    members is a key of both [v2var_y1] and [v2var_y2]; groups of one
    vertex (or none) are never looked up. *)
Theorem _add_grouping_constraints_key_error (grouping_constraints : list (list nat))
    (v2var_y1 v2var_y2 : gmap nat nat) (m : model) :
  (_add_grouping_constraints grouping_constraints v2var_y1 v2var_y2 m = Raise KeyError \/
   exists m', _add_grouping_constraints grouping_constraints v2var_y1 v2var_y2 m = Ret (m', tt)) /\
  ((exists m', _add_grouping_constraints grouping_constraints v2var_y1 v2var_y2 m = Ret (m', tt)) <->
   forall grouping v, grouping ∈ grouping_constraints -> (2 <= length grouping)%nat ->
     v ∈ grouping -> is_Some (v2var_y1 !! v) /\ is_Some (v2var_y2 !! v)).
Proof.
  unfold _add_grouping_constraints. split; [|split].
  - apply mfor_total. intros [|g0 rest] mm _; [right; eexists; reflexivity|].
    apply mfor_total. intros gi m1 _. apply mfor_total. intros v2var m2 _.
    exact (proj1 (grouping_pair_cases v2var g0 gi m2)).
  - intros [m' H] grp v Hg Hlen Hv.
    destruct (mfor_ret_each _ _ _ _ _ H grp Hg) as (m1 & m2 & Hb).
    destruct grp as [|g0 rest]; [simpl in Hlen; lia|].
    assert (Hk : forall gi, gi ∈ rest ->
      (is_Some (v2var_y1 !! g0) /\ is_Some (v2var_y1 !! gi)) /\
      (is_Some (v2var_y2 !! g0) /\ is_Some (v2var_y2 !! gi))).
    { intros gi Hgi. destruct (mfor_ret_each _ _ _ _ _ Hb gi Hgi) as (m3 & m4 & Hc).
      destruct (mfor_ret_each _ _ _ _ _ Hc v2var_y1 ltac:(apply elem_of_cons; left; reflexivity)) as (m5 & m6 & H1).
      destruct (mfor_ret_each _ _ _ _ _ Hc v2var_y2
        ltac:(apply elem_of_cons; right; apply elem_of_cons; left; reflexivity)) as (m7 & m8 & H2).
      split; [exact (proj2 (proj2 (grouping_pair_cases v2var_y1 g0 gi m5)) _ _ H1)
             |exact (proj2 (proj2 (grouping_pair_cases v2var_y2 g0 gi m7)) _ _ H2)]. }
    apply elem_of_cons in Hv as [->|Hv].
    + destruct rest as [|g1 rest]; [simpl in Hlen; lia|].
      destruct (Hk g1 ltac:(apply elem_of_cons; left; reflexivity)) as [[A _] [B _]]. split; assumption.
    + destruct (Hk v Hv) as [[_ A] [_ B]]. split; assumption.
  - intros Hk. apply mfor_ok. intros [|g0 rest] mm Hg; [eexists; reflexivity|].
    destruct rest as [|g1 rest']; [eexists; reflexivity|].
    apply mfor_ok. intros gi m1 Hgi. apply mfor_ok. intros v2var m2 Hv2.
    assert (K0 := Hk _ g0 Hg ltac:(simpl; lia) ltac:(apply elem_of_cons; left; reflexivity)).
    assert (Ki := Hk _ gi Hg ltac:(simpl; lia) ltac:(apply elem_of_cons; right; exact Hgi)).
    apply elem_of_cons in Hv2 as [->|Hv2];
      [|apply elem_of_cons in Hv2 as [->|Hv2]; [|apply elem_of_nil in Hv2; contradiction]].
    + exact (proj1 (proj2 (grouping_pair_cases v2var_y1 g0 gi m2)) (proj1 K0) (proj1 Ki)).
    + exact (proj1 (proj2 (grouping_pair_cases v2var_y2 g0 gi m2)) (proj2 K0) (proj2 Ki)).
Qed.

(** When [v2var_y1] and [v2var_y2] have a variable for every vertex of
    [v_list] (as [_four_way_partition] builds them), [_add_pre_assignment]
    either returns or raises [AssertionError], and it returns exactly when
    every pre-assigned vertex belongs to [v_list]. *)
Theorem _add_pre_assignment_assertion (W : ilp_world) (v_list : list nat)
    (slot_to_idx : list (nat * (Z * Z))) (pre_assignments : v2s_t)
    (v2var_y1 v2var_y2 : gmap nat nat) (m : model) :
  (forall v, v ∈ v_list -> is_Some (v2var_y1 !! v) /\ is_Some (v2var_y2 !! v)) ->
  (_add_pre_assignment W v_list slot_to_idx pre_assignments v2var_y1 v2var_y2 m
     = Raise AssertionError \/
   exists m', _add_pre_assignment W v_list slot_to_idx pre_assignments v2var_y1 v2var_y2 m
     = Ret (m', tt)) /\
  ((exists m', _add_pre_assignment W v_list slot_to_idx pre_assignments v2var_y1 v2var_y2 m
     = Ret (m', tt)) <->
   forall v expect_slot, pre_assignments !! v = Some expect_slot -> v ∈ v_list).
Proof.
  intros Hy. unfold _add_pre_assignment. split; [|split].
  - apply mfor_total. intros [v e] mm _. cbv beta iota.
    case_bool_decide as Hv; [right|left; reflexivity].
    destruct (Hy v Hv) as [K1 K2]. exact (pre_inner_ok W slot_to_idx _ _ v e mm K1 K2).
  - intros [m' H] v e Hp.
    destruct (mfor_ret_each _ _ _ _ _ H (v, e) (proj2 (elem_of_map_to_list _ _ _) Hp))
      as (m1 & m2 & Hb).
    cbv beta iota in Hb. case_bool_decide as Hv; [exact Hv|discriminate].
  - intros Hk. apply mfor_ok. intros [v e] mm Hin. cbv beta iota.
    apply elem_of_map_to_list in Hin. apply Hk in Hin.
    rewrite bool_decide_eq_true_2 by exact Hin.
    destruct (Hy v Hin) as [K1 K2]. exact (pre_inner_ok W slot_to_idx _ _ v e mm K1 K2).
Qed.

Lemma _add_pre_assignment_assertion_witness :
  (forall v, v ∈ [0%nat; 1%nat] -> is_Some (demo_y1 !! v) /\ is_Some (demo_y2 !! v)) /\
  (_add_pre_assignment W_ilp [0%nat; 1%nat] [] {[2%nat := 12%nat]} demo_y1 demo_y2 demo_model
     = Raise AssertionError \/
   exists m', _add_pre_assignment W_ilp [0%nat; 1%nat] [] {[2%nat := 12%nat]} demo_y1 demo_y2
     demo_model = Ret (m', tt)) /\
  ((exists m', _add_pre_assignment W_ilp [0%nat; 1%nat] [] {[2%nat := 12%nat]} demo_y1 demo_y2
     demo_model = Ret (m', tt)) <->
   forall v expect_slot, ({[2%nat := 12%nat]} : v2s_t) !! v = Some expect_slot ->
     v ∈ [0%nat; 1%nat]).
Proof.
  assert (Hy : forall v, v ∈ [0%nat; 1%nat] -> is_Some (demo_y1 !! v) /\ is_Some (demo_y2 !! v)).
  { intros v Hv. rewrite list_elem_of_In in Hv. simpl in Hv.
    destruct Hv as [<-|[<-|[]]]; split; eexists; reflexivity. }
  split; [exact Hy|]. exact (_add_pre_assignment_assertion W_ilp _ _ _ _ _ demo_model Hy).
Defined.
